(** * TextResonanceAnalyzer: the interactive tree visualization

    A shallow embedding of [src/static/js/tree-visualization.js] (class
    [TreeVisualization]) and the proofs of the properties its specification
    states about it, followed by further properties of that class and of the
    computations of the page controller ([NLPAnalyzer] of
    [src/static/js/app.js]).

    Conventions of the embedding.
    - A JavaScript value that is tested for truthiness keeps the cases the
      test distinguishes ([jsval], [slot]).
    - A hierarchy node is the object [d3.hierarchy] allocates: its own
      properties ([data], [depth], [id], [x], [y], [x0], [y0]) and the two
      array-valued properties [children] and [_children].  The [parent]
      back-reference is the position in the tree.
    - The methods mutate nodes in place; a node is named by its path from the
      root (the child index at every level), which no method changes, and an
      in-place write is [upd] at that path.
    - JavaScript numbers are IEEE doubles.  A double is the rational it is;
      where the code divides or multiplies doubles ([centerTree], the reading
      time) every operation is followed by the rounding of binary64 ([fl]).
      The positions a layout yields are kept as it yields them, a depth times
      180 and a half of the height are exact in doubles, and the id counter
      is an unbounded natural number.
    - Of the D3 library, which is not part of the repository: [d3.hierarchy]
      and [node.descendants()] are modelled as documented, the layout
      [d3.tree()] is an arbitrary function held by the state, and [centerTree]
      yields the transform it hands to [zoom.transform].  A data join is the
      list of keys bound to the elements a pass keeps (its enter and update
      selections), in the order of the data.  The elements of an exit
      selection, which are removed when their transition of 600 ms ends, are
      not among them: a call is taken to begin when the transitions of the
      call before have ended.  The order of the elements in the document is
      not modelled. *)

From Stdlib Require Import String.
From Stdlib Require Import List Bool Arith NArith ZArith QArith Qminmax Lia Lqa.
From Stdlib Require Import Qabs Qround Qpower.
Import ListNotations.

Set Warnings "-register-all".

(** ** JavaScript values *)

(** The values the [name] field of a payload can hold. *)
Inductive jsval : Type :=
| JUndefined
| JNull
| JBool (b : bool)
| JNum (q : Q)
| JNaN
| JStr (s : string).

(** [!!v]: [undefined], [null], [false], [0], [NaN] and the empty string are
    falsy, every other value is truthy. *)
Definition truthy (v : jsval) : bool :=
  match v with
  | JUndefined | JNull | JNaN => false
  | JBool b => b
  | JNum q => negb (Qeq_bool q 0)
  | JStr s => negb (String.eqb s EmptyString)
  end.

(** An array-valued property: absent, [null], or an array.  An array is
    truthy even when it is empty. *)
Inductive slot (A : Type) : Type :=
| Undefined
| Null
| Arr (l : list A).
Arguments Undefined {A}.
Arguments Null {A}.
Arguments Arr {A} l.

Definition slot_truthy {A} (s : slot A) : bool :=
  match s with Arr _ => true | _ => false end.

(** The elements an [Array.prototype.forEach] over the property visits. *)
Definition slot_list {A} (s : slot A) : list A :=
  match s with Arr l => l | _ => [] end.

(** The outcome of a method call: it returns, or it throws. *)
Inductive outcome (A : Type) : Type :=
| Ok (a : A)
| Throw (e : string).
Arguments Ok {A} a.
Arguments Throw {A} e.

(** ** The payload *)

(** [TreeData]: the JSON payload.  [td_children = []] stands for an absent as
    well as for an empty [children] array ([d3.hierarchy] treats both as a
    leaf); [description] and [sentiment] are read by the tooltip only. *)
Inductive TreeData : Type := mkTreeData {
  td_name : jsval;
  td_type : string;
  td_value : option Q;
  td_children : list TreeData
}.

(** The argument of [updateTree]. *)
Inductive payload : Type :=
| PUndefined
| PNull
| PObject (td : TreeData).

Definition payload_truthy (p : payload) : bool :=
  match p with PObject _ => true | _ => false end.

(** [treeData.name]: reading a property of [null] or [undefined] throws a
    [TypeError]. *)
Definition get_name (p : payload) : outcome jsval :=
  match p with
  | PObject td => Ok (td_name td)
  | _ => Throw "TypeError: cannot read properties of null or undefined"
  end.

(** ** Hierarchy nodes *)

Definition Path := list nat.

Module Node.

(** The scalar properties of a node object.  [id], [x], [y], [x0], [y0] are
    [None] while the property is [undefined]. *)
Record props : Type := Props {
  data : TreeData;
  depth : nat;
  id : option N;
  x : option Q;
  y : option Q;
  x0 : option Q;
  y0 : option Q
}.

Inductive t : Type := mk {
  own : props;
  children : slot t;
  _children : slot t
}.

Definition set_id (k : N) (p : props) : props :=
  Props (data p) (depth p) (Some k) (x p) (y p) (x0 p) (y0 p).

Definition set_xy (vx vy : option Q) (p : props) : props :=
  Props (data p) (depth p) (id p) vx vy (x0 p) (y0 p).

Definition set_x0y0 (vx vy : option Q) (p : props) : props :=
  Props (data p) (depth p) (id p) (x p) (y p) vx vy.

(** A write to scalar properties of the node object. *)
Definition on_own (f : props -> props) (d : t) : t :=
  mk (f (own d)) (children d) (_children d).

End Node.

Abbreviation Node := Node.t.
Coercion Node.own : Node.t >-> Node.props.

(** Nested induction over a node and the nodes of both of its arrays. *)
Lemma Node_ind' (P : Node -> Prop) :
  (forall o ch cch,
      Forall P (slot_list ch) -> Forall P (slot_list cch) ->
      P (Node.mk o ch cch)) ->
  forall d, P d.
Proof.
  intros step.
  fix IH 1.
  intros [o ch cch].
  apply step.
  - destruct ch as [| |l]; simpl; try constructor.
    induction l as [|c l IHl]; constructor; [apply IH | exact IHl].
  - destruct cch as [| |l]; simpl; try constructor.
    induction l as [|c l IHl]; constructor; [apply IH | exact IHl].
Qed.

(** Modelled from the spec: [d3.hierarchy] is the D3 library's and not under
    src/.  "Converts payload depth-first into HierarchyNode instances with
    parent links"; "depth of a node = parent's depth + 1; root depth = 0";
    "children: ordered sequence of TreeNode? - absent/empty = leaf".  A fresh
    node has no [_children], no [id] and no position. *)
Fixpoint hierarchy_at (dp : nat) (td : TreeData) : Node :=
  match td with
  | mkTreeData nm ty v ch =>
      Node.mk (Node.Props td dp None None None None None)
              (match ch with
               | [] => Undefined
               | _ :: _ => Arr (map (hierarchy_at (S dp)) ch)
               end)
              Undefined
  end.

Definition hierarchy (td : TreeData) : Node := hierarchy_at 0 td.

(** ** Expand / collapse *)

(** [collapse(d)]:
    [if (d.children) { d._children = d.children;
                       d._children.forEach(child => this.collapse(child));
                       d.children = null; }] *)
Fixpoint collapse (d : Node) : Node :=
  match d with
  | Node.mk o ch cch =>
      match ch with
      | Arr l => Node.mk o Null (Arr (map collapse l))
      | _ => d
      end
  end.

(** The assignments of [toggleNode(event, d)] before it calls [render]:
    [if (d.children) { d._children = d.children; d.children = null; }
     else { d.children = d._children; d._children = null; }] *)
Definition toggle (d : Node) : Node :=
  if slot_truthy (Node.children d)
  then Node.mk d Null (Node.children d)
  else Node.mk d (Node._children d) Null.

(** The local function [expand] of [expandAll]:
    [if (d._children) { d.children = d._children; d._children = null; }
     if (d.children) { d.children.forEach(expand); }]
    After the first statement [d.children] is the former [d._children] when
    that was an array, and the former [d.children] otherwise. *)
Fixpoint expand (d : Node) : Node :=
  match d with
  | Node.mk o ch cch =>
      match cch with
      | Arr l => Node.mk o (Arr (map expand l)) Null
      | _ =>
          match ch with
          | Arr l => Node.mk o (Arr (map expand l)) cch
          | _ => d
          end
      end
  end.

(** ** Paths *)

(** The array a node's children live in: [children] when it is an array,
    [_children] otherwise. *)
Definition kids (d : Node) : list Node :=
  match Node.children d with
  | Arr l => l
  | _ => slot_list (Node._children d)
  end.

(** The node at a path. *)
Fixpoint get (d : Node) (p : Path) : option Node :=
  match p with
  | [] => Some d
  | i :: p' =>
      match nth_error (kids d) i with
      | Some c => get c p'
      | None => None
      end
  end.

Fixpoint list_upd {A} (i : nat) (f : A -> A) (l : list A) {struct l} : list A :=
  match l, i with
  | [], _ => []
  | a :: l', O => f a :: l'
  | a :: l', S i' => a :: list_upd i' f l'
  end.

(** An in-place write [f] to the node at a path; nothing happens when the
    path names no node. *)
Fixpoint upd (p : Path) (f : Node -> Node) (d : Node) : Node :=
  match p with
  | [] => f d
  | i :: p' =>
      match Node.children d with
      | Arr l => Node.mk d (Arr (list_upd i (upd p' f) l)) (Node._children d)
      | _ =>
          match Node._children d with
          | Arr l => Node.mk d (Node.children d) (Arr (list_upd i (upd p' f) l))
          | _ => d
          end
      end
  end.

(** ** The visible tree *)

(** The tree that the [children] chains expose: what [d3.tree] lays out and
    what [node.descendants()] traverses. *)
Inductive shape : Type := Sh (l : list shape).

Fixpoint vshape (d : Node) : shape :=
  match d with
  | Node.mk _ ch _ =>
      match ch with
      | Arr l => Sh (map vshape l)
      | _ => Sh []
      end
  end.

(** The shape of the whole payload. *)
Fixpoint td_shape (td : TreeData) : shape :=
  match td with
  | mkTreeData _ _ _ ch => Sh (map td_shape ch)
  end.

Fixpoint merge_levels (a b : list (list Path)) : list (list Path) :=
  match a, b with
  | [], _ => b
  | _, [] => a
  | l :: a', m :: b' => (l ++ m) :: merge_levels a' b'
  end.

Fixpoint level_children (sub : list (list (list Path))) (i : nat)
  : list (list Path) :=
  match sub with
  | [] => []
  | lv :: sub' =>
      merge_levels (map (map (cons i)) lv) (level_children sub' (S i))
  end.

(** The paths of a shape, generation by generation. *)
Fixpoint levels (s : shape) : list (list Path) :=
  match s with
  | Sh l => [[]] :: level_children (map levels l) 0
  end.

(** The traversal of [node.descendants()], which is D3's and not under src/:
    the node, then its children, then their children, each generation in
    order (D3 visits breadth-first).  What is proved below rests on which
    nodes the traversal lists and on the root coming first ([slice(1)] drops
    it), not on the order of the others. *)
Definition bfs_paths (s : shape) : list Path := List.concat (levels s).

(** [treeData.descendants()], as the paths of the nodes. *)
Definition descendants (d : Node) : list Path := bfs_paths (vshape d).

(** ** The component's state *)

(** [emptyState.style.display]. *)
Inductive Display : Type := DisplayInitial | DisplayBlock | DisplayNone.

(** The fields of a [TreeVisualization] that the methods below read or
    write.  [tree] is the layout [d3.tree()]: with the size [[sx, sy]] it
    gives the node at a path of a visible tree its [(x, y)]; the size is
    re-read from [height] and [width] where the layout is used, as
    [updateDimensions] keeps them in step.  [emptyState] is [None] when the
    page has no such element; [dom_nodes] and [dom_links] are the join keys of
    the [.node] and [.link] elements inside [g] once the exit transitions have
    removed theirs, in the order of the data they were last bound to (entering
    links are inserted before the first node group, so that the document has
    the links in another order). *)
Record TreeVisualization : Type := mkTV {
  tree : Q -> Q -> shape -> Path -> Q * Q;
  width : Q;
  height : Q;
  root : option Node;
  nodeId : N;
  emptyState : option Display;
  dom_nodes : list N;
  dom_links : list N
}.

Definition with_root (st : TreeVisualization) (r : option Node) :=
  mkTV (tree st) (width st) (height st) r (nodeId st) (emptyState st)
       (dom_nodes st) (dom_links st).

(** [showEmptyState()]: [if (this.emptyState) this.emptyState.style.display = 'block'] *)
Definition showEmptyState (st : TreeVisualization) : TreeVisualization :=
  mkTV (tree st) (width st) (height st) (root st) (nodeId st)
       (match emptyState st with Some _ => Some DisplayBlock | None => None end)
       (dom_nodes st) (dom_links st).

(** [hideEmptyState()]: [if (this.emptyState) this.emptyState.style.display = 'none'] *)
Definition hideEmptyState (st : TreeVisualization) : TreeVisualization :=
  mkTV (tree st) (width st) (height st) (root st) (nodeId st)
       (match emptyState st with Some _ => Some DisplayNone | None => None end)
       (dom_nodes st) (dom_links st).

(** [clearTree()]:
    [this.showEmptyState(); if (this.g) this.g.selectAll('*').remove();
     this.root = null;] *)
Definition clearTree (st : TreeVisualization) : TreeVisualization :=
  let st1 := showEmptyState st in
  mkTV (tree st1) (width st1) (height st1) None (nodeId st1) (emptyState st1) [] [].

(** [updateDimensions()], for a container rectangle [rw] by [rh]:
    [this.width = rect.width || 800;
     this.height = Math.max(rect.height || 500, 500);] *)
Definition updateDimensions (st : TreeVisualization) (rw rh : Q)
  : TreeVisualization :=
  mkTV (tree st)
       (if Qeq_bool rw 0 then 800 else rw)
       (Qmax (if Qeq_bool rh 0 then 500 else rh) 500)
       (root st) (nodeId st) (emptyState st) (dom_nodes st) (dom_links st).

(** The state the constructor leaves: [nodeId] is read from the prototype,
    where it is 0. *)
Definition construct (d3_tree : Q -> Q -> shape -> Path -> Q * Q)
  (rw rh : Q) (emptyEl : option Display) : TreeVisualization :=
  updateDimensions (mkTV d3_tree 0 500 None 0 emptyEl [] []) rw rh.

(** The margins: 20 on every side. *)
Definition margin : Q := 20.

(** ** Rendering *)

(** Sequencing: a throw ends the method. *)
Definition bind {A B} (m : outcome A) (k : A -> outcome B) : outcome B :=
  match m with
  | Ok a => k a
  | Throw e => Throw e
  end.

(** The key function of both data joins:
    [d => d.id || (d.id = ++this.nodeId)], applied to the node at [p]. *)
Definition key_step (tc : Node * N) (p : Path) : Node * N :=
  match get (fst tc) p with
  | None => tc
  | Some d =>
      let fresh := (upd p (Node.on_own (Node.set_id (snd tc + 1))) (fst tc),
                    (snd tc + 1)%N) in
      match Node.id d with
      | Some k => if N.eqb k 0 then fresh else tc
      | None => fresh
      end
  end.

(** The key a bound node carries. *)
Definition key_of (t : Node) (p : Path) : N :=
  match get t p with
  | Some d => match Node.id d with Some k => k | None => 0%N end
  | None => 0%N
  end.

(** [d.y = d.depth * 180]. *)
Definition depth_y (o : Node.props) : Q :=
  inject_Z (Z.of_nat (Node.depth o) * 180).

(** [nodes.forEach(d => ...)]: the write [f p] to the node at every path [p]
    of [ps], in order. *)
Definition for_each (f : Path -> Node -> Node) (ps : list Path) (t : Node) : Node :=
  fold_left (fun t p => upd p (f p) t) ps t.

(** [const treeData = this.tree(this.root)]. *)
Definition tree_layout (st : TreeVisualization) (r : Node) : Node :=
  let sx := height st - margin - margin in
  let sy := width st - margin - margin in
  let s := vshape r in
  for_each (fun p => Node.on_own
              (Node.set_xy (Some (fst (tree st sx sy s p)))
                           (Some (snd (tree st sx sy s p)))))
           (descendants r) r.

(** [nodes.forEach(d => { d.y = d.depth * 180; })]. *)
Definition depth_spacing (r : Node) : Node :=
  for_each (fun _ => Node.on_own
              (fun o => Node.set_xy (Node.x o) (Some (depth_y o)) o))
           (descendants r) r.

(** The tree and the counter after the link join (over
    [descendants().slice(1)]) and the node join (over [descendants()]). *)
Definition joined (st : TreeVisualization) (r : Node) : Node * N :=
  let t := depth_spacing (tree_layout st r) in
  let nodes := descendants t in
  fold_left key_step nodes (fold_left key_step (tl nodes) (t, nodeId st)).

(** [node.enter()] with the [transform] each entering element is created
    with: [translate(${this.root.y0},${this.root.x0})]. *)
Definition nodeEnter (st : TreeVisualization)
  : list (Path * (option Q * option Q)) :=
  match root st with
  | None => []
  | Some r =>
      let t := fst (joined st r) in
      map (fun p => (p, (Node.y0 t, Node.x0 t)))
          (filter (fun p => negb (existsb (N.eqb (key_of t p)) (dom_nodes st)))
                  (descendants t))
  end.

(** [nodes.forEach(d => { d.x0 = d.x; d.y0 = d.y; })]. *)
Definition store_positions (r : Node) : Node :=
  for_each (fun _ => Node.on_own
              (fun o => Node.set_x0y0 (Node.x o) (Node.y o) o))
           (descendants r) r.

(** [render()]. *)
Definition render (st : TreeVisualization) : TreeVisualization :=
  match root st with
  | None => st
  | Some r =>
      let t := fst (joined st r) in
      let nodes := descendants t in
      mkTV (tree st) (width st) (height st) (Some (store_positions t))
           (snd (joined st r)) (emptyState st)
           (map (key_of t) nodes) (map (key_of t) (tl nodes))
  end.

(** The default collapse policy of [updateTree]:
    [this.root.children?.forEach(child => {
       if (child.children) this.collapse(child); })] *)
Definition collapse_below_root (r : Node) : Node :=
  match Node.children r with
  | Arr l =>
      Node.mk r
        (Arr (map (fun child =>
                     if slot_truthy (Node.children child)
                     then collapse child else child) l))
        (Node._children r)
  | _ => r
  end.

(** [this.root = d3.hierarchy(treeData);
     this.root.x0 = this.height / 2; this.root.y0 = 0;] *)
Definition new_root (st : TreeVisualization) (td : TreeData) : Node :=
  Node.on_own (Node.set_x0y0 (Some (height st / 2)) (Some 0))
              (hierarchy td).

Definition as_object (p : payload) : outcome TreeData :=
  match p with
  | PObject td => Ok td
  | _ => Throw "TypeError: cannot read properties of null or undefined"
  end.

(** [updateTree(treeData)].  The final [centerTree()] writes the zoom
    transform only, which is no field of this state; see [centerTree]. *)
Definition updateTree (st : TreeVisualization) (treeData : payload)
  : outcome TreeVisualization :=
  if negb (payload_truthy treeData) then Ok (clearTree st)
  else
    bind (get_name treeData) (fun nm =>
      if negb (truthy nm) then Ok (clearTree st)
      else
        bind (as_object treeData) (fun td =>
          let st1 := hideEmptyState st in
          Ok (render
                (with_root st1
                   (Some (collapse_below_root (new_root st1 td))))))).

(** [toggleNode(event, d)] for the node [d] at path [p]. *)
Definition toggleNode (st : TreeVisualization) (p : Path) : TreeVisualization :=
  match root st with
  | None => st
  | Some r => render (with_root st (Some (upd p toggle r)))
  end.

(** [expandAll()]. *)
Definition expandAll (st : TreeVisualization) : TreeVisualization :=
  match root st with
  | None => st
  | Some r => render (with_root st (Some (expand r)))
  end.

(** [collapseAll()]:
    [if (this.root.children)
       this.root.children.forEach(child => this.collapse(child));
     this.render();] *)
Definition collapseAll (st : TreeVisualization) : TreeVisualization :=
  match root st with
  | None => st
  | Some r =>
      render (with_root st
                (Some (match Node.children r with
                       | Arr l => Node.mk r (Arr (map collapse l)) (Node._children r)
                       | _ => r
                       end)))
  end.

(** The resize observer's callback:
    [this.updateDimensions(); if (this.root) this.render();] *)
Definition resize (st : TreeVisualization) (rw rh : Q) : TreeVisualization :=
  render (updateDimensions st rw rh).

(** The calls a page makes on one instance. *)
Inductive Op : Type :=
| Build (treeData : payload)
| ToggleNode (p : Path)
| Collapse (p : Path)
| ExpandAll
| CollapseAll
| Render
| Resize (rw rh : Q)
| ClearTree.

Definition step (st : TreeVisualization) (o : Op) : outcome TreeVisualization :=
  match o with
  | Build treeData => updateTree st treeData
  | ToggleNode p => Ok (toggleNode st p)
  | Collapse p =>
      Ok (match root st with
          | None => st
          | Some r => with_root st (Some (upd p collapse r))
          end)
  | ExpandAll => Ok (expandAll st)
  | CollapseAll => Ok (collapseAll st)
  | Render => Ok (render st)
  | Resize rw rh => Ok (resize st rw rh)
  | ClearTree => Ok (clearTree st)
  end.

Fixpoint run (st : TreeVisualization) (ops : list Op) : outcome TreeVisualization :=
  match ops with
  | [] => Ok st
  | o :: ops' => bind (step st o) (fun st' => run st' ops')
  end.

(** ** Numbers *)

(** A JavaScript number: a finite double, as the rational it is, an infinity
    or NaN.  Signed zeros are not told apart: 0 is +0, as the quotients of
    non-negative bounding-box dimensions are. *)
Inductive jsnum : Type := Fin (q : Q) | PosInf | NegInf | NaN.

(** The integer [l] with [2^l <= a < 2^(l+1)], for a positive [a]. *)
Definition ilog2 (a : Q) : Z :=
  let k := (Z.log2 (Qnum a) - Z.log2 (Zpos (Qden a)))%Z in
  if Qle_bool (2 ^ k) a then k else (k - 1)%Z.

(** The integer nearest to [q], the even one of two that are as near. *)
Definition round_half_even (q : Q) : Z :=
  let f := Qfloor q in
  match Qcompare (q - inject_Z f) (1 # 2) with
  | Lt => f
  | Gt => (f + 1)%Z
  | Eq => if Z.even f then f else (f + 1)%Z
  end.

(** The double an exact result [x] is rounded to (binary64, round to nearest,
    ties to even): a multiple of [2^e] with at most 53 bits, [e] being no
    less than -1074, the exponent of the subnormal numbers; an infinity when
    the rounded magnitude reaches [2^1024]. *)
Definition fl (x : Q) : jsnum :=
  if Qeq_bool x 0 then Fin 0
  else
    let a := Qabs x in
    let e := Z.max (ilog2 a - 52) (-1074) in
    let y := inject_Z (round_half_even (a / 2 ^ e)) * 2 ^ e in
    if Qle_bool (2 ^ 1024) y
    then (if Qle_bool 0 x then PosInf else NegInf)
    else Fin (if Qle_bool 0 x then y else - y).

Definition jneg (a : jsnum) : jsnum :=
  match a with
  | Fin p => Fin (- p)
  | PosInf => NegInf
  | NegInf => PosInf
  | NaN => NaN
  end.

(** [a / b]. *)
Definition jdiv (a b : jsnum) : jsnum :=
  match a, b with
  | NaN, _ | _, NaN => NaN
  | Fin p, Fin q =>
      if Qeq_bool q 0
      then (if Qeq_bool p 0 then NaN else if Qle_bool 0 p then PosInf else NegInf)
      else fl (p / q)
  | Fin _, _ => Fin 0
  | PosInf, Fin q => if Qle_bool 0 q then PosInf else NegInf
  | NegInf, Fin q => if Qle_bool 0 q then NegInf else PosInf
  | _, _ => NaN
  end.

(** [Math.max]. *)
Definition jmax (a b : jsnum) : jsnum :=
  match a, b with
  | NaN, _ | _, NaN => NaN
  | PosInf, _ | _, PosInf => PosInf
  | NegInf, c | c, NegInf => c
  | Fin p, Fin q => Fin (Qmax p q)
  end.

(** [a * b]. *)
Definition jmul (a b : jsnum) : jsnum :=
  match a, b with
  | NaN, _ | _, NaN => NaN
  | Fin p, Fin q => fl (p * q)
  | Fin p, c | c, Fin p =>
      if Qeq_bool p 0 then NaN else if Qle_bool 0 p then c else jneg c
  | PosInf, PosInf | NegInf, NegInf => PosInf
  | _, _ => NegInf
  end.

(** [a - b]. *)
Definition jsub (a b : jsnum) : jsnum :=
  match a, b with
  | NaN, _ | _, NaN => NaN
  | Fin p, Fin q => fl (p - q)
  | Fin _, c => jneg c
  | PosInf, PosInf | NegInf, NegInf => NaN
  | c, _ => c
  end.

(** [a + b]. *)
Definition jadd (a b : jsnum) : jsnum :=
  match a, b with
  | NaN, _ | _, NaN => NaN
  | Fin p, Fin q => fl (p + q)
  | Fin _, c => c
  | PosInf, NegInf | NegInf, PosInf => NaN
  | c, _ => c
  end.

(** [Math.ceil]. *)
Definition jceil (a : jsnum) : jsnum :=
  match a with
  | Fin q => Fin (inject_Z (Qceiling q))
  | _ => a
  end.

(** [2^-53], half of [Number.EPSILON]: the relative error of one rounding is
    at most this, underflow apart. *)
Definition roundoff : Q := 1 # 9007199254740992.

(** ** Centering *)

(** [this.g.node().getBBox()]: four doubles. *)
Record BBox : Type := mkBBox {
  bbox_x : Q;
  bbox_y : Q;
  bbox_width : Q;
  bbox_height : Q
}.

(** [d3.zoomIdentity.translate(tx, ty).scale(k)]. *)
Record ZoomTransform : Type := mkZoom {
  zoom_x : jsnum;
  zoom_y : jsnum;
  zoom_k : jsnum
}.

(** [d3.zoom().scaleExtent([0.1, 3])]. *)
Definition scaleExtent : Q * Q := (1 # 10, 3).

(** [centerTree()], for the bounding box [bounds] of [g]: the transform it
    hands to [this.zoom.transform], or [None] when it returns at
    [if (!this.root) return;].  Every operation rounds as the doubles do,
    and [0.9] is the double the literal denotes.
    [centerX = bounds.x + fullWidth / 2; centerY = bounds.y + fullHeight / 2;
     scale = 0.9 / Math.max(fullWidth / this.width, fullHeight / this.height);
     translate = [this.width / 2 - scale * centerX,
                  this.height / 2 - scale * centerY];] *)
Definition centerTree (st : TreeVisualization) (bounds : BBox)
  : option ZoomTransform :=
  match root st with
  | None => None
  | Some _ =>
      let fullWidth := Fin (bbox_width bounds) in
      let fullHeight := Fin (bbox_height bounds) in
      let centerX := jadd (Fin (bbox_x bounds)) (jdiv fullWidth (Fin 2)) in
      let centerY := jadd (Fin (bbox_y bounds)) (jdiv fullHeight (Fin 2)) in
      let scale :=
        jdiv (fl (9 # 10))
             (jmax (jdiv fullWidth (Fin (width st)))
                   (jdiv fullHeight (Fin (height st)))) in
      Some (mkZoom (jsub (jdiv (Fin (width st)) (Fin 2)) (jmul scale centerX))
                   (jsub (jdiv (Fin (height st)) (Fin 2)) (jmul scale centerY))
                   scale)
  end.

(** ** Vocabulary of the properties *)

(** The scalar properties of the node at a path. *)
Definition own_at (d : Node) (p : Path) : option Node.props :=
  option_map Node.own (get d p).

(** The id of the node at a path, if the path names a node that has one. *)
Definition id_at (r : Node) (p : Path) : option N :=
  match own_at r p with
  | Some o => Node.id o
  | None => None
  end.

(** [visibleChildren] and [collapsedChildren] of the specification. *)
Definition vis (d : Node) : list Node := slot_list (Node.children d).
Definition col (d : Node) : list Node := slot_list (Node._children d).

(** The nodes of a tree, through either array. *)
Inductive subnode (n : Node) : Node -> Prop :=
| sub_self : subnode n n
| sub_children d c : In c (vis d) -> subnode n c -> subnode n d
| sub__children d c : In c (col d) -> subnode n c -> subnode n d.

(** At most one of the two properties holds an array, and the array a node
    has holds one node per child of its payload, in the payload's order. *)
Definition slots_ok (d : Node) : Prop :=
  (slot_truthy (Node.children d) = true ->
   slot_truthy (Node._children d) = false) /\
  map (fun c : Node => Node.data c) (kids d) = td_children (Node.data d).

Definition wf (r : Node) : Prop :=
  forall p n, get r p = Some n -> slots_ok n.

(** Every id in the tree was drawn from the counter, and no two nodes share
    one. *)
Definition ids_ok (r : Node) (c : N) : Prop :=
  (forall p k, id_at r p = Some k -> (1 <= k <= c)%N) /\
  (forall p q k, id_at r p = Some k -> id_at r q = Some k -> p = q).

Definition state_ok (st : TreeVisualization) : Prop :=
  match root st with
  | None => True
  | Some r =>
      wf r /\ ids_ok r (nodeId st) /\
      truthy (td_name (Node.data r)) = true
  end.

(** A state some sequence of calls on a new instance leads to. *)
Definition reachable (st : TreeVisualization) : Prop :=
  exists d3_tree rw rh emptyEl ops,
    run (construct d3_tree rw rh emptyEl) ops = Ok st.

(** A node without what [render] writes on it and on the nodes below it:
    [id], [x], [y], [x0], [y0]. *)
Fixpoint erase (d : Node) : Node :=
  match d with
  | Node.mk o ch cch =>
      Node.mk (Node.Props (Node.data o) (Node.depth o) None None None None None)
              (match ch with
               | Arr l => Arr (map erase l)
               | Undefined => Undefined
               | Null => Null
               end)
              (match cch with
               | Arr l => Arr (map erase l)
               | Undefined => Undefined
               | Null => Null
               end)
  end.

(** Whether a node is expanded, collapsed, or neither. *)
Definition node_state (d : Node) : bool * bool :=
  (slot_truthy (Node.children d), slot_truthy (Node._children d)).

(** ** Further vocabulary *)

(** The sub-shape at a path. *)
Fixpoint shape_get (s : shape) (p : Path) : option shape :=
  match p with
  | [] => Some s
  | i :: p' =>
      match s with
      | Sh l =>
          match nth_error l i with
          | Some c => shape_get c p'
          | None => None
          end
      end
  end.

(** The node at [p] carries a truthy id. *)
Definition has_key (t : Node) (p : Path) : Prop :=
  exists k, id_at t p = Some k /\ k <> 0%N.

(** The tree before the joins of a pass. *)
Definition laid_out (st : TreeVisualization) (r : Node) : Node :=
  depth_spacing (tree_layout st r).

(** The tree a pass leaves. *)
Definition rendered (st : TreeVisualization) (r : Node) : Node :=
  store_positions (fst (joined st r)).

(** The calls that put another tree, or none, in place of the current one. *)
Definition replaces_tree (o : Op) : bool :=
  match o with
  | Build _ | ClearTree => true
  | _ => false
  end.

(** A node with payload children has exactly one non-empty child array; both
    are empty only for a leaf of the payload. *)
Definition children_partition (n : Node) : Prop :=
  (td_children (Node.data n) <> [] ->
   (vis n <> [] /\ col n = []) \/ (vis n = [] /\ col n <> [])) /\
  (vis n = [] -> col n = [] -> td_children (Node.data n) = []).

(** ** Sample inputs *)

(** A layout to evaluate the methods with: nodes 30 apart, generations a
    quarter of the extent apart. *)
Definition sample_layout (sx sy : Q) (s : shape) (p : Path) : Q * Q :=
  (sx / 2 + inject_Z (Z.of_nat (list_sum p + length p)) * 30,
   inject_Z (Z.of_nat (length p)) * (sy / 4)).

Definition sample_leaf (nm ty : string) : TreeData :=
  mkTreeData (JStr nm) ty None [].

(** The payload of the specification's scenario:
    root -> E1 -> cat. *)
Definition sample_payload : TreeData :=
  mkTreeData (JStr "root") "root" None
    [mkTreeData (JStr "E1") "entity_group" None [sample_leaf "cat" "entity"]].

Definition sample_start : TreeVisualization :=
  construct sample_layout 800 500 (Some DisplayInitial).

(** The state after [updateTree(sample_payload)]. *)
Definition sample_built : TreeVisualization :=
  match run sample_start [Build (PObject sample_payload)] with
  | Ok st => st
  | Throw _ => sample_start
  end.

Definition sample_root : Node :=
  match root sample_built with
  | Some r => r
  | None => hierarchy sample_payload
  end.

(** The node E1 of the built tree. *)
Definition sample_E1 : Node :=
  match get sample_root [0%nat] with
  | Some n => n
  | None => sample_root
  end.

(** The state in which [toggleNode] calls [render] after a click on E1 of
    the built sample. *)
Definition sample_toggled : TreeVisualization :=
  with_root sample_built (Some (upd [0%nat] toggle sample_root)).

(** ** More of the tree visualization *)

(** [d.data.value || 4]: 4 for an absent value and for 0. *)
Definition value_or_4 (td : TreeData) : Q :=
  match td_value td with
  | Some v => if Qeq_bool v 0 then 4 else v
  | None => 4
  end.

(** The radius [render] gives a node's circle:
    [Math.max(4, Math.min(10, d.data.value || 4))]. *)
Definition node_radius (d : Node) : Q :=
  Qmax 4 (Qmin 10 (value_or_4 (Node.data d))).

(** The [x] of a node's label: [d.children || d._children ? -13 : 13]. *)
Definition label_x (d : Node) : Q :=
  if slot_truthy (Node.children d) || slot_truthy (Node._children d)
  then -13 else 13.

Inductive Anchor : Type := AnchorEnd | AnchorStart.

(** The [text-anchor] of a node's label:
    [d.children || d._children ? 'end' : 'start']. *)
Definition text_anchor (d : Node) : Anchor :=
  if slot_truthy (Node.children d) || slot_truthy (Node._children d)
  then AnchorEnd else AnchorStart.

(** The state in which [updateTree], given a payload with a truthy name,
    calls [render]. *)
Definition updateTree_pass (st : TreeVisualization) (td : TreeData)
  : TreeVisualization :=
  with_root (hideEmptyState st)
    (Some (collapse_below_root (new_root (hideEmptyState st) td))).

(** The rendered elements are those of the visible nodes: what a pass of
    [render] leaves once its exit transitions have ended, and [clearTree]. *)
Definition in_sync (st : TreeVisualization) : Prop :=
  match root st with
  | None => dom_nodes st = []
  | Some r =>
      dom_nodes st = map (key_of r) (descendants r) /\
      forall q, In q (descendants r) -> has_key r q
  end.

(** No node has an empty array in [children] or in [_children]. *)
Definition arrays_ok (d : Node) : Prop :=
  Node.children d <> Arr [] /\ Node._children d <> Arr [].

(** So at every node of the tree. *)
Definition tidy (r : Node) : Prop :=
  forall p n, get r p = Some n -> arrays_ok n.

(** ** The page controller ([NLPAnalyzer]) *)




(** The reading time of [displayTextStats]:
    [Math.ceil((data.word_count || 0) / wordsPerMinute)], [wordsPerMinute]
    being 200 and [None] standing for an absent count; the quotient is the
    double the division yields. *)
Definition readingTime (word_count : option Q) : jsnum :=
  jceil (jdiv (Fin (match word_count with
                    | Some n => if Qeq_bool n 0 then 0 else n
                    | None => 0
                    end))
              (Fin 200)).

(** One tick of the counter of [animateStatNumbers], every 16 ms:
    [current += increment;
     if (current >= target) { current = target; clearInterval(counter); }
     stat.textContent = Math.floor(current);]
    The state is [current] and whether the interval is still set.
    [increment] is [target / (duration / 16)], [duration] being 1500. *)
Definition stat_increment (target : Q) : Q := target / (1500 / 16).


Definition stat_tick (target : Q) (s : Q * bool) : Q * bool :=
  if snd s then
    let current := fst s + stat_increment target in
    if Qle_bool target current then (target, false) else (current, true)
  else s.



(** The counter after [n] more ticks. *)
Fixpoint stat_ticks (n : nat) (target : Q) (s : Q * bool) : Q * bool :=
  match n with
  | O => s
  | S n' => stat_ticks n' target (stat_tick target s)
  end.

(** * Properties *)

(** ** Lists updated at an index *)

Lemma nth_error_list_upd {A} (f : A -> A) l i j :
  nth_error (list_upd i f l) j =
  if Nat.eqb i j then option_map f (nth_error l j) else nth_error l j.
Proof.
  revert i j.
  induction l as [|a l IH]; intros i j.
  - destruct i, j; simpl; try reflexivity; destruct (Nat.eqb i j); reflexivity.
  - destruct i, j; simpl; try reflexivity. apply IH.
Qed.

Lemma map_list_upd {A B} (g : A -> B) (f : A -> A) l i :
  (forall a, nth_error l i = Some a -> g (f a) = g a) ->
  map g (list_upd i f l) = map g l.
Proof.
  revert i.
  induction l as [|a l IH]; intros i H; [reflexivity|].
  destruct i; simpl.
  - rewrite H; reflexivity.
  - rewrite IH; [reflexivity|]. intros b Hb. apply H. exact Hb.
Qed.

Lemma list_upd_list_upd {A} (f g : A -> A) l i :
  list_upd i g (list_upd i f l) = list_upd i (fun a => g (f a)) l.
Proof.
  revert i.
  induction l as [|a l IH]; intros i; [reflexivity|].
  destruct i; simpl; [reflexivity|]. rewrite IH. reflexivity.
Qed.

(** ** Reading and writing at a path *)

Lemma kids_upd_cons i p f d :
  kids (upd (i :: p) f d) = list_upd i (upd p f) (kids d).
Proof.
  destruct d as [o ch cch]. unfold kids.
  destruct ch as [| |l]; destruct cch as [| |l']; reflexivity.
Qed.

Lemma own_upd_cons i p f d : Node.own (upd (i :: p) f d) = Node.own d.
Proof.
  destruct d as [o ch cch]. simpl.
  destruct ch as [| |l]; try reflexivity;
    destruct cch as [| |l']; reflexivity.
Qed.

(** A write below a node leaves alone which of its two properties holds an
    array. *)
Lemma truthy_upd_cons i p f d :
  slot_truthy (Node.children (upd (i :: p) f d)) = slot_truthy (Node.children d) /\
  slot_truthy (Node._children (upd (i :: p) f d)) = slot_truthy (Node._children d).
Proof.
  destruct d as [o ch cch]. simpl.
  destruct ch as [| |l]; destruct cch as [| |l']; simpl; split; reflexivity.
Qed.

Lemma get_upd_same f p : forall d, get (upd p f d) p = option_map f (get d p).
Proof.
  induction p as [|i p IH]; intros d; [reflexivity|].
  cbn [get]. rewrite kids_upd_cons, nth_error_list_upd, Nat.eqb_refl.
  destruct (nth_error (kids d) i) as [c|]; simpl; [apply IH | reflexivity].
Qed.

(** A write at [p] that keeps the written node's scalar properties and the
    scalar properties of everything below it keeps them everywhere. *)
Lemma own_at_upd f p : forall d q,
  (forall n, get d p = Some n -> forall q', own_at (f n) q' = own_at n q') ->
  own_at (upd p f d) q = own_at d q.
Proof.
  unfold own_at.
  induction p as [|i p IH]; intros d q Hf.
  - simpl. apply Hf. reflexivity.
  - destruct q as [|j q].
    + cbn [get option_map]. rewrite own_upd_cons. reflexivity.
    + cbn [get]. rewrite kids_upd_cons, nth_error_list_upd.
      destruct (Nat.eqb_spec i j) as [->|Hij]; [|reflexivity].
      destruct (nth_error (kids d) j) as [c|] eqn:Hc; [|reflexivity].
      cbn [option_map]. apply IH.
      intros n Hn. apply Hf. cbn [get]. rewrite Hc. exact Hn.
Qed.

(** A write to the scalar properties of the node at [p] is seen at [p] and
    nowhere else. *)
Lemma own_at_upd_own phi p d q :
  own_at (upd p (Node.on_own phi) d) q =
  if list_eq_dec Nat.eq_dec q p then option_map phi (own_at d q) else own_at d q.
Proof.
  unfold own_at.
  revert d q. induction p as [|i p IH]; intros d q.
  - destruct q as [|j q].
    + reflexivity.
    + destruct (list_eq_dec Nat.eq_dec (j :: q) []) as [E|_]; [discriminate|].
      reflexivity.
  - destruct q as [|j q].
    + destruct (list_eq_dec Nat.eq_dec [] (i :: p)) as [E|_]; [discriminate|].
      cbn [get option_map]. rewrite own_upd_cons. reflexivity.
    + cbn [get]. rewrite kids_upd_cons, nth_error_list_upd.
      destruct (Nat.eqb_spec i j) as [->|Hij].
      * destruct (nth_error (kids d) j) as [c|] eqn:Hc.
        -- cbn [option_map]. rewrite IH.
           destruct (list_eq_dec Nat.eq_dec q p) as [->|Hqp];
             destruct (list_eq_dec Nat.eq_dec (j :: p) (j :: p)) as [_|Hn];
             try reflexivity; try (exfalso; apply Hn; reflexivity).
           destruct (list_eq_dec Nat.eq_dec (j :: q) (j :: p)) as [E|_];
             [injection E as E; contradiction | reflexivity].
        -- cbn [option_map].
           destruct (list_eq_dec Nat.eq_dec (j :: q) (j :: p)); reflexivity.
      * destruct (list_eq_dec Nat.eq_dec (j :: q) (i :: p)) as [E|_];
          [injection E as E1 E2; exfalso; apply Hij; symmetry; exact E1 | reflexivity].
Qed.

(** ** The visible shape and its traversal *)

Lemma vshape_unfold d : vshape d = Sh (map vshape (slot_list (Node.children d))).
Proof. destruct d as [o [| |l] cch]; reflexivity. Qed.

Lemma vshape_upd (f : Node -> Node) p : forall d,
  (forall n, get d p = Some n -> vshape (f n) = vshape n) ->
  vshape (upd p f d) = vshape d.
Proof.
  induction p as [|i p IH]; intros d Hf; [apply Hf; reflexivity|].
  destruct d as [o ch cch].
  destruct ch as [| |l]; cbn [upd Node.children Node._children].
  - destruct cch; reflexivity.
  - destruct cch; reflexivity.
  - cbn [vshape]. f_equal. apply map_list_upd. intros c Hc. apply IH.
    intros n Hn. apply Hf. cbn [get]. unfold kids. cbn [Node.children].
    rewrite Hc. exact Hn.
Qed.

Lemma vshape_for_each (F : Path -> Node.props -> Node.props) ps : forall d,
  vshape (for_each (fun p => Node.on_own (F p)) ps d) = vshape d.
Proof.
  unfold for_each.
  induction ps as [|p ps IH]; intros d; [reflexivity|].
  cbn [fold_left]. rewrite IH. apply vshape_upd.
  intros [o ch cch] _. reflexivity.
Qed.

Lemma In_concat_merge (q : Path) a : forall b,
  In q (List.concat (merge_levels a b)) <->
  In q (List.concat a) \/ In q (List.concat b).
Proof.
  induction a as [|l a IH]; intros b.
  - simpl. tauto.
  - destruct b as [|m b].
    + simpl. tauto.
    + cbn [merge_levels List.concat]. rewrite !in_app_iff, IH. tauto.
Qed.

Lemma In_level_children (q : Path) subs : forall k,
  In q (List.concat (level_children subs k)) <->
  exists j lv q', nth_error subs j = Some lv /\ q = (k + j)%nat :: q' /\
                  In q' (List.concat lv).
Proof.
  induction subs as [|lv subs IH]; intros k.
  - simpl. split; [tauto|]. intros (j & lv & q' & H & _). destruct j; discriminate.
  - cbn [level_children]. rewrite In_concat_merge, IH. split.
    + intros [H|(j & lv' & q' & H1 & H2 & H3)].
      * exists 0%nat, lv.
        apply in_concat in H. destruct H as (m & Hm & Hq).
        apply in_map_iff in Hm. destruct Hm as (m0 & <- & Hm0).
        apply in_map_iff in Hq. destruct Hq as (q' & <- & Hq').
        exists q'. rewrite Nat.add_0_r. repeat split.
        apply in_concat. exists m0. split; assumption.
      * exists (S j), lv', q'. repeat split; try assumption.
        rewrite H2. f_equal. lia.
    + intros (j & lv' & q' & H1 & H2 & H3). destruct j as [|j].
      * left. injection H1 as <-. rewrite Nat.add_0_r in H2. subst q.
        apply in_concat in H3. destruct H3 as (m & Hm & Hq').
        apply in_concat. exists (map (cons k) m). split.
        -- apply in_map. exact Hm.
        -- apply in_map. exact Hq'.
      * right. exists j, lv', q'. repeat split; try assumption.
        rewrite H2. f_equal. lia.
Qed.

Lemma In_bfs_nil s : In [] (bfs_paths s).
Proof. destruct s as [l]. left. reflexivity. Qed.

Lemma In_bfs_cons i p l :
  In (i :: p) (bfs_paths (Sh l)) <->
  exists c, nth_error l i = Some c /\ In p (bfs_paths c).
Proof.
  unfold bfs_paths at 1. cbn [levels List.concat].
  rewrite in_app_iff, In_level_children. split.
  - intros [[H|[]]|(j & lv & q' & H1 & H2 & H3)]; [discriminate|].
    injection H2 as -> ->. rewrite nth_error_map in H1.
    destruct (nth_error l j) as [c|]; [|discriminate].
    injection H1 as <-. exists c. split; [reflexivity | exact H3].
  - intros (c & Hc & Hp). right. exists i, (levels c), p.
    rewrite nth_error_map, Hc. repeat split. exact Hp.
Qed.

(** The traversal lists exactly the paths of the shape. *)
Lemma In_bfs_paths p : forall s,
  In p (bfs_paths s) <-> exists s', shape_get s p = Some s'.
Proof.
  induction p as [|i p IH]; intros s.
  - split; [intros _; exists s; reflexivity | intros _; apply In_bfs_nil].
  - destruct s as [l]. rewrite In_bfs_cons. cbn [shape_get]. split.
    + intros (c & Hc & Hp). rewrite Hc. apply IH. exact Hp.
    + intros (s' & H). destruct (nth_error l i) as [c|]; [|discriminate].
      exists c. split; [reflexivity|]. apply IH. exists s'. exact H.
Qed.

(** A visible path names a node, reached through [children] arrays. *)
Lemma shape_get_vshape p : forall d s',
  shape_get (vshape d) p = Some s' ->
  exists n, get d p = Some n /\ vshape n = s'.
Proof.
  induction p as [|i p IH]; intros d s' H.
  - injection H as <-. exists d. split; reflexivity.
  - rewrite vshape_unfold in H. cbn [shape_get] in H.
    rewrite nth_error_map in H.
    destruct d as [o ch cch]. destruct ch as [| |l];
      cbn [slot_list Node.children] in H;
      try (destruct i; discriminate).
    cbn [get]. unfold kids. cbn [Node.children].
    destruct (nth_error l i) as [c|]; [|discriminate].
    apply IH. exact H.
Qed.

Lemma descendants_get d p :
  In p (descendants d) -> exists n, get d p = Some n.
Proof.
  unfold descendants. rewrite In_bfs_paths. intros (s' & H).
  destruct (shape_get_vshape _ _ _ H) as (n & Hn & _). exists n. exact Hn.
Qed.

(** The traversal of a tree with one generation below the root. *)
Lemma level_children_leaves l : forall k,
  (forall c, In c l -> c = Sh []) ->
  level_children (map levels l) k =
  match l with
  | [] => []
  | _ :: _ => [map (fun i => [i]) (seq k (length l))]
  end.
Proof.
  induction l as [|c l IH]; intros k H; [reflexivity|].
  cbn [map level_children]. rewrite IH by (intros c' Hc'; apply H; right; exact Hc').
  rewrite (H c) by (left; reflexivity).
  destruct l; reflexivity.
Qed.

Lemma bfs_paths_two_levels l :
  (forall c, In c l -> c = Sh []) ->
  bfs_paths (Sh l) = [] :: map (fun i => [i]) (seq 0 (length l)).
Proof.
  intros H. unfold bfs_paths. cbn [levels List.concat].
  rewrite level_children_leaves by exact H.
  destruct l; [reflexivity|]. cbn [List.concat]. rewrite app_nil_r. reflexivity.
Qed.

(** ** Well-formed trees *)

Lemma wf_child d i c : wf d -> nth_error (kids d) i = Some c -> wf c.
Proof.
  intros H Hc p n Hn. apply (H (i :: p)). cbn [get]. rewrite Hc. exact Hn.
Qed.

Lemma wf_intro d :
  slots_ok d -> (forall i c, nth_error (kids d) i = Some c -> wf c) -> wf d.
Proof.
  intros Hd Hk [|i p] n Hn.
  - injection Hn as <-. exact Hd.
  - cbn [get] in Hn. destruct (nth_error (kids d) i) as [c|] eqn:Hc; [|discriminate].
    exact (Hk i c Hc p n Hn).
Qed.

Lemma data_upd (f : Node -> Node) p (d : Node) :
  (forall n, Node.data (f n) = Node.data n) ->
  Node.data (upd p f d) = Node.data d.
Proof.
  intros Hf. destruct p as [|i p]; [apply Hf|]. rewrite own_upd_cons. reflexivity.
Qed.

Lemma wf_upd (f : Node -> Node) p : forall d,
  (forall n, wf n -> wf (f n)) ->
  (forall n, Node.data (f n) = Node.data n) ->
  wf d -> wf (upd p f d).
Proof.
  induction p as [|i p IH]; intros d Hf Hdata Hd; [apply Hf, Hd|].
  apply wf_intro.
  - destruct (Hd [] d eq_refl) as [H1 H2].
    destruct (truthy_upd_cons i p f d) as [T1 T2].
    split.
    + rewrite T1, T2. exact H1.
    + rewrite kids_upd_cons, own_upd_cons, <- H2.
      apply map_list_upd. intros c _. apply data_upd, Hdata.
  - intros j c. rewrite kids_upd_cons, nth_error_list_upd.
    destruct (Nat.eqb i j).
    + destruct (nth_error (kids d) j) as [c0|] eqn:Hc0; [|discriminate].
      intros E. injection E as <-. apply IH; try assumption.
      exact (wf_child _ j _ Hd Hc0).
    + intros Hc. exact (wf_child _ j _ Hd Hc).
Qed.

Lemma wf_on_own phi n :
  (forall o, Node.data (phi o) = Node.data o) -> wf n -> wf (Node.on_own phi n).
Proof.
  intros Hphi Hn. apply wf_intro.
  - destruct (Hn [] n eq_refl) as [H1 H2]. split; [exact H1|].
    unfold kids, Node.on_own in *. cbn. rewrite Hphi. exact H2.
  - intros i c Hc. exact (wf_child _ i _ Hn Hc).
Qed.

Lemma wf_for_each (F : Path -> Node.props -> Node.props) ps : forall d,
  (forall p o, Node.data (F p o) = Node.data o) ->
  wf d -> wf (for_each (fun p => Node.on_own (F p)) ps d).
Proof.
  unfold for_each.
  induction ps as [|p ps IH]; intros d HF Hd; [exact Hd|].
  cbn [fold_left]. apply IH; [exact HF|].
  apply wf_upd; [| |exact Hd].
  - intros n. apply wf_on_own, HF.
  - intros n. cbn. apply HF.
Qed.

Lemma data_collapse d : Node.data (collapse d) = Node.data d.
Proof. destruct d as [o [| |l] cch]; reflexivity. Qed.

Lemma data_expand d : Node.data (expand d) = Node.data d.
Proof. destruct d as [o [| |l] [| |l']]; reflexivity. Qed.

Lemma data_toggle d : Node.data (toggle d) = Node.data d.
Proof. destruct d as [o [| |l] cch]; reflexivity. Qed.

(** Toggling moves the array as it is. *)
Lemma kids_toggle n : kids (toggle n) = kids n.
Proof.
  destruct n as [o ch cch]. unfold toggle, kids. cbn.
  destruct ch as [| |l]; destruct cch as [| |l']; reflexivity.
Qed.

Lemma wf_toggle n : wf n -> wf (toggle n).
Proof.
  intros Hn. destruct (Hn [] n eq_refl) as [H1 H2].
  apply wf_intro.
  - split.
    + destruct n as [o ch cch]. unfold toggle. cbn.
      destruct ch; cbn; intros; try reflexivity; discriminate.
    + rewrite kids_toggle, data_toggle. exact H2.
  - intros i c. rewrite kids_toggle. intros Hc. exact (wf_child _ i _ Hn Hc).
Qed.

Lemma wf_collapse : forall d, wf d -> wf (collapse d).
Proof.
  induction d as [o ch cch IHch _] using Node_ind'. intros Hd.
  destruct ch as [| |l]; try exact Hd.
  cbn [collapse]. destruct (Hd [] _ eq_refl) as [_ H2].
  unfold kids in H2. cbn in H2.
  apply wf_intro.
  - split; [discriminate|]. unfold kids. cbn. rewrite map_map.
    rewrite <- H2. apply map_ext. intros c. apply data_collapse.
  - intros i c'. unfold kids. cbn. rewrite nth_error_map.
    destruct (nth_error l i) as [c|] eqn:Hc; [|discriminate].
    intros E. injection E as <-.
    cbn in IHch. rewrite Forall_forall in IHch.
    apply IHch; [exact (nth_error_In _ _ Hc)|].
    apply (wf_child _ i _ Hd). unfold kids. cbn. exact Hc.
Qed.

Lemma wf_expand : forall d, wf d -> wf (expand d).
Proof.
  induction d as [o ch cch IHch IHcch] using Node_ind'. intros Hd.
  destruct (Hd [] _ eq_refl) as [H1 H2]. cbn in H1. cbn [Node.own] in H2.
  assert (K : forall l, kids (Node.mk o ch cch) = l ->
              Forall (fun c => wf c -> wf (expand c)) l ->
              forall cch', slot_truthy cch' = false ->
              wf (Node.mk o (Arr (map expand l)) cch')).
  { intros l Hl IH cch' Hcch'. apply wf_intro.
    - split; [intros _; exact Hcch'|]. unfold kids. cbn. rewrite map_map.
      rewrite <- H2, Hl. apply map_ext. intros c. apply data_expand.
    - intros i c'. unfold kids. cbn. rewrite nth_error_map.
      destruct (nth_error l i) as [c|] eqn:Hc; [|discriminate].
      intros E. injection E as <-. rewrite Forall_forall in IH.
      apply IH; [exact (nth_error_In _ _ Hc)|].
      apply (wf_child _ i _ Hd). rewrite Hl. exact Hc. }
  destruct cch as [| |l'].
  - destruct ch as [| |l]; try exact Hd.
    cbn [expand]. apply K; [reflexivity | exact IHch | reflexivity].
  - destruct ch as [| |l]; try exact Hd.
    cbn [expand]. apply K; [reflexivity | exact IHch | reflexivity].
  - cbn [expand]. apply K; [|exact IHcch | reflexivity].
    destruct ch as [| |l]; try reflexivity.
    specialize (H1 eq_refl). discriminate.
Qed.

Lemma data_hierarchy_at dp td : Node.data (hierarchy_at dp td) = td.
Proof. destruct td. reflexivity. Qed.

Lemma kids_hierarchy_at dp td :
  kids (hierarchy_at dp td) = map (hierarchy_at (S dp)) (td_children td).
Proof. destruct td as [nm ty v [|c l]]; reflexivity. Qed.

Lemma slots_ok_hierarchy_at dp td : slots_ok (hierarchy_at dp td).
Proof.
  split.
  - destruct td as [nm ty v [|c l]]; reflexivity.
  - rewrite kids_hierarchy_at, data_hierarchy_at, map_map.
    rewrite <- (map_id (td_children td)) at 2.
    apply map_ext. intros c. apply data_hierarchy_at.
Qed.

Lemma wf_hierarchy_at td : forall dp, wf (hierarchy_at dp td).
Proof.
  intros dp p. revert td dp.
  induction p as [|i p IH]; intros td dp n Hn.
  - injection Hn as <-. apply slots_ok_hierarchy_at.
  - cbn [get] in Hn. rewrite kids_hierarchy_at, nth_error_map in Hn.
    destruct (nth_error (td_children td) i) as [c|]; [|discriminate].
    exact (IH c (S dp) n Hn).
Qed.

Lemma wf_map_children (f : Node -> Node) r l :
  Node.children r = Arr l ->
  (forall n, wf n -> wf (f n)) ->
  (forall n, Node.data (f n) = Node.data n) ->
  wf r -> wf (Node.mk r (Arr (map f l)) (Node._children r)).
Proof.
  intros Hl Hf Hdata Hr.
  destruct (Hr [] r eq_refl) as [H1 H2].
  assert (Hk : kids r = l) by (unfold kids; rewrite Hl; reflexivity).
  apply wf_intro.
  - split.
    + cbn. intros _. apply H1. rewrite Hl. reflexivity.
    + unfold kids. cbn. rewrite map_map, <- H2, Hk.
      apply map_ext. intros c. apply Hdata.
  - intros i c'. unfold kids. cbn. rewrite nth_error_map.
    destruct (nth_error l i) as [c|] eqn:Hc; [|discriminate].
    intros E. injection E as <-. apply Hf.
    apply (wf_child _ i _ Hr). rewrite Hk. exact Hc.
Qed.

Lemma wf_collapse_below_root r : wf r -> wf (collapse_below_root r).
Proof.
  intros Hr. unfold collapse_below_root.
  destruct (Node.children r) as [| |l] eqn:Hl; try exact Hr.
  apply wf_map_children; try assumption.
  - intros n Hn. destruct (slot_truthy (Node.children n)); [apply wf_collapse|]; exact Hn.
  - intros n. destruct (slot_truthy (Node.children n)); [apply data_collapse | reflexivity].
Qed.

(** Under [wf], every node of the tree is at some path. *)
Lemma subnode_get n r : wf r -> subnode n r -> exists p, get r p = Some n.
Proof.
  intros Hr Hs. induction Hs as [|d c Hc Hs IH|d c Hc Hs IH].
  - exists []. reflexivity.
  - assert (Hk : In c (kids d)).
    { unfold vis in Hc. unfold kids. destruct (Node.children d); try contradiction. exact Hc. }
    destruct (In_nth_error _ _ Hk) as [i Hi].
    destruct (IH (wf_child _ i _ Hr Hi)) as [p Hp].
    exists (i :: p). cbn [get]. rewrite Hi. exact Hp.
  - assert (Hk : In c (kids d)).
    { destruct (Hr [] d eq_refl) as [H1 _].
      unfold col in Hc. unfold kids.
      destruct (Node.children d); try exact Hc.
      specialize (H1 eq_refl). destruct (Node._children d); try contradiction. discriminate. }
    destruct (In_nth_error _ _ Hk) as [i Hi].
    destruct (IH (wf_child _ i _ Hr Hi)) as [p Hp].
    exists (i :: p). cbn [get]. rewrite Hi. exact Hp.
Qed.

(** ** What the methods leave of the scalar properties *)

Lemma own_at_toggle n q : own_at (toggle n) q = own_at n q.
Proof.
  unfold own_at. destruct q as [|i q].
  - destruct n as [o [| |l] cch]; reflexivity.
  - cbn [get]. rewrite kids_toggle. reflexivity.
Qed.

Lemma kids_collapse d :
  kids (collapse d) =
  if slot_truthy (Node.children d) then map collapse (kids d) else kids d.
Proof. destruct d as [o [| |l] cch]; reflexivity. Qed.

Lemma own_collapse d : Node.own (collapse d) = Node.own d.
Proof. destruct d as [o [| |l] cch]; reflexivity. Qed.

Lemma own_at_collapse q : forall d, own_at (collapse d) q = own_at d q.
Proof.
  unfold own_at.
  induction q as [|i q IH]; intros d.
  - cbn. rewrite own_collapse. reflexivity.
  - cbn [get]. rewrite kids_collapse.
    destruct (slot_truthy (Node.children d)); [|reflexivity].
    rewrite nth_error_map. destruct (nth_error (kids d) i) as [c|]; [|reflexivity].
    apply IH.
Qed.

Lemma kids_expand d : slots_ok d -> kids (expand d) = map expand (kids d).
Proof.
  intros [H1 _]. destruct d as [o ch cch]. cbn in H1.
  destruct ch as [| |l]; destruct cch as [| |l']; try reflexivity.
  specialize (H1 eq_refl). discriminate.
Qed.

Lemma own_expand d : Node.own (expand d) = Node.own d.
Proof. destruct d as [o [| |l] [| |l']]; reflexivity. Qed.

Lemma own_at_expand q : forall d, wf d -> own_at (expand d) q = own_at d q.
Proof.
  unfold own_at.
  induction q as [|i q IH]; intros d Hd.
  - cbn. rewrite own_expand. reflexivity.
  - cbn [get]. rewrite (kids_expand _ (Hd [] d eq_refl)), nth_error_map.
    destruct (nth_error (kids d) i) as [c|] eqn:Hc; [|reflexivity].
    apply IH. exact (wf_child _ i _ Hd Hc).
Qed.

Lemma own_at_map_children (f : Node -> Node) r l q :
  Node.children r = Arr l ->
  (forall n q', own_at (f n) q' = own_at n q') ->
  own_at (Node.mk r (Arr (map f l)) (Node._children r)) q = own_at r q.
Proof.
  intros Hl Hf. unfold own_at. destruct q as [|i q]; [reflexivity|].
  cbn [get]. unfold kids. cbn. rewrite Hl, nth_error_map.
  destruct (nth_error l i) as [c|]; [|reflexivity]. apply Hf.
Qed.

Lemma own_at_collapse_below_root r q :
  own_at (collapse_below_root r) q = own_at r q.
Proof.
  unfold collapse_below_root.
  destruct (Node.children r) as [| |l] eqn:Hl; try reflexivity.
  apply own_at_map_children; [exact Hl|].
  intros n q'. destruct (slot_truthy (Node.children n)); [apply own_at_collapse | reflexivity].
Qed.

(** ** Ids *)

Lemma ids_ok_ext r r' c :
  (forall q, own_at r' q = own_at r q) -> ids_ok r c -> ids_ok r' c.
Proof.
  intros E [H1 H2]. unfold ids_ok, id_at in *. split.
  - intros p k. rewrite E. apply H1.
  - intros p q k. rewrite !E. apply H2.
Qed.

Lemma id_at_upd_own phi p d q :
  (forall o, Node.id (phi o) = Node.id o) ->
  id_at (upd p (Node.on_own phi) d) q = id_at d q.
Proof.
  intros Hphi. unfold id_at. rewrite own_at_upd_own.
  destruct (list_eq_dec Nat.eq_dec q p); [|reflexivity].
  destruct (own_at d q); [apply Hphi | reflexivity].
Qed.

Lemma id_at_for_each (F : Path -> Node.props -> Node.props) ps : forall d q,
  (forall p o, Node.id (F p o) = Node.id o) ->
  id_at (for_each (fun p => Node.on_own (F p)) ps d) q = id_at d q.
Proof.
  unfold for_each.
  induction ps as [|p ps IH]; intros d q HF; [reflexivity|].
  cbn [fold_left]. rewrite IH by exact HF. apply id_at_upd_own, HF.
Qed.

(** What one application of the key function does. *)
Lemma key_step_cases t c p :
  (has_key t p /\ key_step (t, c) p = (t, c)) \/
  (get t p = None /\ key_step (t, c) p = (t, c)) \/
  (~ has_key t p /\ (exists d, get t p = Some d) /\
   key_step (t, c) p =
   (upd p (Node.on_own (Node.set_id (c + 1))) t, (c + 1)%N)).
Proof.
  unfold key_step, has_key, id_at, own_at. cbn [fst snd].
  destruct (get t p) as [d|] eqn:Hd; [|right; left; split; reflexivity].
  cbn [option_map]. destruct (Node.id d) as [k|] eqn:Hk.
  - destruct (N.eqb_spec k 0) as [->|Hk0].
    + right. right. split; [|split; [exists d|]; reflexivity].
      intros (k & E & Hn). injection E as <-. apply Hn. reflexivity.
    + left. split; [|reflexivity]. exists k. split; [reflexivity | exact Hk0].
  - right. right. split; [|split; [exists d|]; reflexivity].
    intros (k & E & _). discriminate.
Qed.

Lemma id_at_set_id k p d q n :
  get d p = Some n ->
  id_at (upd p (Node.on_own (Node.set_id k)) d) q =
  if list_eq_dec Nat.eq_dec q p then Some k else id_at d q.
Proof.
  intros Hn. unfold id_at. rewrite own_at_upd_own.
  destruct (list_eq_dec Nat.eq_dec q p) as [->|]; [|reflexivity].
  unfold own_at. rewrite Hn. reflexivity.
Qed.

Lemma key_fold_ind (P : Node * N -> Prop) :
  (forall tc p, P tc -> P (key_step tc p)) ->
  forall ps tc, P tc -> P (fold_left key_step ps tc).
Proof.
  intros Hstep ps. induction ps as [|p ps IH]; intros tc H; [exact H|].
  cbn [fold_left]. apply IH, Hstep, H.
Qed.

Lemma key_step_ids_ok tc p :
  ids_ok (fst tc) (snd tc) -> ids_ok (fst (key_step tc p)) (snd (key_step tc p)).
Proof.
  destruct tc as [t c]. cbn [fst snd]. intros [H1 H2].
  destruct (key_step_cases t c p) as [[_ ->]|[[_ ->]|(_ & (d & Hd) & ->)]];
    try (split; assumption).
  cbn [fst snd]. split.
  - intros q k. rewrite (id_at_set_id _ _ _ _ _ Hd).
    destruct (list_eq_dec Nat.eq_dec q p).
    + intros E. injection E as <-. lia.
    + intros E. specialize (H1 _ _ E). lia.
  - intros q1 q2 k. rewrite !(id_at_set_id _ _ _ _ _ Hd).
    destruct (list_eq_dec Nat.eq_dec q1 p) as [->|N1];
      destruct (list_eq_dec Nat.eq_dec q2 p) as [->|N2]; intros E1 E2.
    + reflexivity.
    + injection E1 as <-. specialize (H1 _ _ E2). lia.
    + injection E2 as <-. specialize (H1 _ _ E1). lia.
    + exact (H2 _ _ _ E1 E2).
Qed.

(** The key function never lowers the counter and never rewrites a truthy
    id. *)
Lemma key_step_keeps t0 c0 tc p :
  ((c0 <= snd tc)%N /\
   forall q k, id_at t0 q = Some k -> k <> 0%N -> id_at (fst tc) q = Some k) ->
  ((c0 <= snd (key_step tc p))%N /\
   forall q k, id_at t0 q = Some k -> k <> 0%N ->
               id_at (fst (key_step tc p)) q = Some k).
Proof.
  destruct tc as [t c]. cbn [fst snd]. intros [Hc Hk].
  destruct (key_step_cases t c p) as [[_ ->]|[[_ ->]|(Hn & (d & Hd) & ->)]];
    try (split; assumption).
  cbn [fst snd]. split; [lia|].
  intros q k E Hk0. rewrite (id_at_set_id _ _ _ _ _ Hd).
  destruct (list_eq_dec Nat.eq_dec q p) as [->|]; [|apply Hk; assumption].
  exfalso. apply Hn. exists k. split; [apply Hk; assumption | exact Hk0].
Qed.

(** An id the key function writes is above the counter it started from. *)
Lemma key_step_fresh t0 c0 tc p :
  ((c0 <= snd tc)%N /\
   forall q k, id_at (fst tc) q = Some k ->
               id_at t0 q = Some k \/ (c0 < k <= snd tc)%N) ->
  ((c0 <= snd (key_step tc p))%N /\
   forall q k, id_at (fst (key_step tc p)) q = Some k ->
               id_at t0 q = Some k \/ (c0 < k <= snd (key_step tc p))%N).
Proof.
  destruct tc as [t c]. cbn [fst snd]. intros [Hc Hk].
  destruct (key_step_cases t c p) as [[_ ->]|[[_ ->]|(Hn & (d & Hd) & ->)]];
    try (split; assumption).
  cbn [fst snd]. split; [lia|].
  intros q k. rewrite (id_at_set_id _ _ _ _ _ Hd).
  destruct (list_eq_dec Nat.eq_dec q p) as [->|].
  - intros E. injection E as <-. right. lia.
  - intros E. destruct (Hk _ _ E) as [H|H]; [left; exact H | right; lia].
Qed.

Lemma has_key_key_step tc p q :
  has_key (fst tc) q -> has_key (fst (key_step tc p)) q.
Proof.
  destruct tc as [t c]. cbn [fst]. intros (k & E & Hk0).
  destruct (key_step_keeps t c (t, c) p) as [_ H].
  - cbn [fst snd]. split; [lia|]. intros; assumption.
  - exists k. split; [apply H; assumption | exact Hk0].
Qed.

Lemma key_step_sets_key tc p :
  (exists d, get (fst tc) p = Some d) -> has_key (fst (key_step tc p)) p.
Proof.
  destruct tc as [t c]. cbn [fst]. intros (d & Hd).
  destruct (key_step_cases t c p) as [[H ->]|[[H ->]|(_ & _ & ->)]].
  - exact H.
  - rewrite Hd in H. discriminate.
  - cbn [fst]. exists (c + 1)%N. rewrite (id_at_set_id _ _ _ _ _ Hd).
    destruct (list_eq_dec Nat.eq_dec p p) as [_|N]; [|exfalso; apply N; reflexivity].
    split; [reflexivity | lia].
Qed.

Lemma key_step_get tc p q :
  (exists d, get (fst tc) q = Some d) -> exists d, get (fst (key_step tc p)) q = Some d.
Proof.
  destruct tc as [t c]. cbn [fst]. intros (d & Hd).
  destruct (key_step_cases t c p) as [[_ ->]|[[_ ->]|(_ & _ & ->)]];
    try (exists d; exact Hd).
  cbn [fst].
  pose proof (own_at_upd_own (Node.set_id (c + 1)) p t q) as E.
  unfold own_at in E. rewrite Hd in E.
  destruct (get (upd p (Node.on_own (Node.set_id (c + 1))) t) q) as [d'|].
  - exists d'. reflexivity.
  - destruct (list_eq_dec Nat.eq_dec q p); discriminate.
Qed.

(** After a join over [ps], every node of [ps] carries a truthy id. *)
Lemma key_fold_sets_keys ps : forall tc q,
  In q ps -> (exists d, get (fst tc) q = Some d) ->
  has_key (fst (fold_left key_step ps tc)) q.
Proof.
  induction ps as [|p ps IH]; intros tc q Hq Hd; [contradiction|].
  cbn [fold_left]. destruct Hq as [->|Hq].
  - apply (key_fold_ind (fun tc => has_key (fst tc) q)).
    + intros tc' p' H. apply has_key_key_step, H.
    + apply key_step_sets_key, Hd.
  - apply IH; [exact Hq|]. apply key_step_get, Hd.
Qed.

(** A join over nodes that all carry a truthy id changes nothing. *)
Lemma key_fold_idle ps : forall t c,
  (forall q, In q ps -> has_key t q) -> fold_left key_step ps (t, c) = (t, c).
Proof.
  induction ps as [|p ps IH]; intros t c H; [reflexivity|].
  cbn [fold_left].
  destruct (key_step_cases t c p) as [[_ ->]|[[_ ->]|(Hn & _ & _)]].
  - apply IH. intros q Hq. apply H. right. exact Hq.
  - apply IH. intros q Hq. apply H. right. exact Hq.
  - exfalso. apply Hn, H. left. reflexivity.
Qed.

(** ** What [render] writes *)

Lemma erase_unfold d :
  erase d =
  Node.mk (Node.Props (Node.data d) (Node.depth d) None None None None None)
          (match Node.children d with
           | Arr l => Arr (map erase l)
           | Undefined => Undefined
           | Null => Null
           end)
          (match Node._children d with
           | Arr l => Arr (map erase l)
           | Undefined => Undefined
           | Null => Null
           end).
Proof. destruct d as [o ch cch]. reflexivity. Qed.

Lemma erase_upd (f : Node -> Node) p : forall d,
  (forall n, erase (f n) = erase n) -> erase (upd p f d) = erase d.
Proof.
  induction p as [|i p IH]; intros d Hf; [apply Hf|].
  destruct d as [o ch cch].
  destruct ch as [| |l]; cbn [upd Node.children Node._children].
  - destruct cch as [| |l']; try reflexivity.
    cbn [erase Node.own]. do 2 f_equal. apply map_list_upd. intros c _. apply IH, Hf.
  - destruct cch as [| |l']; try reflexivity.
    cbn [erase Node.own]. do 2 f_equal. apply map_list_upd. intros c _. apply IH, Hf.
  - cbn [erase Node.own]. f_equal. f_equal. apply map_list_upd. intros c _. apply IH, Hf.
Qed.

Lemma erase_on_own phi n :
  (forall o, Node.data (phi o) = Node.data o /\ Node.depth (phi o) = Node.depth o) ->
  erase (Node.on_own phi n) = erase n.
Proof.
  intros H. destruct n as [o ch cch]. cbn.
  destruct (H o) as [-> ->]. reflexivity.
Qed.

Lemma erase_for_each (F : Path -> Node.props -> Node.props) ps : forall d,
  (forall p o, Node.data (F p o) = Node.data o /\ Node.depth (F p o) = Node.depth o) ->
  erase (for_each (fun p => Node.on_own (F p)) ps d) = erase d.
Proof.
  unfold for_each.
  induction ps as [|p ps IH]; intros d HF; [reflexivity|].
  cbn [fold_left]. rewrite IH by exact HF. apply erase_upd.
  intros n. apply erase_on_own, HF.
Qed.

Lemma kids_erase d : kids (erase d) = map erase (kids d).
Proof. destruct d as [o [| |l] [| |l']]; reflexivity. Qed.

Lemma get_erase p : forall d, get (erase d) p = option_map erase (get d p).
Proof.
  induction p as [|i p IH]; intros d; [reflexivity|].
  cbn [get]. rewrite kids_erase, nth_error_map.
  destruct (nth_error (kids d) i) as [c|]; [apply IH | reflexivity].
Qed.

Lemma erase_toggle n : erase (toggle n) = toggle (erase n).
Proof. destruct n as [o [| |l] [| |l']]; reflexivity. Qed.

(** Writing at the same path of two trees that differ in what [render]
    writes only. *)
Lemma erase_upd_congr (f : Node -> Node) p : forall a b,
  (forall n m, erase n = erase m -> erase (f n) = erase (f m)) ->
  erase a = erase b -> erase (upd p f a) = erase (upd p f b).
Proof.
  induction p as [|i p IH]; intros a b Hf E; [apply Hf, E|].
  assert (L : forall l l', map erase l = map erase l' ->
              map erase (list_upd i (upd p f) l) = map erase (list_upd i (upd p f) l')).
  { clear a b E. intros l. revert i.
    induction l as [|c l IHl]; intros i [|c' l'] E; try discriminate.
    - reflexivity.
    - cbn [map] in E. injection E as E1 E2.
      destruct i; cbn [list_upd map].
      + rewrite (IH c c' Hf E1), E2. reflexivity.
      + rewrite E1, (IHl i l' E2). reflexivity. }
  destruct a as [o ch cch], b as [o' ch' cch'].
  cbn [erase] in E. injection E as E1 E2 E3 E4.
  destruct ch as [| |l], ch' as [| |m]; try discriminate;
    destruct cch as [| |l'], cch' as [| |m']; try discriminate;
    cbn [upd erase Node.own Node.children Node._children];
    rewrite ?E1, ?E2;
    repeat match goal with
           | H : Arr _ = Arr _ |- _ => injection H as H
           end;
    repeat match goal with
           | H : map erase ?u = map erase ?v |- context [list_upd i (upd p f) ?u] =>
               rewrite (L u v H)
           | H : map erase ?u = map erase ?v |- _ => rewrite H
           end;
    reflexivity.
Qed.

Lemma upd_upd (f g : Node -> Node) p : forall d,
  upd p g (upd p f d) = upd p (fun n => g (f n)) d.
Proof.
  induction p as [|i p IH]; intros d; [reflexivity|].
  assert (L : forall l, list_upd i (upd p g) (list_upd i (upd p f) l) =
                        list_upd i (upd p (fun n => g (f n))) l).
  { intros l. rewrite list_upd_list_upd. revert i.
    induction l as [|c l IHl]; intros i; [reflexivity|].
    destruct i; cbn [list_upd]; [rewrite IH | rewrite IHl]; reflexivity. }
  destruct d as [o ch cch].
  destruct ch as [| |l]; destruct cch as [| |l'];
    cbn [upd Node.own Node.children Node._children]; rewrite ?L; reflexivity.
Qed.

Lemma set_xy_scalar vx vy o :
  Node.data (Node.set_xy vx vy o) = Node.data o /\
  Node.depth (Node.set_xy vx vy o) = Node.depth o.
Proof. split; reflexivity. Qed.

Lemma set_id_scalar k o :
  Node.data (Node.set_id k o) = Node.data o /\
  Node.depth (Node.set_id k o) = Node.depth o.
Proof. split; reflexivity. Qed.

Lemma key_step_erase tc p : erase (fst (key_step tc p)) = erase (fst tc).
Proof.
  destruct tc as [t c].
  destruct (key_step_cases t c p) as [[_ ->]|[[_ ->]|(_ & _ & ->)]];
    try reflexivity.
  cbn [fst]. apply erase_upd. intros n. apply erase_on_own. intros o. apply set_id_scalar.
Qed.

Lemma key_step_vshape tc p : vshape (fst (key_step tc p)) = vshape (fst tc).
Proof.
  destruct tc as [t c].
  destruct (key_step_cases t c p) as [[_ ->]|[[_ ->]|(_ & _ & ->)]];
    try reflexivity.
  cbn [fst]. apply vshape_upd. intros [o ch cch] _. reflexivity.
Qed.

Lemma key_step_wf tc p : wf (fst tc) -> wf (fst (key_step tc p)).
Proof.
  destruct tc as [t c]. cbn [fst]. intros H.
  destruct (key_step_cases t c p) as [[_ ->]|[[_ ->]|(_ & _ & ->)]];
    try exact H.
  cbn [fst]. apply wf_upd; [| |exact H].
  - intros n. apply wf_on_own. reflexivity.
  - reflexivity.
Qed.

Lemma laid_out_vshape st r : vshape (laid_out st r) = vshape r.
Proof.
  unfold laid_out, depth_spacing, tree_layout.
  rewrite vshape_for_each with (F := fun _ o => Node.set_xy (Node.x o) (Some (depth_y o)) o).
  apply vshape_for_each with
    (F := fun p => Node.set_xy
                     (Some (fst (tree st (height st - margin - margin)
                                      (width st - margin - margin) (vshape r) p)))
                     (Some (snd (tree st (height st - margin - margin)
                                      (width st - margin - margin) (vshape r) p)))).
Qed.

Lemma laid_out_erase st r : erase (laid_out st r) = erase r.
Proof.
  unfold laid_out, depth_spacing, tree_layout.
  rewrite erase_for_each
    with (F := fun _ o => Node.set_xy (Node.x o) (Some (depth_y o)) o)
    by (intros; apply set_xy_scalar).
  apply erase_for_each with
    (F := fun p => Node.set_xy
                     (Some (fst (tree st (height st - margin - margin)
                                      (width st - margin - margin) (vshape r) p)))
                     (Some (snd (tree st (height st - margin - margin)
                                      (width st - margin - margin) (vshape r) p)))).
  intros; apply set_xy_scalar.
Qed.

Lemma laid_out_wf st r : wf r -> wf (laid_out st r).
Proof.
  intros H. unfold laid_out, depth_spacing, tree_layout.
  apply wf_for_each
    with (F := fun _ o => Node.set_xy (Node.x o) (Some (depth_y o)) o);
    [reflexivity|].
  apply wf_for_each with
    (F := fun p => Node.set_xy
                     (Some (fst (tree st (height st - margin - margin)
                                      (width st - margin - margin) (vshape r) p)))
                     (Some (snd (tree st (height st - margin - margin)
                                      (width st - margin - margin) (vshape r) p))));
    [reflexivity | exact H].
Qed.

Lemma laid_out_id_at st r q : id_at (laid_out st r) q = id_at r q.
Proof.
  unfold laid_out, depth_spacing, tree_layout.
  rewrite id_at_for_each
    with (F := fun _ o => Node.set_xy (Node.x o) (Some (depth_y o)) o)
    by reflexivity.
  apply id_at_for_each with
    (F := fun p => Node.set_xy
                     (Some (fst (tree st (height st - margin - margin)
                                      (width st - margin - margin) (vshape r) p)))
                     (Some (snd (tree st (height st - margin - margin)
                                      (width st - margin - margin) (vshape r) p)))).
  reflexivity.
Qed.

Lemma joined_unfold st r :
  joined st r =
  fold_left key_step (descendants (laid_out st r))
    (fold_left key_step (tl (descendants (laid_out st r)))
       (laid_out st r, nodeId st)).
Proof. reflexivity. Qed.

Lemma joined_erase st r : erase (fst (joined st r)) = erase r.
Proof.
  rewrite joined_unfold, <- (laid_out_erase st r).
  apply (key_fold_ind (fun tc => erase (fst tc) = erase (laid_out st r))).
  - intros tc p H. rewrite key_step_erase. exact H.
  - apply (key_fold_ind (fun tc => erase (fst tc) = erase (laid_out st r))).
    + intros tc p H. rewrite key_step_erase. exact H.
    + reflexivity.
Qed.

Lemma joined_vshape st r : vshape (fst (joined st r)) = vshape r.
Proof.
  rewrite joined_unfold, <- (laid_out_vshape st r).
  apply (key_fold_ind (fun tc => vshape (fst tc) = vshape (laid_out st r))).
  - intros tc p H. rewrite key_step_vshape. exact H.
  - apply (key_fold_ind (fun tc => vshape (fst tc) = vshape (laid_out st r))).
    + intros tc p H. rewrite key_step_vshape. exact H.
    + reflexivity.
Qed.

Lemma joined_wf st r : wf r -> wf (fst (joined st r)).
Proof.
  intros H. rewrite joined_unfold.
  apply (key_fold_ind (fun tc => wf (fst tc))); [intros; apply key_step_wf; assumption|].
  apply (key_fold_ind (fun tc => wf (fst tc))); [intros; apply key_step_wf; assumption|].
  apply laid_out_wf, H.
Qed.

Lemma joined_ids_ok st r :
  ids_ok r (nodeId st) -> ids_ok (fst (joined st r)) (snd (joined st r)).
Proof.
  intros H. rewrite joined_unfold.
  apply (key_fold_ind (fun tc => ids_ok (fst tc) (snd tc)));
    [intros; apply key_step_ids_ok; assumption|].
  apply (key_fold_ind (fun tc => ids_ok (fst tc) (snd tc)));
    [intros; apply key_step_ids_ok; assumption|].
  cbn [fst snd]. destruct H as [H1 H2]. split.
  - intros p k. rewrite laid_out_id_at. apply H1.
  - intros p q k. rewrite !laid_out_id_at. apply H2.
Qed.

Lemma joined_keeps st r :
  (nodeId st <= snd (joined st r))%N /\
  forall q k, id_at r q = Some k -> k <> 0%N ->
              id_at (fst (joined st r)) q = Some k.
Proof.
  rewrite joined_unfold.
  assert (B : (nodeId st <= snd (laid_out st r, nodeId st))%N /\
              forall q k, id_at r q = Some k -> k <> 0%N ->
                          id_at (fst (laid_out st r, nodeId st)) q = Some k).
  { cbn [fst snd]. split; [lia|]. intros q k E _. rewrite laid_out_id_at. exact E. }
  apply (key_fold_ind
           (fun tc => (nodeId st <= snd tc)%N /\
                      forall q k, id_at r q = Some k -> k <> 0%N ->
                                  id_at (fst tc) q = Some k));
    [intros tc p; apply key_step_keeps|].
  apply (key_fold_ind
           (fun tc => (nodeId st <= snd tc)%N /\
                      forall q k, id_at r q = Some k -> k <> 0%N ->
                                  id_at (fst tc) q = Some k));
    [intros tc p; apply key_step_keeps | exact B].
Qed.

Lemma joined_fresh st r :
  forall q k, id_at (fst (joined st r)) q = Some k ->
              id_at r q = Some k \/ (nodeId st < k <= snd (joined st r))%N.
Proof.
  rewrite joined_unfold.
  assert (B : (nodeId st <= snd (laid_out st r, nodeId st))%N /\
              forall q k, id_at (fst (laid_out st r, nodeId st)) q = Some k ->
                          id_at r q = Some k \/
                          (nodeId st < k <= snd (laid_out st r, nodeId st))%N).
  { cbn [fst snd]. split; [lia|]. intros q k. rewrite laid_out_id_at. intros E. left. exact E. }
  apply (key_fold_ind
           (fun tc => (nodeId st <= snd tc)%N /\
                      forall q k, id_at (fst tc) q = Some k ->
                         id_at r q = Some k \/ (nodeId st < k <= snd tc)%N));
    [intros tc p; apply key_step_fresh|].
  apply (key_fold_ind
           (fun tc => (nodeId st <= snd tc)%N /\
                      forall q k, id_at (fst tc) q = Some k ->
                         id_at r q = Some k \/ (nodeId st < k <= snd tc)%N));
    [intros tc p; apply key_step_fresh | exact B].
Qed.

Lemma joined_keys st r q :
  In q (descendants r) -> has_key (fst (joined st r)) q.
Proof.
  intros Hq. rewrite joined_unfold.
  apply key_fold_sets_keys.
  - unfold descendants in *. rewrite laid_out_vshape. exact Hq.
  - apply (key_fold_ind (fun tc => exists d, get (fst tc) q = Some d));
      [intros tc p; apply key_step_get|].
    cbn [fst]. apply descendants_get.
    unfold descendants in *. rewrite laid_out_vshape. exact Hq.
Qed.

(** ** One pass of [render] *)

Lemma render_some st r :
  root st = Some r ->
  render st =
  mkTV (tree st) (width st) (height st) (Some (rendered st r))
       (snd (joined st r)) (emptyState st)
       (map (key_of (fst (joined st r))) (descendants (fst (joined st r))))
       (map (key_of (fst (joined st r))) (tl (descendants (fst (joined st r))))).
Proof. intros H. unfold render. rewrite H. reflexivity. Qed.

Lemma render_none st : root st = None -> render st = st.
Proof. intros H. unfold render. rewrite H. reflexivity. Qed.

Lemma set_x0y0_scalar vx vy o :
  Node.data (Node.set_x0y0 vx vy o) = Node.data o /\
  Node.depth (Node.set_x0y0 vx vy o) = Node.depth o.
Proof. split; reflexivity. Qed.

Lemma rendered_erase st r : erase (rendered st r) = erase r.
Proof.
  unfold rendered, store_positions.
  rewrite erase_for_each
    with (F := fun _ o => Node.set_x0y0 (Node.x o) (Node.y o) o)
    by (intros; apply set_x0y0_scalar).
  apply joined_erase.
Qed.

Lemma rendered_vshape st r : vshape (rendered st r) = vshape r.
Proof.
  unfold rendered, store_positions.
  rewrite vshape_for_each
    with (F := fun _ o => Node.set_x0y0 (Node.x o) (Node.y o) o).
  apply joined_vshape.
Qed.

Lemma rendered_wf st r : wf r -> wf (rendered st r).
Proof.
  intros H. unfold rendered, store_positions.
  apply wf_for_each
    with (F := fun _ o => Node.set_x0y0 (Node.x o) (Node.y o) o);
    [reflexivity|].
  apply joined_wf, H.
Qed.

Lemma rendered_id_at st r q :
  id_at (rendered st r) q = id_at (fst (joined st r)) q.
Proof.
  unfold rendered, store_positions.
  apply id_at_for_each
    with (F := fun _ o => Node.set_x0y0 (Node.x o) (Node.y o) o).
  reflexivity.
Qed.

Lemma data_erase d : Node.data (erase d) = Node.data d.
Proof. destruct d as [o ch cch]. reflexivity. Qed.

Lemma rendered_data st r : Node.data (rendered st r) = Node.data r.
Proof. rewrite <- data_erase, rendered_erase, data_erase. reflexivity. Qed.

Lemma rendered_ids_ok st r :
  ids_ok r (nodeId st) -> ids_ok (rendered st r) (snd (joined st r)).
Proof.
  intros H. destruct (joined_ids_ok st r H) as [H1 H2]. split.
  - intros p k. rewrite rendered_id_at. apply H1.
  - intros p q k. rewrite !rendered_id_at. apply H2.
Qed.

Lemma render_state_ok st : state_ok st -> state_ok (render st).
Proof.
  unfold state_ok. destruct (root st) as [r|] eqn:Hr.
  - rewrite (render_some st r Hr). cbn [root nodeId].
    intros (Hwf & Hids & Hname). split; [|split].
    + apply rendered_wf, Hwf.
    + apply rendered_ids_ok, Hids.
    + rewrite rendered_data. exact Hname.
  - rewrite (render_none st Hr), Hr. trivial.
Qed.

(** ** The calls keep the invariant *)

Lemma id_at_hierarchy_at q : forall dp td, id_at (hierarchy_at dp td) q = None.
Proof.
  unfold id_at, own_at.
  induction q as [|i q IH]; intros dp td.
  - destruct td. reflexivity.
  - cbn [get]. rewrite kids_hierarchy_at, nth_error_map.
    destruct (nth_error (td_children td) i) as [c|]; [apply IH | reflexivity].
Qed.

Lemma id_at_new_tree st td q :
  id_at (collapse_below_root (new_root st td)) q = None.
Proof.
  unfold id_at. rewrite own_at_collapse_below_root.
  unfold new_root.
  change (Node.on_own (Node.set_x0y0 (Some (height st / 2)) (Some 0)) (hierarchy td))
    with (upd [] (Node.on_own (Node.set_x0y0 (Some (height st / 2)) (Some 0)))
              (hierarchy td)).
  pose proof (id_at_upd_own (Node.set_x0y0 (Some (height st / 2)) (Some 0)) []
                (hierarchy td) q (fun o => eq_refl)) as E.
  unfold id_at in E. rewrite E. apply id_at_hierarchy_at.
Qed.

Lemma wf_new_tree st td : wf (collapse_below_root (new_root st td)).
Proof.
  apply wf_collapse_below_root. unfold new_root.
  apply wf_on_own; [reflexivity|]. apply wf_hierarchy_at.
Qed.

Lemma data_collapse_below_root r :
  Node.data (collapse_below_root r) = Node.data r.
Proof. unfold collapse_below_root. destruct (Node.children r); reflexivity. Qed.

Lemma data_new_tree st td :
  Node.data (collapse_below_root (new_root st td)) = td.
Proof.
  rewrite data_collapse_below_root. unfold new_root, hierarchy. cbn.
  apply data_hierarchy_at.
Qed.

(** What [updateTree] does, by the payload. *)
Lemma updateTree_cases st treeData :
  (updateTree st treeData = Ok (clearTree st) /\
   match treeData with
   | PObject td => truthy (td_name td) = false
   | _ => True
   end) \/
  (exists td, treeData = PObject td /\ truthy (td_name td) = true /\
     updateTree st treeData =
     Ok (render (with_root (hideEmptyState st)
                   (Some (collapse_below_root (new_root (hideEmptyState st) td)))))).
Proof.
  destruct treeData as [| |td]; try (left; split; [reflexivity | exact I]).
  unfold updateTree. cbn [payload_truthy negb get_name bind as_object].
  destruct (truthy (td_name td)) eqn:Hn.
  - right. exists td. split; [reflexivity|]. split; [exact Hn | reflexivity].
  - left. split; reflexivity.
Qed.

Lemma state_ok_structural st r r' :
  root st = Some r -> state_ok st ->
  wf r' -> (forall q, own_at r' q = own_at r q) ->
  state_ok (with_root st (Some r')).
Proof.
  unfold state_ok. intros Hr. rewrite Hr. cbn [root nodeId with_root].
  intros (Hwf & Hids & Hname) Hwf' E. split; [exact Hwf'|split].
  - exact (ids_ok_ext _ _ _ E Hids).
  - specialize (E []). unfold own_at in E. cbn in E. injection E as E.
    change (Node.data r') with (Node.data (Node.own r')). rewrite E. exact Hname.
Qed.

Lemma own_at_upd_toggle p r q : own_at (upd p toggle r) q = own_at r q.
Proof. apply own_at_upd. intros n _ q'. apply own_at_toggle. Qed.

Lemma own_at_upd_collapse p r q : own_at (upd p collapse r) q = own_at r q.
Proof. apply own_at_upd. intros n _ q'. apply own_at_collapse. Qed.

Lemma step_total st o : exists st', step st o = Ok st'.
Proof.
  destruct o; try (eexists; reflexivity).
  cbn [step].
  destruct (updateTree_cases st treeData) as [[-> _]|(td & _ & _ & ->)];
    eexists; reflexivity.
Qed.

Lemma step_state_ok st o st' :
  state_ok st -> step st o = Ok st' -> state_ok st'.
Proof.
  intros Hok Hstep. destruct o; cbn [step] in Hstep.
  - destruct (updateTree_cases st treeData) as [[E _]|(td & _ & Hn & E)];
      rewrite E in Hstep; injection Hstep as <-; [exact I|].
    apply render_state_ok. unfold state_ok. cbn [root nodeId with_root hideEmptyState].
    split; [apply wf_new_tree|split].
    + split.
      * intros q k. rewrite id_at_new_tree. discriminate.
      * intros q1 q2 k. rewrite id_at_new_tree. discriminate.
    + rewrite data_new_tree. exact Hn.
  - injection Hstep as <-. unfold toggleNode.
    destruct (root st) as [r|] eqn:Hr; [|exact Hok].
    apply render_state_ok, (state_ok_structural st r); try assumption.
    + unfold state_ok in Hok. rewrite Hr in Hok.
      apply wf_upd; [intros n; apply wf_toggle | apply data_toggle | apply Hok].
    + apply own_at_upd_toggle.
  - injection Hstep as <-.
    destruct (root st) as [r|] eqn:Hr; [|exact Hok].
    apply (state_ok_structural st r); try assumption.
    + unfold state_ok in Hok. rewrite Hr in Hok.
      apply wf_upd; [intros n; apply wf_collapse | apply data_collapse | apply Hok].
    + apply own_at_upd_collapse.
  - injection Hstep as <-. unfold expandAll.
    destruct (root st) as [r|] eqn:Hr; [|exact Hok].
    assert (Hwf : wf r) by (unfold state_ok in Hok; rewrite Hr in Hok; apply Hok).
    apply render_state_ok, (state_ok_structural st r); try assumption.
    + apply wf_expand, Hwf.
    + intros q. apply own_at_expand, Hwf.
  - injection Hstep as <-. unfold collapseAll.
    destruct (root st) as [r|] eqn:Hr; [|exact Hok].
    assert (Hwf : wf r) by (unfold state_ok in Hok; rewrite Hr in Hok; apply Hok).
    apply render_state_ok.
    destruct (Node.children r) as [| |l] eqn:Hl;
      try (apply (state_ok_structural st r); try assumption; reflexivity).
    apply (state_ok_structural st r); try assumption.
    + apply wf_map_children; try assumption;
        [intros n; apply wf_collapse | apply data_collapse].
    + intros q. apply own_at_map_children; [exact Hl|].
      intros n q'. apply own_at_collapse.
  - injection Hstep as <-. apply render_state_ok, Hok.
  - injection Hstep as <-. unfold resize. apply render_state_ok. exact Hok.
  - injection Hstep as <-. exact I.
Qed.

Lemma run_total ops : forall st, exists st', run st ops = Ok st'.
Proof.
  induction ops as [|o ops IH]; intros st; [exists st; reflexivity|].
  cbn [run]. destruct (step_total st o) as [st1 ->]. cbn [bind]. apply IH.
Qed.

Lemma run_state_ok ops : forall st st',
  state_ok st -> run st ops = Ok st' -> state_ok st'.
Proof.
  induction ops as [|o ops IH]; intros st st' Hok Hrun.
  - injection Hrun as <-. exact Hok.
  - cbn [run] in Hrun. destruct (step st o) as [st1|e] eqn:Hs; [|discriminate].
    cbn [bind] in Hrun. apply (IH st1 st'); [|exact Hrun].
    exact (step_state_ok st o st1 Hok Hs).
Qed.

Lemma reachable_state_ok st : reachable st -> state_ok st.
Proof.
  intros (t & rw & rh & e & ops & H).
  apply (run_state_ok ops (construct t rw rh e) st); [exact I | exact H].
Qed.

(** * The claims *)

Lemma sample_built_reachable : reachable sample_built.
Proof.
  exists sample_layout, 800, 500, (Some DisplayInitial),
    [Build (PObject sample_payload)].
  vm_compute. reflexivity.
Qed.

(** ** C4: the two child arrays *)

Lemma slots_ok_partition n : slots_ok n -> children_partition n.
Proof.
  destruct n as [o ch cch]. unfold slots_ok, children_partition, vis, col, kids.
  cbn [Node.children Node._children Node.own].
  intros [H1 H2].
  destruct ch as [| |l]; destruct cch as [| |l']; cbn [slot_list slot_truthy] in *;
    try (specialize (H1 eq_refl); discriminate);
    rewrite <- H2; split; intros; try reflexivity; try contradiction;
    try (subst; reflexivity).
  - right. split; [reflexivity|]. intros ->. contradiction.
  - right. split; [reflexivity|]. intros ->. contradiction.
  - left. split; [|reflexivity]. intros ->. contradiction.
  - left. split; [|reflexivity]. intros ->. contradiction.
Qed.

(** C4. After every sequence of calls on a new instance (updateTree,
    toggleNode, collapse, expandAll, collapseAll, render, resize, clearTree)
    the calls all return, and in the state they leave every node of the tree,
    in whichever array it sits, satisfies [children_partition]: if its payload
    has children then exactly one of [children] and [_children] is non-empty,
    and both are empty only if its payload has none. *)
Theorem exactly_one_child_array_after_any_calls
  (d3_tree : Q -> Q -> shape -> Path -> Q * Q) (rw rh : Q)
  (emptyEl : option Display) (ops : list Op) :
  exists st,
    run (construct d3_tree rw rh emptyEl) ops = Ok st /\
    forall r n, root st = Some r -> subnode n r -> children_partition n.
Proof.
  destruct (run_total ops (construct d3_tree rw rh emptyEl)) as [st Hst].
  exists st. split; [exact Hst|].
  intros r n Hr Hn.
  assert (Hok : state_ok st)
    by (apply reachable_state_ok; exists d3_tree, rw, rh, emptyEl, ops; exact Hst).
  unfold state_ok in Hok. rewrite Hr in Hok. destruct Hok as (Hwf & _).
  destruct (subnode_get n r Hwf Hn) as [p Hp].
  apply slots_ok_partition, (Hwf p n Hp).
Qed.

(** ** C9 and C10: payloads that clear the tree *)

(** C9. [updateTree(null)], [updateTree(undefined)] and [updateTree] of an
    object without a [name] all return (none throws) and leave the cleared
    state: no root, no rendered element, and the empty-state element, when the
    page has one, displayed as a block. *)
Theorem updateTree_absent_payload_clears
  (st : TreeVisualization) (ty : string) (v : option Q) (ch : list TreeData) :
  updateTree st PNull = Ok (clearTree st) /\
  updateTree st PUndefined = Ok (clearTree st) /\
  updateTree st (PObject (mkTreeData JUndefined ty v ch)) = Ok (clearTree st) /\
  root (clearTree st) = None /\
  dom_nodes (clearTree st) = [] /\
  dom_links (clearTree st) = [] /\
  emptyState (clearTree st) =
    match emptyState st with Some _ => Some DisplayBlock | None => None end.
Proof. repeat split. Qed.

(** C10. A payload whose [name] is falsy (the empty string, 0, NaN, false,
    null, or absent) is treated as no payload: [updateTree] returns the
    cleared state, with no root; and in no state that calls on a new instance
    lead to does the root carry such a name. *)
Theorem updateTree_falsy_name_clears
  (st : TreeVisualization) (nm : jsval) (ty : string) (v : option Q)
  (ch : list TreeData) :
  truthy nm = false ->
  updateTree st (PObject (mkTreeData nm ty v ch)) = Ok (clearTree st) /\
  root (clearTree st) = None /\
  forall st' r, reachable st' -> root st' = Some r ->
                td_name (Node.data r) <> nm.
Proof.
  intros H. unfold updateTree.
  cbn [payload_truthy negb get_name bind td_name]. rewrite H.
  split; [reflexivity|]. split; [reflexivity|].
  intros st' r Hreach Hr E.
  apply reachable_state_ok in Hreach. unfold state_ok in Hreach.
  rewrite Hr in Hreach. destruct Hreach as (_ & _ & Hn).
  rewrite E, H in Hn. discriminate.
Qed.

(** A root named by the empty string is cleared. *)
Lemma updateTree_falsy_name_clears_witness :
  updateTree sample_built
    (PObject (mkTreeData (JStr EmptyString) "root" None
                [sample_leaf "cat" "entity"])) =
  Ok (clearTree sample_built) /\
  root (clearTree sample_built) = None /\
  forall st' r, reachable st' -> root st' = Some r ->
                td_name (Node.data r) <> JStr EmptyString.
Proof.
  apply (updateTree_falsy_name_clears sample_built (JStr EmptyString)).
  reflexivity.
Defined.

(** ** C1: the default collapse policy *)

Lemma collapse_if_children c :
  (if slot_truthy (Node.children c) then collapse c else c) = collapse c.
Proof. destruct c as [o [| |l] cch]; reflexivity. Qed.

Lemma vshape_collapse d : vshape (collapse d) = Sh [].
Proof. destruct d as [o [| |l] cch]; reflexivity. Qed.

Lemma vis_new_tree st td :
  vis (collapse_below_root (new_root st td)) =
  map collapse (map (hierarchy_at 1) (td_children td)).
Proof.
  destruct td as [nm ty v [|c l]]; [reflexivity|].
  unfold vis, collapse_below_root, new_root, hierarchy.
  cbn [hierarchy_at Node.on_own Node.children Node._children slot_list td_children].
  apply map_ext. intros a. apply collapse_if_children.
Qed.

Lemma kids_new_tree st td :
  kids (collapse_below_root (new_root st td)) =
  map collapse (map (hierarchy_at 1) (td_children td)).
Proof.
  rewrite <- (vis_new_tree st td).
  destruct td as [nm ty v [|c l]]; reflexivity.
Qed.

(** No node of a new hierarchy has a [_children] array. *)
Lemma hierarchy_at_fresh q : forall dp td m,
  get (hierarchy_at dp td) q = Some m -> slot_truthy (Node._children m) = false.
Proof.
  induction q as [|i q IH]; intros dp td m H.
  - injection H as <-. destruct td. reflexivity.
  - cbn [get] in H. rewrite kids_hierarchy_at, nth_error_map in H.
    destruct (nth_error (td_children td) i) as [c|]; [|discriminate].
    exact (IH _ _ _ H).
Qed.

(** Collapsing a node that has no [_children] array anywhere below it leaves
    no [children] array anywhere below it. *)
Lemma collapse_hides_all q : forall d n,
  (forall q' m, get d q' = Some m -> slot_truthy (Node._children m) = false) ->
  get (collapse d) q = Some n -> vis n = [].
Proof.
  induction q as [|i q IH]; intros d n Hfresh H.
  - injection H as <-. destruct d as [o [| |l] cch]; reflexivity.
  - cbn [get] in H. rewrite kids_collapse in H.
    destruct (slot_truthy (Node.children d)) eqn:Hch.
    + rewrite nth_error_map in H.
      destruct (nth_error (kids d) i) as [c|] eqn:Hc; [|discriminate].
      apply (IH c n); [|exact H].
      intros q' m Hm. apply (Hfresh (i :: q')). cbn [get]. rewrite Hc. exact Hm.
    + exfalso. specialize (Hfresh [] d eq_refl).
      unfold kids in H. destruct d as [o ch cch]. cbn in *.
      destruct ch; try discriminate; destruct cch; try discriminate;
        destruct i; discriminate.
Qed.

Lemma get_erase_eq a b q n :
  erase a = erase b -> get a q = Some n ->
  exists m, get b q = Some m /\ erase m = erase n.
Proof.
  intros E H.
  pose proof (get_erase q a) as Ha. pose proof (get_erase q b) as Hb.
  rewrite E, Hb, H in Ha. destruct (get b q) as [m|]; [|discriminate].
  injection Ha as Ha. exists m. split; [reflexivity | exact Ha].
Qed.

Lemma node_state_erase n : node_state (erase n) = node_state n.
Proof. destruct n as [o [| |l] [| |l']]; reflexivity. Qed.

Lemma vis_nil_erase n m : erase n = erase m -> vis n = [] -> vis m = [].
Proof.
  intros E. rewrite (erase_unfold n), (erase_unfold m) in E.
  injection E as _ _ E _. unfold vis.
  destruct (Node.children n) as [| |l]; destruct (Node.children m) as [| |l'];
    try discriminate; try reflexivity.
  cbn. intros ->. injection E as E. destruct l'; [reflexivity | discriminate].
Qed.

Lemma col_nil_erase n m : erase n = erase m -> col n = [] -> col m = [].
Proof.
  intros E. rewrite (erase_unfold n), (erase_unfold m) in E.
  injection E as _ _ _ E. unfold col.
  destruct (Node._children n) as [| |l]; destruct (Node._children m) as [| |l'];
    try discriminate; try reflexivity.
  cbn. intros ->. injection E as E. destruct l'; [reflexivity | discriminate].
Qed.

Lemma slots_ok_hidden n :
  slots_ok n -> vis n = [] ->
  map (fun c : Node => Node.data c) (col n) = td_children (Node.data n).
Proof.
  destruct n as [o ch cch]. unfold slots_ok, vis, col, kids.
  cbn [Node.children Node._children Node.own].
  intros [H1 H2] Hv. rewrite <- H2.
  destruct ch as [| |l]; try reflexivity.
  cbn in Hv. subst l. specialize (H1 eq_refl).
  destruct cch; try discriminate; reflexivity.
Qed.

Lemma In_vis_kids c d : In c (vis d) -> In c (kids d).
Proof.
  unfold vis, kids. destruct (Node.children d); try contradiction. trivial.
Qed.

Lemma kids_vis_truthy d : slot_truthy (Node.children d) = true -> kids d = vis d.
Proof.
  unfold kids, vis. destruct (Node.children d); try discriminate. reflexivity.
Qed.

Lemma children_new_tree st td :
  td_children td <> [] ->
  slot_truthy (Node.children (collapse_below_root (new_root st td))) = true.
Proof.
  destruct td as [nm ty v [|c l]]; [intros H; contradiction | reflexivity].
Qed.

(** C1. For a payload with a truthy name whose root has a child that has
    children, [updateTree] returns a state whose visible nodes are the root
    and, in order, the root's direct children, which are all visible; below
    each of them no node has a visible child, each keeping its payload's
    children in [_children] (collapsed at every level); some root child is
    really collapsed; and no node deeper than the root's children is
    visible. *)
Theorem default_collapse_shows_two_levels
  (st : TreeVisualization) (td : TreeData) :
  truthy (td_name td) = true ->
  (exists c, In c (td_children td) /\ td_children c <> []) ->
  exists st' r,
    updateTree st (PObject td) = Ok st' /\
    root st' = Some r /\
    Node.data r = td /\
    descendants r = [] :: map (fun i => [i]) (seq 0 (length (td_children td))) /\
    map (fun c : Node => Node.data c) (vis r) = td_children td /\
    (forall c n, In c (vis r) -> subnode n c ->
       vis n = [] /\
       map (fun m : Node => Node.data m) (col n) = td_children (Node.data n)) /\
    (exists c, In c (vis r) /\ col c <> []) /\
    (forall p, In p (descendants r) -> (length p <= 1)%nat).
Proof.
  intros Hname (c0 & Hc0 & Hgrand).
  set (st1 := hideEmptyState st).
  set (r0 := collapse_below_root (new_root st1 td)).
  set (st2 := with_root st1 (Some r0)).
  exists (render st2), (rendered st2 r0).
  assert (Hup : updateTree st (PObject td) = Ok (render st2)).
  { unfold updateTree. cbn [payload_truthy negb get_name bind as_object].
    rewrite Hname. reflexivity. }
  assert (Hwf : wf (rendered st2 r0)) by apply rendered_wf, wf_new_tree.
  assert (Her : erase (rendered st2 r0) = erase r0) by apply rendered_erase.
  assert (Hdata : Node.data (rendered st2 r0) = td)
    by (rewrite rendered_data; apply data_new_tree).
  assert (Hdesc : descendants (rendered st2 r0) =
                  [] :: map (fun i => [i]) (seq 0 (length (td_children td)))).
  { unfold descendants. rewrite rendered_vshape.
    rewrite (vshape_unfold r0).
    change (slot_list (Node.children r0)) with (vis r0).
    unfold r0. rewrite vis_new_tree, bfs_paths_two_levels.
    - rewrite !length_map. reflexivity.
    - intros s Hs. apply in_map_iff in Hs. destruct Hs as (c & <- & Hc).
      apply in_map_iff in Hc. destruct Hc as (h & <- & _).
      apply vshape_collapse. }
  assert (Hkids : kids (rendered st2 r0) = vis (rendered st2 r0)).
  { apply kids_vis_truthy.
    pose proof (node_state_erase (rendered st2 r0)) as E.
    rewrite Her, node_state_erase in E.
    apply (f_equal fst) in E. unfold node_state in E. cbn [fst] in E.
    rewrite <- E. apply children_new_tree.
    intros E'. rewrite E' in Hc0. contradiction. }
  assert (Hvis : map (fun c : Node => Node.data c) (vis (rendered st2 r0)) =
                 td_children td).
  { rewrite <- Hkids, <- Hdata. apply (Hwf [] _ eq_refl). }
  assert (Hbelow : forall c n, In c (vis (rendered st2 r0)) -> subnode n c ->
            vis n = [] /\
            map (fun m : Node => Node.data m) (col n) = td_children (Node.data n)).
  { intros c n Hc Hn.
    destruct (In_nth_error _ _ (In_vis_kids _ _ Hc)) as [i Hi].
    destruct (subnode_get n c (wf_child _ i _ Hwf Hi) Hn) as [q Hq].
    assert (Hp : get (rendered st2 r0) (i :: q) = Some n)
      by (cbn [get]; rewrite Hi; exact Hq).
    destruct (get_erase_eq _ _ _ _ Her Hp) as (n0 & Hn0 & En0).
    assert (Hv : vis n = []).
    { apply (vis_nil_erase n0 n En0).
      cbn [get] in Hn0. unfold r0 in Hn0. rewrite kids_new_tree, !nth_error_map in Hn0.
      destruct (nth_error (td_children td) i) as [ci|]; [|discriminate].
      cbn [option_map] in Hn0.
      apply (collapse_hides_all q (hierarchy_at 1 ci) n0); [|exact Hn0].
      intros q' m Hm. exact (hierarchy_at_fresh q' 1 ci m Hm). }
    split; [exact Hv|]. apply slots_ok_hidden; [|exact Hv].
    exact (Hwf _ _ Hp). }
  repeat (split; [first [exact Hup | reflexivity | exact Hdata | exact Hdesc
                         | exact Hvis | exact Hbelow]|]).
  split.
  - destruct (In_nth_error _ _ Hc0) as [j Hj].
    rewrite <- Hvis, nth_error_map in Hj.
    destruct (nth_error (vis (rendered st2 r0)) j) as [c|] eqn:Hc; [|discriminate].
    injection Hj as Hj. exists c. split; [exact (nth_error_In _ _ Hc)|].
    intros E. apply Hgrand.
    destruct (Hbelow c c (nth_error_In _ _ Hc) (sub_self c)) as [_ H].
    rewrite E, Hj in H. symmetry. exact H.
  - intros p. rewrite Hdesc. intros [<-|H]; [cbn; lia|].
    apply in_map_iff in H. destruct H as (i & <- & _). cbn. lia.
Qed.

(** The specification's scenario: after the build of root -> E1 -> cat, root and
    E1 are visible and cat is not. *)
Lemma default_collapse_shows_two_levels_witness :
  exists st' r,
    updateTree sample_start (PObject sample_payload) = Ok st' /\
    root st' = Some r /\
    Node.data r = sample_payload /\
    descendants r =
      [] :: map (fun i => [i]) (seq 0 (length (td_children sample_payload))) /\
    map (fun c : Node => Node.data c) (vis r) = td_children sample_payload /\
    (forall c n, In c (vis r) -> subnode n c ->
       vis n = [] /\
       map (fun m : Node => Node.data m) (col n) = td_children (Node.data n)) /\
    (exists c, In c (vis r) /\ col c <> []) /\
    (forall p, In p (descendants r) -> (length p <= 1)%nat).
Proof.
  apply (default_collapse_shows_two_levels sample_start sample_payload).
  - reflexivity.
  - exists (mkTreeData (JStr "E1") "entity_group" None [sample_leaf "cat" "entity"]).
    split; [left; reflexivity | discriminate].
Defined.

(** C1 as the specification states it fails when the root has no truthy
    name: for a root named by the empty string whose child E1 has the child
    "cat", [updateTree] clears the visualization, so that neither the root
    nor E1 is visible and no element is rendered. *)
Lemma default_collapse_not_without_root_name :
  exists td st',
    td_name td = JStr EmptyString /\
    (exists c, In c (td_children td) /\ td_children c <> []) /\
    updateTree sample_start (PObject td) = Ok st' /\
    root st' = None /\
    dom_nodes st' = [].
Proof.
  exists (mkTreeData (JStr EmptyString) "root" None
            [mkTreeData (JStr "E1") "entity_group" None
               [sample_leaf "cat" "entity"]]),
         (clearTree sample_start).
  split; [reflexivity|]. split.
  - exists (mkTreeData (JStr "E1") "entity_group" None [sample_leaf "cat" "entity"]).
    split; [left; reflexivity | discriminate].
  - vm_compute. repeat split; reflexivity.
Qed.

(** ** C3: expandAll *)

Lemma expand_no_collapsed q : forall d n,
  wf d -> get (expand d) q = Some n -> slot_truthy (Node._children n) = false.
Proof.
  induction q as [|i q IH]; intros d n Hd H.
  - injection H as <-. destruct d as [o [| |l] [| |l']]; reflexivity.
  - cbn [get] in H. rewrite (kids_expand _ (Hd [] d eq_refl)), nth_error_map in H.
    destruct (nth_error (kids d) i) as [c|] eqn:Hc; [|discriminate].
    exact (IH c n (wf_child _ i _ Hd Hc) H).
Qed.

Lemma td_shape_unfold td : td_shape td = Sh (map td_shape (td_children td)).
Proof. destruct td. reflexivity. Qed.

(** A tree without [_children] arrays shows its whole payload. *)
Lemma vshape_full : forall d,
  wf d ->
  (forall q n, get d q = Some n -> slot_truthy (Node._children n) = false) ->
  vshape d = td_shape (Node.data d).
Proof.
  induction d as [o ch cch IHch _] using Node_ind'. intros Hwf Hno.
  rewrite vshape_unfold, td_shape_unfold.
  destruct (Hwf [] _ eq_refl) as [_ H2]. rewrite <- H2.
  pose proof (Hno [] _ eq_refl) as Hcch. cbn in Hcch.
  assert (Hk : kids (Node.mk o ch cch) = slot_list ch).
  { unfold kids. cbn. destruct ch; try reflexivity; destruct cch; try reflexivity; discriminate. }
  rewrite Hk. cbn [Node.children]. rewrite map_map. f_equal.
  apply map_ext_in. intros c Hc.
  rewrite Forall_forall in IHch. apply (IHch c Hc).
  - destruct (In_nth_error _ _ Hc) as [i Hi].
    apply (wf_child _ i _ Hwf). rewrite Hk. exact Hi.
  - intros q n Hn. destruct (In_nth_error _ _ Hc) as [i Hi].
    apply (Hno (i :: q)). cbn [get]. rewrite Hk, Hi. exact Hn.
Qed.

Lemma expandAll_some st r :
  root st = Some r ->
  root (expandAll st) =
  Some (rendered (with_root st (Some (expand r))) (expand r)).
Proof.
  intros H. unfold expandAll. rewrite H.
  rewrite (render_some _ (expand r)); reflexivity.
Qed.

(** C3. In a state that calls on a new instance lead to, [expandAll] leaves a
    tree whose visible shape is the shape of the whole payload, so that its
    traversal visits every payload node, and in which no node, in whichever
    array it sits, has a non-empty [_children]. *)
Theorem expandAll_shows_whole_payload (st : TreeVisualization) (r : Node) :
  reachable st ->
  root st = Some r ->
  exists r',
    root (expandAll st) = Some r' /\
    Node.data r' = Node.data r /\
    vshape r' = td_shape (Node.data r) /\
    descendants r' = bfs_paths (td_shape (Node.data r)) /\
    forall n, subnode n r' -> col n = [].
Proof.
  intros Hreach Hr.
  apply reachable_state_ok in Hreach. unfold state_ok in Hreach.
  rewrite Hr in Hreach. destruct Hreach as (Hwf & _).
  set (st' := with_root st (Some (expand r))).
  exists (rendered st' (expand r)).
  assert (Hwf' : wf (rendered st' (expand r))) by apply rendered_wf, wf_expand, Hwf.
  assert (Hshape : vshape (rendered st' (expand r)) = td_shape (Node.data r)).
  { rewrite rendered_vshape, <- (data_expand r). apply vshape_full.
    - apply wf_expand, Hwf.
    - intros q n. apply expand_no_collapsed, Hwf. }
  split; [apply expandAll_some, Hr|].
  split; [rewrite rendered_data; apply data_expand|].
  split; [exact Hshape|].
  split; [unfold descendants; rewrite Hshape; reflexivity|].
  intros n Hn.
  destruct (subnode_get n _ Hwf' Hn) as [q Hq].
  destruct (get_erase_eq _ _ _ _ (rendered_erase st' (expand r)) Hq)
    as (n0 & Hn0 & En0).
  apply (col_nil_erase n0 n En0).
  pose proof (expand_no_collapsed q r n0 Hwf Hn0) as H.
  unfold col. destruct (Node._children n0); try reflexivity. discriminate.
Qed.

(** The built sample, expanded. *)
Lemma expandAll_shows_whole_payload_witness :
  exists r',
    root (expandAll sample_built) = Some r' /\
    Node.data r' = Node.data sample_root /\
    vshape r' = td_shape (Node.data sample_root) /\
    descendants r' = bfs_paths (td_shape (Node.data sample_root)) /\
    forall n, subnode n r' -> col n = [].
Proof.
  apply (expandAll_shows_whole_payload sample_built sample_root).
  - exact sample_built_reachable.
  - vm_compute. reflexivity.
Defined.

(** ** C2: toggling a node *)

Lemma toggle_swaps n :
  slots_ok n ->
  vis (toggle n) = col n /\ col (toggle n) = vis n /\
  vis (toggle (toggle n)) = vis n /\ col (toggle (toggle n)) = col n.
Proof.
  intros [H1 _]. destruct n as [o ch cch]. cbn in H1.
  destruct ch as [| |l]; destruct cch as [| |l']; try (repeat split; reflexivity);
    specialize (H1 eq_refl); discriminate.
Qed.

Lemma vshape_toggle_leaf n : kids n = [] -> vshape (toggle n) = vshape n.
Proof.
  destruct n as [o ch cch]. unfold kids. cbn.
  destruct ch as [| |l]; destruct cch as [| |l']; cbn; intros H;
    try reflexivity; subst; reflexivity.
Qed.

Lemma node_state_at_upd_toggle p : forall r q,
  q <> p ->
  option_map node_state (get (upd p toggle r) q) = option_map node_state (get r q).
Proof.
  induction p as [|i p IH]; intros r q Hq.
  - destruct q as [|j q]; [contradiction Hq; reflexivity|].
    cbn [upd get]. rewrite kids_toggle. reflexivity.
  - destruct q as [|j q].
    + cbn [get option_map]. unfold node_state.
      destruct (truthy_upd_cons i p toggle r) as [-> ->]. reflexivity.
    + cbn [get]. rewrite kids_upd_cons, nth_error_list_upd.
      destruct (Nat.eqb_spec i j) as [->|Hij]; [|reflexivity].
      destruct (nth_error (kids r) j) as [c|]; [|reflexivity].
      cbn [option_map]. apply IH. intros ->. apply Hq. reflexivity.
Qed.

Lemma node_state_at_erase a b q :
  erase a = erase b ->
  option_map node_state (get a q) = option_map node_state (get b q).
Proof.
  intros E.
  pose proof (get_erase q a) as Ha. pose proof (get_erase q b) as Hb.
  rewrite E, Hb in Ha.
  destruct (get a q) as [n|], (get b q) as [m|]; try discriminate; [|reflexivity].
  injection Ha as Ha. cbn [option_map].
  rewrite <- (node_state_erase n), <- (node_state_erase m), Ha. reflexivity.
Qed.

Lemma vis_col_erase n m :
  erase n = erase m ->
  map erase (vis n) = map erase (vis m) /\ map erase (col n) = map erase (col m).
Proof.
  intros E. rewrite (erase_unfold n), (erase_unfold m) in E.
  injection E as _ _ E1 E2. unfold vis, col.
  destruct (Node.children n), (Node.children m); try discriminate;
    destruct (Node._children n), (Node._children m); try discriminate;
    repeat match goal with
           | H : Arr _ = Arr _ |- _ => injection H as H
           end;
    split; cbn [slot_list map]; try reflexivity; assumption.
Qed.

Lemma erase_toggle_congr n m : erase n = erase m -> erase (toggle n) = erase (toggle m).
Proof. intros E. rewrite !erase_toggle, E. reflexivity. Qed.

Lemma toggleNode_some st p r :
  root st = Some r ->
  root (toggleNode st p) =
  Some (rendered (with_root st (Some (upd p toggle r))) (upd p toggle r)).
Proof.
  intros H. unfold toggleNode. rewrite H.
  rewrite (render_some _ (upd p toggle r)); reflexivity.
Qed.

(** C2. In a state that calls on a new instance lead to, for the node [n] at
    a path [p]: after one [toggleNode], the array of [n]'s children has moved
    to the other property as it is (same nodes, same order, each as it was up
    to what [render] writes), and every other node is expanded or collapsed
    as before; after a second [toggleNode], [n]'s visible and collapsed
    children are what they were; and when [n] has no children the visible
    tree is unchanged. *)
Theorem toggleNode_twice_restores
  (st : TreeVisualization) (r : Node) (p : Path) (n : Node) :
  reachable st ->
  root st = Some r ->
  get r p = Some n ->
  exists r1 n1 r2 n2,
    root (toggleNode st p) = Some r1 /\ get r1 p = Some n1 /\
    root (toggleNode (toggleNode st p) p) = Some r2 /\ get r2 p = Some n2 /\
    map erase (vis n2) = map erase (vis n) /\
    map erase (col n2) = map erase (col n) /\
    map erase (vis n1) = map erase (col n) /\
    map erase (col n1) = map erase (vis n) /\
    (forall q, q <> p ->
       option_map node_state (get r1 q) = option_map node_state (get r q)) /\
    (kids n = [] -> descendants r1 = descendants r).
Proof.
  intros Hreach Hr Hn.
  apply reachable_state_ok in Hreach. unfold state_ok in Hreach.
  rewrite Hr in Hreach. destruct Hreach as (Hwf & _).
  destruct (toggle_swaps n (Hwf p n Hn)) as (S1 & S2 & S3 & S4).
  set (stA := with_root st (Some (upd p toggle r))).
  set (r1 := rendered stA (upd p toggle r)).
  assert (Hr1 : root (toggleNode st p) = Some r1) by apply toggleNode_some, Hr.
  assert (E1 : erase r1 = erase (upd p toggle r)) by apply rendered_erase.
  set (stB := with_root (toggleNode st p) (Some (upd p toggle r1))).
  set (r2 := rendered stB (upd p toggle r1)).
  assert (Hr2 : root (toggleNode (toggleNode st p) p) = Some r2)
    by apply toggleNode_some, Hr1.
  assert (E2 : erase r2 = erase (upd p (fun m => toggle (toggle m)) r)).
  { unfold r2. rewrite rendered_erase, <- (upd_upd toggle toggle p r).
    apply erase_upd_congr; [apply erase_toggle_congr | exact E1]. }
  assert (G1 : get (upd p toggle r) p = Some (toggle n))
    by (rewrite get_upd_same, Hn; reflexivity).
  assert (G2 : get (upd p (fun m => toggle (toggle m)) r) p = Some (toggle (toggle n)))
    by (rewrite get_upd_same, Hn; reflexivity).
  destruct (get_erase_eq _ r1 _ _ (eq_sym E1) G1) as (n1 & Hn1 & En1).
  destruct (get_erase_eq _ r2 _ _ (eq_sym E2) G2) as (n2 & Hn2 & En2).
  destruct (vis_col_erase _ _ En1) as [V1 C1].
  destruct (vis_col_erase _ _ En2) as [V2 C2].
  exists r1, n1, r2, n2.
  repeat (split; [first [exact Hr1 | exact Hn1 | exact Hr2 | exact Hn2]|]).
  split; [rewrite V2, S3; reflexivity|].
  split; [rewrite C2, S4; reflexivity|].
  split; [rewrite V1, S1; reflexivity|].
  split; [rewrite C1, S2; reflexivity|].
  split.
  - intros q Hq. rewrite (node_state_at_erase r1 (upd p toggle r) q E1).
    apply node_state_at_upd_toggle, Hq.
  - intros Hleaf. unfold descendants, r1. rewrite rendered_vshape.
    f_equal. apply vshape_upd. intros m Hm. rewrite Hn in Hm. injection Hm as <-.
    apply vshape_toggle_leaf, Hleaf.
Qed.

(** Two clicks on E1 of the built sample. *)
Lemma toggleNode_twice_restores_witness :
  exists r1 n1 r2 n2,
    root (toggleNode sample_built [0%nat]) = Some r1 /\ get r1 [0%nat] = Some n1 /\
    root (toggleNode (toggleNode sample_built [0%nat]) [0%nat]) = Some r2 /\
    get r2 [0%nat] = Some n2 /\
    map erase (vis n2) = map erase (vis sample_E1) /\
    map erase (col n2) = map erase (col sample_E1) /\
    map erase (vis n1) = map erase (col sample_E1) /\
    map erase (col n1) = map erase (vis sample_E1) /\
    (forall q, q <> [0%nat] ->
       option_map node_state (get r1 q) =
       option_map node_state (get sample_root q)) /\
    (kids sample_E1 = [] -> descendants r1 = descendants sample_root).
Proof.
  apply (toggleNode_twice_restores sample_built sample_root [0%nat] sample_E1).
  - exact sample_built_reachable.
  - vm_compute. reflexivity.
  - vm_compute. reflexivity.
Defined.

(** ** C8: the depth axis *)

(** A property of the scalar properties that the writes of a loop keep, and
    that the write at a node of the loop establishes, holds at a node after
    the loop if it held before or the node is one of the loop's. *)
Lemma own_at_for_each_good (Good : Node.props -> Prop)
  (F : Path -> Node.props -> Node.props) ps :
  (forall p o, Good o -> Good (F p o)) ->
  forall d q o,
    own_at d q = Some o ->
    Good o \/ (In q ps /\ forall o', Good (F q o')) ->
    exists o', own_at (for_each (fun p => Node.on_own (F p)) ps d) q = Some o' /\
               Good o'.
Proof.
  intros Hkeep. unfold for_each.
  induction ps as [|p ps IH]; intros d q o Ho Hg.
  - exists o. split; [exact Ho|]. destruct Hg as [Hg|[[] _]]. exact Hg.
  - cbn [fold_left].
    pose proof (own_at_upd_own (F p) p d q) as E. rewrite Ho in E.
    destruct (list_eq_dec Nat.eq_dec q p) as [->|Hqp].
    + apply (IH _ p (F p o) E). left.
      destruct Hg as [Hg|[_ Hg]]; [apply Hkeep, Hg | apply Hg].
    + apply (IH _ q o E).
      destruct Hg as [Hg|[[Hq|Hq] Hg]];
        [left; exact Hg | exfalso; apply Hqp; symmetry; exact Hq
         | right; split; assumption].
Qed.

Lemma key_step_good (Good : Node.props -> Prop) tc p q :
  (forall k o, Good o -> Good (Node.set_id k o)) ->
  (exists o, own_at (fst tc) q = Some o /\ Good o) ->
  exists o, own_at (fst (key_step tc p)) q = Some o /\ Good o.
Proof.
  destruct tc as [t c]. cbn [fst]. intros Hkeep (o & Ho & Hg).
  destruct (key_step_cases t c p) as [[_ ->]|[[_ ->]|(_ & _ & ->)]];
    try (exists o; split; assumption).
  cbn [fst]. rewrite own_at_upd_own, Ho.
  destruct (list_eq_dec Nat.eq_dec q p).
  - eexists. split; [reflexivity|]. apply Hkeep, Hg.
  - exists o. split; [reflexivity | exact Hg].
Qed.

(** A property that every write of a pass keeps and that the depth-spacing
    loop establishes holds at every visible node after the pass. *)
Lemma rendered_good (Good : Node.props -> Prop) st r q :
  (forall vx vy o, Good o -> Good (Node.set_x0y0 vx vy o)) ->
  (forall k o, Good o -> Good (Node.set_id k o)) ->
  (forall o, Good (Node.set_xy (Node.x o) (Some (depth_y o)) o)) ->
  In q (descendants r) ->
  exists o, own_at (rendered st r) q = Some o /\ Good o.
Proof.
  intros K1 K2 K3 Hq.
  destruct (descendants_get r q Hq) as [n Hn].
  assert (H0 : own_at r q = Some (Node.own n))
    by (unfold own_at; rewrite Hn; reflexivity).
  destruct (own_at_for_each_good (fun _ => True)
              (fun p => Node.set_xy
                 (Some (fst (tree st (height st - margin - margin)
                                  (width st - margin - margin) (vshape r) p)))
                 (Some (snd (tree st (height st - margin - margin)
                                  (width st - margin - margin) (vshape r) p))))
              (descendants r) (fun _ _ _ => I) r q _ H0 (or_introl I))
    as (o1 & H1 & _).
  fold (tree_layout st r) in H1.
  destruct (own_at_for_each_good Good
              (fun _ o => Node.set_xy (Node.x o) (Some (depth_y o)) o)
              (descendants (tree_layout st r))
              (fun _ o _ => K3 o) (tree_layout st r) q o1 H1)
    as (o2 & H2 & G2).
  { right. split; [|exact K3].
    unfold descendants, tree_layout in *. rewrite vshape_for_each. exact Hq. }
  fold (depth_spacing (tree_layout st r)) in H2. fold (laid_out st r) in H2.
  assert (H3 : exists o, own_at (fst (joined st r)) q = Some o /\ Good o).
  { rewrite joined_unfold.
    apply (key_fold_ind (fun tc => exists o, own_at (fst tc) q = Some o /\ Good o));
      [intros tc p; apply key_step_good, K2|].
    apply (key_fold_ind (fun tc => exists o, own_at (fst tc) q = Some o /\ Good o));
      [intros tc p; apply key_step_good, K2|].
    exists o2. split; assumption. }
  destruct H3 as (o3 & H3 & G3).
  unfold rendered, store_positions.
  apply (own_at_for_each_good Good
           (fun _ o => Node.set_x0y0 (Node.x o) (Node.y o) o)
           (descendants (fst (joined st r)))
           (fun _ o G => K1 _ _ o G) (fst (joined st r)) q o3 H3).
  left. exact G3.
Qed.

Lemma render_root_inv st r' :
  root (render st) = Some r' ->
  exists r, root st = Some r /\ r' = rendered st r.
Proof.
  destruct (root st) as [r|] eqn:Hr.
  - rewrite (render_some st r Hr). cbn [root]. intros E. injection E as <-.
    exists r. split; reflexivity.
  - rewrite (render_none st Hr), Hr. discriminate.
Qed.

Lemma depth_erase d : Node.depth (erase d) = Node.depth d.
Proof. destruct d as [o ch cch]. reflexivity. Qed.

Lemma depth_y_lt (o1 o2 : Node.props) :
  (Node.depth o1 < Node.depth o2)%nat -> depth_y o1 < depth_y o2.
Proof.
  intros H. unfold depth_y. rewrite <- Zlt_Qlt. lia.
Qed.

(** C8. After a pass of [render], the [y] of every visible node is its depth
    times 180, so that of two visible nodes the shallower has the strictly
    smaller [y]; and the node keeps that [y] when the pass is run again for
    any other container size. *)
Theorem depth_axis_is_depth_times_180
  (st : TreeVisualization) (r' : Node) (p q : Path) (a b : Node) :
  root (render st) = Some r' ->
  In p (descendants r') -> In q (descendants r') ->
  get r' p = Some a -> get r' q = Some b ->
  Node.y a = Some (inject_Z (Z.of_nat (Node.depth a) * 180)) /\
  Node.y b = Some (inject_Z (Z.of_nat (Node.depth b) * 180)) /\
  ((Node.depth a < Node.depth b)%nat ->
   inject_Z (Z.of_nat (Node.depth a) * 180) <
   inject_Z (Z.of_nat (Node.depth b) * 180)) /\
  (forall rw rh r2 a2,
      root (resize st rw rh) = Some r2 -> get r2 p = Some a2 ->
      Node.y a2 = Node.y a).
Proof.
  intros Hr' Hp Hq Ha Hb.
  destruct (render_root_inv st r' Hr') as (r & Hr & ->).
  assert (Hy : forall st0 r0 u n,
             In u (descendants r0) -> get (rendered st0 r0) u = Some n ->
             Node.y n = Some (depth_y n)).
  { intros st0 r0 u n Hu Hn.
    destruct (rendered_good (fun o => Node.y o = Some (depth_y o)) st0 r0 u
                (fun _ _ _ G => G) (fun _ _ G => G) (fun _ => eq_refl) Hu)
      as (o & Ho & Hg).
    unfold own_at in Ho. rewrite Hn in Ho. injection Ho as <-. exact Hg. }
  unfold descendants in Hp, Hq. rewrite rendered_vshape in Hp, Hq.
  pose proof (Hy st r p a Hp Ha) as Ya.
  split; [exact Ya|].
  split; [exact (Hy st r q b Hq Hb)|].
  split; [apply (depth_y_lt a b)|].
  intros rw rh r2 a2 Hr2 Ha2. unfold resize in Hr2.
  destruct (render_root_inv _ r2 Hr2) as (r0 & Hr0 & ->).
  cbn [root updateDimensions] in Hr0. rewrite Hr in Hr0. injection Hr0 as <-.
  rewrite (Hy _ r p a2 Hp Ha2), Ya.
  assert (E : erase (rendered (updateDimensions st rw rh) r) = erase (rendered st r))
    by (rewrite !rendered_erase; reflexivity).
  destruct (get_erase_eq _ _ _ _ E Ha2) as (a' & Ha' & Ea).
  rewrite Ha in Ha'. injection Ha' as <-.
  unfold depth_y. rewrite <- (depth_erase a2), <- Ea, depth_erase. reflexivity.
Qed.

(** The root and E1 of the built sample. *)
Lemma depth_axis_is_depth_times_180_witness :
  Node.y sample_root = Some (inject_Z (Z.of_nat (Node.depth sample_root) * 180)) /\
  Node.y sample_E1 = Some (inject_Z (Z.of_nat (Node.depth sample_E1) * 180)) /\
  ((Node.depth sample_root < Node.depth sample_E1)%nat ->
   inject_Z (Z.of_nat (Node.depth sample_root) * 180) <
   inject_Z (Z.of_nat (Node.depth sample_E1) * 180)) /\
  (forall rw rh r2 a2,
      root (resize sample_built rw rh) = Some r2 -> get r2 [] = Some a2 ->
      Node.y a2 = Node.y sample_root).
Proof.
  apply (depth_axis_is_depth_times_180 sample_built sample_root [] [0%nat]
           sample_root sample_E1).
  - vm_compute. reflexivity.
  - vm_compute. left. reflexivity.
  - vm_compute. right. left. reflexivity.
  - vm_compute. reflexivity.
  - vm_compute. reflexivity.
Defined.

(** ** C7: ids *)

Lemma id_at_own_at r r' :
  (forall q, own_at r' q = own_at r q) -> forall q, id_at r' q = id_at r q.
Proof. intros E q. unfold id_at. rewrite E. reflexivity. Qed.

(** What a pass does to the ids of a tree whose ids are those of [r]. *)
Lemma render_ids st0 rs r :
  root st0 = Some rs ->
  (forall q, id_at rs q = id_at r q) ->
  ids_ok r (nodeId st0) ->
  (nodeId st0 <= nodeId (render st0))%N /\
  root (render st0) = Some (rendered st0 rs) /\
  (forall p k, id_at r p = Some k -> id_at (rendered st0 rs) p = Some k) /\
  (forall p k, id_at (rendered st0 rs) p = Some k ->
               id_at r p = Some k \/ (nodeId st0 < k <= nodeId (render st0))%N).
Proof.
  intros Hr E [Hb _].
  rewrite (render_some st0 rs Hr). cbn [root nodeId].
  destruct (joined_keeps st0 rs) as [Hle Hkeep].
  split; [exact Hle|]. split; [reflexivity|]. split.
  - intros p k Hk. rewrite rendered_id_at. apply Hkeep.
    + rewrite E. exact Hk.
    + specialize (Hb p k Hk). lia.
  - intros p k. rewrite rendered_id_at. intros Hk.
    destruct (joined_fresh st0 rs p k Hk) as [H|H]; [left; rewrite <- E; exact H | right; exact H].
Qed.

Lemma id_at_structural_none st0 rs :
  root st0 = Some rs ->
  (forall q, id_at rs q = None) ->
  forall p k, id_at (rendered st0 rs) p = Some k ->
              (nodeId st0 < k <= nodeId (render st0))%N.
Proof.
  intros Hr E p k Hk.
  rewrite (render_some st0 rs Hr). cbn [nodeId].
  rewrite rendered_id_at in Hk.
  destruct (joined_fresh st0 rs p k Hk) as [H|H]; [|exact H].
  rewrite E in H. discriminate.
Qed.

Lemma In_tl {A} (a : A) l : In a (tl l) -> In a l.
Proof. destruct l; [contradiction|]. intros H. right. exact H. Qed.

(** A second pass finds every visible node with its id and assigns none. *)
Lemma render_twice_ids st :
  nodeId (render (render st)) = nodeId (render st) /\
  forall r1 r2, root (render st) = Some r1 -> root (render (render st)) = Some r2 ->
    forall p, id_at r2 p = id_at r1 p /\ (In p (descendants r1) -> has_key r1 p).
Proof.
  destruct (root st) as [r|] eqn:Hr.
  2:{ rewrite !(render_none st Hr). split; [reflexivity|].
      intros r1 r2 H. rewrite Hr in H. discriminate. }
  set (st1 := render st).
  assert (Hr1 : root st1 = Some (rendered st r))
    by (unfold st1; rewrite (render_some st r Hr); reflexivity).
  assert (Hkeys : forall q, In q (descendants (rendered st r)) ->
                            has_key (rendered st r) q).
  { intros q Hq. unfold descendants in Hq. rewrite rendered_vshape in Hq.
    destruct (joined_keys st r q Hq) as (k & Hk & Hk0).
    exists k. split; [rewrite rendered_id_at; exact Hk | exact Hk0]. }
  assert (Hkeys' : forall q, In q (descendants (laid_out st1 (rendered st r))) ->
                             has_key (laid_out st1 (rendered st r)) q).
  { intros q Hq. unfold descendants in Hq. rewrite laid_out_vshape in Hq.
    destruct (Hkeys q Hq) as (k & Hk & Hk0).
    exists k. split; [rewrite laid_out_id_at; exact Hk | exact Hk0]. }
  assert (Hj : joined st1 (rendered st r) = (laid_out st1 (rendered st r), nodeId st1)).
  { rewrite joined_unfold.
    rewrite (key_fold_idle (tl (descendants (laid_out st1 (rendered st r))))).
    - apply key_fold_idle. exact Hkeys'.
    - intros q Hq. apply Hkeys', In_tl, Hq. }
  split.
  - rewrite (render_some st1 _ Hr1). cbn [nodeId]. rewrite Hj. reflexivity.
  - intros r1 r2 H1 H2. rewrite Hr1 in H1. injection H1 as <-.
    rewrite (render_some st1 _ Hr1) in H2. cbn [root] in H2. injection H2 as <-.
    intros p. split; [|apply Hkeys].
    rewrite rendered_id_at, Hj. cbn [fst]. apply laid_out_id_at.
Qed.

Lemma step_ids st o st' :
  state_ok st -> step st o = Ok st' ->
  (nodeId st <= nodeId st')%N /\
  (forall r p k,
      replaces_tree o = false -> root st = Some r -> id_at r p = Some k ->
      exists r', root st' = Some r' /\ id_at r' p = Some k) /\
  (forall r' p k,
      root st' = Some r' -> id_at r' p = Some k ->
      (nodeId st < k <= nodeId st')%N \/
      (replaces_tree o = false /\
       exists r, root st = Some r /\ id_at r p = Some k)).
Proof.
  intros Hok Hstep.
  (* a call that keeps the tree, changes it in place, and may render *)
  assert (Kept : forall st0 rs r,
            replaces_tree o = false ->
            root st = Some r -> wf r -> ids_ok r (nodeId st) ->
            root st0 = Some rs -> nodeId st0 = nodeId st ->
            (forall q, own_at rs q = own_at r q) ->
            st' = render st0 ->
            (nodeId st <= nodeId st')%N /\
            (forall r1 p k,
                replaces_tree o = false -> root st = Some r1 -> id_at r1 p = Some k ->
                exists r', root st' = Some r' /\ id_at r' p = Some k) /\
            (forall r' p k,
                root st' = Some r' -> id_at r' p = Some k ->
                (nodeId st < k <= nodeId st')%N \/
                (replaces_tree o = false /\
                 exists r1, root st = Some r1 /\ id_at r1 p = Some k))).
  { intros st0 rs r Ho Hr Hwf Hids Hrs Hc E ->.
    rewrite <- Hc in Hids.
    destruct (render_ids st0 rs r Hrs (id_at_own_at r rs E) Hids)
      as (Hle & Hroot & Hkeep & Hfresh).
    rewrite <- Hc. split; [exact Hle|]. split.
    - intros r1 p k _ Hr1 Hk. rewrite Hr in Hr1. injection Hr1 as <-.
      exists (rendered st0 rs). split; [exact Hroot | apply Hkeep, Hk].
    - intros r' p k Hr' Hk. rewrite Hroot in Hr'. injection Hr' as <-.
      destruct (Hfresh p k Hk) as [H|H]; [right | left; exact H].
      split; [exact Ho|]. exists r. split; [exact Hr | exact H]. }
  assert (Idle : root st = None -> st' = st ->
            (nodeId st <= nodeId st')%N /\
            (forall r p k,
                replaces_tree o = false -> root st = Some r -> id_at r p = Some k ->
                exists r', root st' = Some r' /\ id_at r' p = Some k) /\
            (forall r' p k,
                root st' = Some r' -> id_at r' p = Some k ->
                (nodeId st < k <= nodeId st')%N \/
                (replaces_tree o = false /\
                 exists r, root st = Some r /\ id_at r p = Some k))).
  { intros Hr ->. split; [lia|]. split.
    - intros r p k _ H. rewrite Hr in H. discriminate.
    - intros r' p k H. rewrite Hr in H. discriminate. }
  assert (Cleared : root st' = None -> nodeId st' = nodeId st ->
            replaces_tree o = true ->
            (nodeId st <= nodeId st')%N /\
            (forall r p k,
                replaces_tree o = false -> root st = Some r -> id_at r p = Some k ->
                exists r', root st' = Some r' /\ id_at r' p = Some k) /\
            (forall r' p k,
                root st' = Some r' -> id_at r' p = Some k ->
                (nodeId st < k <= nodeId st')%N \/
                (replaces_tree o = false /\
                 exists r, root st = Some r /\ id_at r p = Some k))).
  { intros Hr Hc Ho. split; [lia|]. split.
    - intros r p k H. rewrite Ho in H. discriminate.
    - intros r' p k H. rewrite Hr in H. discriminate. }
  assert (Hroot : (exists r, root st = Some r /\ wf r /\ ids_ok r (nodeId st)) \/
                  root st = None).
  { unfold state_ok in Hok. destruct (root st) as [r|]; [left | right; reflexivity].
    exists r. split; [reflexivity|]. split; apply Hok. }
  clear Hok.
  destruct o; cbn [step] in Hstep.
  - (* Build *)
    destruct (updateTree_cases st treeData) as [[E _]|(td & _ & Hn & E)];
      rewrite E in Hstep; injection Hstep as Hs; symmetry in Hs;
      [apply Cleared; subst st'; reflexivity|].
    set (st0 := with_root (hideEmptyState st)
                  (Some (collapse_below_root (new_root (hideEmptyState st) td)))) in Hs.
    assert (Hr0 : root st0 = Some (collapse_below_root (new_root (hideEmptyState st) td)))
      by reflexivity.
    pose proof (render_some st0 _ Hr0) as Hren.
    assert (Hc : nodeId st' = snd (joined st0 (collapse_below_root (new_root (hideEmptyState st) td))))
      by (rewrite Hs, Hren; reflexivity).
    assert (Hr' : root st' = Some (rendered st0 (collapse_below_root (new_root (hideEmptyState st) td))))
      by (rewrite Hs, Hren; reflexivity).
    split; [rewrite Hc; apply (joined_keeps st0)|]. split.
    + intros r p k H. discriminate.
    + intros r' p k Hr'' Hk. rewrite Hr' in Hr''. injection Hr'' as <-. left.
      pose proof (id_at_structural_none st0 _ Hr0
                    (id_at_new_tree (hideEmptyState st) td) p k Hk) as H.
      rewrite Hs. exact H.
  - (* ToggleNode *)
    injection Hstep as Hs. symmetry in Hs. unfold toggleNode in Hs.
    destruct Hroot as [(r & Hr & Hwf & Hids)|Hr]; rewrite Hr in Hs;
      [|apply Idle; assumption].
    apply (Kept (with_root st (Some (upd p toggle r))) (upd p toggle r) r);
      try reflexivity; try assumption.
    apply own_at_upd_toggle.
  - (* Collapse *)
    injection Hstep as Hs. symmetry in Hs.
    destruct Hroot as [(r & Hr & Hwf & Hids)|Hr]; rewrite Hr in Hs;
      [|apply Idle; assumption].
    subst st'. cbn [nodeId root with_root]. split; [lia|]. split.
    + intros r1 q k _ Hr1 Hk. rewrite Hr in Hr1. injection Hr1 as <-.
      eexists. split; [reflexivity|].
      rewrite (id_at_own_at r _ (own_at_upd_collapse p r)). exact Hk.
    + intros r' q k Hr' Hk. injection Hr' as <-. right.
      split; [reflexivity|]. exists r. split; [exact Hr|].
      rewrite (id_at_own_at r _ (own_at_upd_collapse p r)) in Hk. exact Hk.
  - (* ExpandAll *)
    injection Hstep as Hs. symmetry in Hs. unfold expandAll in Hs.
    destruct Hroot as [(r & Hr & Hwf & Hids)|Hr]; rewrite Hr in Hs;
      [|apply Idle; assumption].
    apply (Kept (with_root st (Some (expand r))) (expand r) r);
      try reflexivity; try assumption.
    intros q. apply own_at_expand, Hwf.
  - (* CollapseAll *)
    injection Hstep as Hs. symmetry in Hs. unfold collapseAll in Hs.
    destruct Hroot as [(r & Hr & Hwf & Hids)|Hr]; rewrite Hr in Hs;
      [|apply Idle; assumption].
    destruct (Node.children r) as [| |l] eqn:Hl.
    + apply (Kept (with_root st (Some r)) r r); try reflexivity; assumption.
    + apply (Kept (with_root st (Some r)) r r); try reflexivity; assumption.
    + apply (Kept (with_root st (Some (Node.mk r (Arr (map collapse l)) (Node._children r))))
               (Node.mk r (Arr (map collapse l)) (Node._children r)) r);
        try reflexivity; try assumption.
      intros q. apply own_at_map_children; [exact Hl|].
      intros n q'. apply own_at_collapse.
  - (* Render *)
    injection Hstep as Hs. symmetry in Hs.
    destruct Hroot as [(r & Hr & Hwf & Hids)|Hr];
      [|apply Idle; [exact Hr | rewrite Hs; apply render_none, Hr]].
    apply (Kept st r r); try reflexivity; assumption.
  - (* Resize *)
    injection Hstep as Hs. symmetry in Hs. unfold resize in Hs.
    destruct Hroot as [(r & Hr & Hwf & Hids)|Hr].
    + apply (Kept (updateDimensions st rw rh) r r); try reflexivity; assumption.
    + rewrite render_none in Hs by exact Hr. subst st'.
      cbn [nodeId root updateDimensions].
      split; [lia|]. split.
      * intros r p k _ H. rewrite Hr in H. discriminate.
      * intros r' p k H. rewrite Hr in H. discriminate.
  - (* ClearTree *)
    injection Hstep as Hs. subst st'. apply Cleared; reflexivity.
Qed.

(** C7. In a state that calls on a new instance lead to:
    (a) running [render] a second time with nothing changed in between
    leaves the counter where the first pass left it and every node with the id
    it had, each visible node having one;
    (b) every id in the tree, on a visible node or not, lies between 1 and
    the counter, and no two nodes share an id;
    (c) every call leaves the counter where it was or above; a call that
    keeps the tree keeps the id of every node that has one, collapsed or not;
    and an id found after a call is either above the counter before the call,
    or the id the same node had before it. *)
Theorem ids_assigned_once_never_reused (st : TreeVisualization) :
  reachable st ->
  (nodeId (render (render st)) = nodeId (render st) /\
   forall r1 r2,
     root (render st) = Some r1 -> root (render (render st)) = Some r2 ->
     forall p, id_at r2 p = id_at r1 p /\
               (In p (descendants r1) -> exists k, id_at r1 p = Some k /\ k <> 0%N)) /\
  (forall r, root st = Some r ->
     (forall p k, id_at r p = Some k -> (1 <= k <= nodeId st)%N) /\
     (forall p q k, id_at r p = Some k -> id_at r q = Some k -> p = q)) /\
  (forall o st',
     step st o = Ok st' ->
     (nodeId st <= nodeId st')%N /\
     (forall r p k,
         replaces_tree o = false -> root st = Some r -> id_at r p = Some k ->
         exists r', root st' = Some r' /\ id_at r' p = Some k) /\
     (forall r' p k,
         root st' = Some r' -> id_at r' p = Some k ->
         (nodeId st < k <= nodeId st')%N \/
         (replaces_tree o = false /\
          exists r, root st = Some r /\ id_at r p = Some k))).
Proof.
  intros Hreach. pose proof (reachable_state_ok st Hreach) as Hok.
  split; [exact (render_twice_ids st)|]. split.
  - intros r Hr. unfold state_ok in Hok. rewrite Hr in Hok.
    destruct Hok as (_ & Hids & _). exact Hids.
  - intros o st' Hstep. exact (step_ids st o st' Hok Hstep).
Qed.

(** The built sample. *)
Lemma ids_assigned_once_never_reused_witness :
  (nodeId (render (render sample_built)) = nodeId (render sample_built) /\
   forall r1 r2,
     root (render sample_built) = Some r1 ->
     root (render (render sample_built)) = Some r2 ->
     forall p, id_at r2 p = id_at r1 p /\
               (In p (descendants r1) -> exists k, id_at r1 p = Some k /\ k <> 0%N)) /\
  (forall r, root sample_built = Some r ->
     (forall p k, id_at r p = Some k -> (1 <= k <= nodeId sample_built)%N) /\
     (forall p q k, id_at r p = Some k -> id_at r q = Some k -> p = q)) /\
  (forall o st',
     step sample_built o = Ok st' ->
     (nodeId sample_built <= nodeId st')%N /\
     (forall r p k,
         replaces_tree o = false -> root sample_built = Some r ->
         id_at r p = Some k ->
         exists r', root st' = Some r' /\ id_at r' p = Some k) /\
     (forall r' p k,
         root st' = Some r' -> id_at r' p = Some k ->
         (nodeId sample_built < k <= nodeId st')%N \/
         (replaces_tree o = false /\
          exists r, root sample_built = Some r /\ id_at r p = Some k))).
Proof.
  exact (ids_assigned_once_never_reused sample_built sample_built_reachable).
Defined.

(** ** C5: where entering nodes start *)

(** The scalar properties of the root that the layout and the joins leave
    alone: its previous position. *)
Lemma joined_root_previous st r :
  Node.y0 (fst (joined st r)) = Node.y0 r /\
  Node.x0 (fst (joined st r)) = Node.x0 r.
Proof.
  assert (H0 : own_at r [] = Some (Node.own r)) by reflexivity.
  destruct (own_at_for_each_good
              (fun o => Node.y0 o = Node.y0 r /\ Node.x0 o = Node.x0 r)
              (fun p => Node.set_xy
                 (Some (fst (tree st (height st - margin - margin)
                                  (width st - margin - margin) (vshape r) p)))
                 (Some (snd (tree st (height st - margin - margin)
                                  (width st - margin - margin) (vshape r) p))))
              (descendants r) (fun _ _ G => G) r [] _ H0
              (or_introl (conj eq_refl eq_refl)))
    as (o1 & H1 & G1).
  fold (tree_layout st r) in H1.
  destruct (own_at_for_each_good
              (fun o => Node.y0 o = Node.y0 r /\ Node.x0 o = Node.x0 r)
              (fun _ o => Node.set_xy (Node.x o) (Some (depth_y o)) o)
              (descendants (tree_layout st r))
              (fun _ _ G => G) (tree_layout st r) [] o1 H1 (or_introl G1))
    as (o2 & H2 & G2).
  fold (depth_spacing (tree_layout st r)) in H2. fold (laid_out st r) in H2.
  assert (H3 : exists o, own_at (fst (joined st r)) [] = Some o /\
                         (Node.y0 o = Node.y0 r /\ Node.x0 o = Node.x0 r)).
  { rewrite joined_unfold.
    apply (key_fold_ind
             (fun tc => exists o, own_at (fst tc) [] = Some o /\
                                  (Node.y0 o = Node.y0 r /\ Node.x0 o = Node.x0 r)));
      [intros tc p; apply key_step_good; intros k o G; exact G|].
    apply (key_fold_ind
             (fun tc => exists o, own_at (fst tc) [] = Some o /\
                                  (Node.y0 o = Node.y0 r /\ Node.x0 o = Node.x0 r)));
      [intros tc p; apply key_step_good; intros k o G; exact G|].
    exists o2. split; assumption. }
  destruct H3 as (o3 & H3 & G3). cbn in H3. injection H3 as <-. exact G3.
Qed.

(** C5, as the code has it. In every pass, every entering node, whether it
    has a parent or not, is created at the root's previous position: the
    [(y0, x0)] the root carries when the pass starts. *)
Theorem entering_nodes_start_at_root_previous_position
  (st : TreeVisualization) (r : Node) (p : Path) (pos : option Q * option Q) :
  root st = Some r ->
  In (p, pos) (nodeEnter st) ->
  pos = (Node.y0 r, Node.x0 r).
Proof.
  intros Hr H. unfold nodeEnter in H. rewrite Hr in H.
  apply in_map_iff in H. destruct H as (q & E & _).
  injection E as _ <-.
  destruct (joined_root_previous st r) as [-> ->]. reflexivity.
Qed.

(** The pass after a click on the collapsed E1 of the built sample: "cat"
    enters at the root's previous position. *)
Lemma entering_nodes_start_at_root_previous_position_witness :
  root sample_toggled = Some (upd [0%nat] toggle sample_root) /\
  In ([0%nat; 0%nat], (Some 0, Node.x0 sample_root)) (nodeEnter sample_toggled) /\
  (Some 0, Node.x0 sample_root) =
  (Node.y0 (upd [0%nat] toggle sample_root),
   Node.x0 (upd [0%nat] toggle sample_root)).
Proof.
  split; [vm_compute; reflexivity|].
  split; [vm_compute; left; reflexivity|].
  apply (entering_nodes_start_at_root_previous_position sample_toggled
           (upd [0%nat] toggle sample_root) [0%nat; 0%nat]).
  - vm_compute. reflexivity.
  - vm_compute. left. reflexivity.
Defined.

(** C5 as the specification states it fails: after a click on the collapsed
    E1, its child "cat" enters; its parent E1 exists and was rendered at depth
    180, yet "cat" is created at depth 0, the root's previous position. *)
Lemma entering_node_not_at_parent_previous_position :
  exists pos parent,
    In ([0%nat; 0%nat], pos) (nodeEnter sample_toggled) /\
    get (upd [0%nat] toggle sample_root) [0%nat] = Some parent /\
    fst pos = Some 0 /\
    Node.y0 parent = Some 180 /\
    pos <> (Node.y0 parent, Node.x0 parent).
Proof.
  vm_compute.
  exists (Some 0, Some (460 # 2)).
  eexists.
  split; [left; reflexivity|].
  split; [reflexivity|].
  split; [reflexivity|].
  split; [reflexivity|].
  discriminate.
Qed.

(** ** Rounding to a double *)

Lemma pow2_pos k : 0 < 2 ^ k.
Proof. apply Qpower_0_lt. reflexivity. Qed.

Lemma pow2_plus a b : 2 ^ (a + b) == 2 ^ a * 2 ^ b.
Proof. apply Qpower_plus. discriminate. Qed.

Lemma pow2_le a b : (a <= b)%Z -> 2 ^ a <= 2 ^ b.
Proof. intros H. apply Qpower_le_compat_l; [exact H | discriminate]. Qed.

Lemma pow2_lt a b : (a < b)%Z -> 2 ^ a < 2 ^ b.
Proof. intros H. apply Qpower_lt_compat_l; [exact H | reflexivity]. Qed.

Lemma pow2_lt_inv a b : 2 ^ a < 2 ^ b -> (a < b)%Z.
Proof. intros H. apply (Qpower_lt_compat_l_inv 2); [exact H | reflexivity]. Qed.

Lemma pow2_Z n : (0 <= n)%Z -> inject_Z (2 ^ n) == 2 ^ n.
Proof. intros H. apply (Zpower_Qpower 2 n H). Qed.

(** [ilog2] is the binary logarithm, rounded down. *)
Lemma ilog2_spec a : 0 < a -> 2 ^ ilog2 a <= a /\ a < 2 ^ (ilog2 a + 1).
Proof.
  intros Ha. destruct a as [n d].
  assert (Hn : (0 < n)%Z).
  { unfold Qlt in Ha. cbn in Ha. lia. }
  unfold ilog2. cbn [Qnum Qden].
  set (ln := Z.log2 n). set (ld := Z.log2 (Z.pos d)).
  destruct (Z.log2_spec n Hn) as [N1 N2]. fold ln in N1, N2.
  destruct (Z.log2_spec (Z.pos d) eq_refl) as [D1 D2]. fold ld in D1, D2.
  assert (Hln : (0 <= ln)%Z) by apply Z.log2_nonneg.
  assert (Hld : (0 <= ld)%Z) by apply Z.log2_nonneg.
  assert (E : n # d == inject_Z n / inject_Z (Z.pos d)) by apply Qmake_Qdiv.
  assert (Hd : 0 < inject_Z (Z.pos d)) by reflexivity.
  assert (QN1 : 2 ^ ln <= inject_Z n) by (rewrite <- pow2_Z, <- Zle_Qle; assumption).
  assert (QN2 : inject_Z n < 2 ^ (ln + 1))
    by (rewrite <- pow2_Z, <- Zlt_Qlt by lia; rewrite <- Z.add_1_r in N2; assumption).
  assert (QD1 : 2 ^ ld <= inject_Z (Z.pos d)) by (rewrite <- pow2_Z, <- Zle_Qle; assumption).
  assert (QD2 : inject_Z (Z.pos d) < 2 ^ (ld + 1))
    by (rewrite <- pow2_Z, <- Zlt_Qlt by lia; rewrite <- Z.add_1_r in D2; assumption).
  (* bounds on the quotient *)
  assert (Up : n # d < 2 ^ (ln - ld + 1)).
  { rewrite E. apply Qlt_shift_div_r; [exact Hd|].
    apply Qlt_le_trans with (2 ^ (ln + 1)); [exact QN2|].
    replace (ln + 1)%Z with ((ln - ld + 1) + ld)%Z by lia. rewrite pow2_plus.
    apply Qmult_le_l; [apply pow2_pos | exact QD1]. }
  assert (Lo : 2 ^ (ln - ld - 1) < n # d).
  { rewrite E. apply Qlt_shift_div_l; [exact Hd|].
    apply Qlt_le_trans with (2 ^ ln); [|exact QN1].
    replace ln with ((ln - ld - 1) + (ld + 1))%Z at 2 by lia. rewrite pow2_plus.
    apply Qmult_lt_l; [apply pow2_pos | exact QD2]. }
  destruct (Qle_bool (2 ^ (ln - ld)) (n # d)) eqn:T.
  - apply Qle_bool_iff in T. split; assumption.
  - assert (T' : n # d < 2 ^ (ln - ld)).
    { apply Qnot_le_lt. intros H. apply Qle_bool_iff in H. congruence. }
    split; [apply Qlt_le_weak, Lo|].
    replace (ln - ld - 1 + 1)%Z with (ln - ld)%Z by lia. exact T'.
Qed.

Lemma ilog2_ge a l : 0 < a -> 2 ^ l <= a -> (l <= ilog2 a)%Z.
Proof.
  intros Ha H. destruct (ilog2_spec a Ha) as [_ H2].
  assert (L : 2 ^ l < 2 ^ (ilog2 a + 1)) by (apply Qle_lt_trans with a; assumption).
  apply pow2_lt_inv in L. lia.
Qed.

Lemma ilog2_lt a l : 0 < a -> a < 2 ^ l -> (ilog2 a < l)%Z.
Proof.
  intros Ha H. destruct (ilog2_spec a Ha) as [H1 _].
  apply pow2_lt_inv. apply Qle_lt_trans with a; assumption.
Qed.

(** The nearest integer is at most a half away, and an integer is its own. *)
Lemma round_half_even_spec q :
  q - (1 # 2) <= inject_Z (round_half_even q) /\
  inject_Z (round_half_even q) <= q + (1 # 2).
Proof.
  unfold round_half_even.
  pose proof (Qfloor_le q) as F1. pose proof (Qlt_floor q) as F2.
  rewrite inject_Z_plus in F2. change (inject_Z 1) with 1 in F2.
  destruct (Qcompare (q - inject_Z (Qfloor q)) (1 # 2)) eqn:C.
  - apply Qeq_alt in C. destruct (Z.even (Qfloor q));
      rewrite ?inject_Z_plus; change (inject_Z 1) with 1; split; lra.
  - apply Qlt_alt in C. split; lra.
  - apply Qgt_alt in C. rewrite inject_Z_plus. change (inject_Z 1) with 1. split; lra.
Qed.

Lemma round_half_even_Z q z : q == inject_Z z -> round_half_even q = z.
Proof.
  intros E. unfold round_half_even.
  assert (F : Qfloor q = z) by (rewrite E; apply Qfloor_Z).
  rewrite F.
  assert (C : Qcompare (q - inject_Z z) (1 # 2) = Lt).
  { apply (proj1 (Qlt_alt _ _)). rewrite E. lra. }
  rewrite C. reflexivity.
Qed.

(** In the range of the normal doubles, rounding changes a positive number
    by at most [2^-53] of it and does not overflow. *)
Lemma fl_normal x :
  2 ^ (-1022) <= x -> x <= 2 ^ 1023 ->
  exists y, fl x = Fin y /\
            x * (1 - roundoff) <= y /\ y <= x * (1 + roundoff).
Proof.
  intros Lo Hi.
  assert (Hx : 0 < x) by (apply Qlt_le_trans with (2 ^ (-1022)); [apply pow2_pos | exact Lo]).
  unfold fl.
  assert (Z0 : Qeq_bool x 0 = false).
  { destruct (Qeq_bool x 0) eqn:E; [|reflexivity].
    apply Qeq_bool_eq in E. rewrite E in Hx. discriminate Hx. }
  rewrite Z0. cbv zeta.
  assert (Ea : Qabs x == x) by (apply Qabs_pos, Qlt_le_weak, Hx).
  set (a := Qabs x) in *.
  assert (Ha : 0 < a) by (rewrite Ea; exact Hx).
  destruct (ilog2_spec a Ha) as [L1 L2].
  assert (Hl : (-1022 <= ilog2 a)%Z) by (apply ilog2_ge; [exact Ha | rewrite Ea; exact Lo]).
  replace (Z.max (ilog2 a - 52) (-1074)) with (ilog2 a - 52)%Z by lia.
  set (e := (ilog2 a - 52)%Z) in *.
  destruct (round_half_even_spec (a / 2 ^ e)) as [R1 R2].
  set (m := inject_Z (round_half_even (a / 2 ^ e))) in *.
  pose proof (pow2_pos e) as He.
  assert (Ediv : a / 2 ^ e * 2 ^ e == a).
  { field. intros E. rewrite E in He. discriminate He. }
  assert (B1 : a - (1 # 2) * 2 ^ e <= m * 2 ^ e).
  { rewrite <- Ediv at 1.
    setoid_replace (a / 2 ^ e * 2 ^ e - (1 # 2) * 2 ^ e) with ((a / 2 ^ e - (1 # 2)) * 2 ^ e) by ring.
    apply Qmult_le_compat_r; [exact R1 | apply Qlt_le_weak, He]. }
  assert (B2 : m * 2 ^ e <= a + (1 # 2) * 2 ^ e).
  { rewrite <- Ediv at 1.
    setoid_replace (a / 2 ^ e * 2 ^ e + (1 # 2) * 2 ^ e) with ((a / 2 ^ e + (1 # 2)) * 2 ^ e) by ring.
    apply Qmult_le_compat_r; [exact R2 | apply Qlt_le_weak, He]. }
  assert (U : 2 ^ e == 2 ^ ilog2 a * (2 * roundoff)).
  { unfold e. replace (ilog2 a - 52)%Z with (ilog2 a + (-52))%Z by lia.
    rewrite pow2_plus. apply Qmult_comp; reflexivity. }
  assert (B : a * (1 - roundoff) <= m * 2 ^ e /\ m * 2 ^ e <= a * (1 + roundoff)).
  { unfold roundoff. set (Y := m * 2 ^ e) in *. rewrite U in B1, B2.
    set (P := 2 ^ ilog2 a) in *. clearbody P Y. unfold roundoff in *. split; lra. }
  assert (Ov : Qle_bool (2 ^ 1024) (m * 2 ^ e) = false).
  { destruct (Qle_bool (2 ^ 1024) (m * 2 ^ e)) eqn:E; [|reflexivity].
    apply Qle_bool_iff in E. exfalso.
    assert (H2 : 2 ^ 1024 == 2 * 2 ^ 1023) by (change 1024%Z with (1 + 1023)%Z; rewrite pow2_plus; reflexivity).
    pose proof (pow2_pos 1023). destruct B as [_ B]. rewrite Ea in B.
    unfold roundoff in B. set (Y := m * 2 ^ e) in *. set (T := 2 ^ 1023) in *.
    set (T' := 2 ^ 1024) in *. clearbody Y T T'. lra. }
  rewrite Ov.
  assert (P : Qle_bool 0 x = true) by (apply Qle_bool_iff, Qlt_le_weak, Hx).
  rewrite P. exists (m * 2 ^ e). split; [reflexivity|].
  rewrite <- Ea. exact B.
Qed.

(** A whole number below [2^53] is a double: rounding leaves it as it is. *)
Lemma fl_int x z :
  x == inject_Z z -> (0 <= z < 2 ^ 53)%Z ->
  exists y, fl x = Fin y /\ y == x.
Proof.
  intros Ex Hz. unfold fl.
  destruct (Qeq_bool x 0) eqn:Z0.
  { exists 0. split; [reflexivity|]. apply Qeq_bool_eq in Z0. symmetry. exact Z0. }
  assert (Hz0 : (0 < z)%Z).
  { destruct (Z.eq_dec z 0) as [->|]; [|lia].
    exfalso. apply Qeq_eq_bool in Ex. change (inject_Z 0) with 0 in Ex. congruence. }
  assert (Hx : 0 < x) by (rewrite Ex; rewrite <- (Zlt_Qlt 0); exact Hz0).
  cbv zeta.
  assert (Ea : Qabs x == inject_Z z) by (rewrite <- Ex; apply Qabs_pos, Qlt_le_weak, Hx).
  set (a := Qabs x) in *.
  assert (Ha : 0 < a) by (rewrite Ea, <- Ex; exact Hx).
  assert (Hl0 : (0 <= ilog2 a)%Z).
  { apply ilog2_ge; [exact Ha|]. rewrite Ea. change (2 ^ 0) with (inject_Z 1).
    rewrite <- Zle_Qle. lia. }
  assert (Hl1 : (ilog2 a < 53)%Z).
  { apply ilog2_lt; [exact Ha|]. rewrite Ea, <- pow2_Z by lia. rewrite <- Zlt_Qlt. lia. }
  replace (Z.max (ilog2 a - 52) (-1074)) with (ilog2 a - 52)%Z by lia.
  set (e := (ilog2 a - 52)%Z) in *.
  pose proof (pow2_pos e) as He.
  assert (Hinv : 2 ^ (- e) * 2 ^ e == 1).
  { rewrite <- pow2_plus. replace (- e + e)%Z with 0%Z by lia. reflexivity. }
  assert (Eq : a / 2 ^ e == inject_Z (z * 2 ^ (- e))).
  { rewrite inject_Z_mult, pow2_Z by lia. rewrite Ea.
    apply Qmult_inj_r with (2 ^ e); [intros E; rewrite E in He; discriminate He|].
    rewrite <- Qmult_assoc, Hinv. field. intros E; rewrite E in He; discriminate He. }
  rewrite (round_half_even_Z _ _ Eq).
  assert (Ey : inject_Z (z * 2 ^ (- e)) * 2 ^ e == inject_Z z).
  { rewrite inject_Z_mult, pow2_Z by lia. rewrite <- Qmult_assoc, Hinv. ring. }
  assert (Ov : Qle_bool (2 ^ 1024) (inject_Z (z * 2 ^ (- e)) * 2 ^ e) = false).
  { destruct (Qle_bool (2 ^ 1024) _) eqn:E; [|reflexivity].
    apply Qle_bool_iff in E. exfalso. rewrite Ey in E.
    assert (L : inject_Z z < 2 ^ 1024).
    { apply Qlt_le_trans with (2 ^ 53); [|apply pow2_le; lia].
      rewrite <- pow2_Z by lia. rewrite <- Zlt_Qlt. lia. }
    apply (Qlt_irrefl (2 ^ 1024)). apply Qle_lt_trans with (inject_Z z); assumption. }
  rewrite Ov.
  assert (P : Qle_bool 0 x = true) by (apply Qle_bool_iff, Qlt_le_weak, Hx).
  rewrite P. eexists. split; [reflexivity|]. rewrite Ey, Ex. reflexivity.
Qed.

(** ** C6: the scale [centerTree] derives *)

(** C6 as the specification states it fails: for a content box of 80 by 50
    in the 800 by 500 viewport of the built sample, [centerTree] hands
    [zoom.transform] the scale 9, above the 3 of [scaleExtent]. *)
Lemma centerTree_scale_exceeds_scaleExtent :
  exists z k,
    centerTree sample_built (mkBBox 0 0 80 50) = Some z /\
    zoom_k z = Fin k /\
    k == 9 /\
    snd scaleExtent < k.
Proof.
  vm_compute.
  eexists. eexists.
  split; [reflexivity|].
  split; [reflexivity|].
  split; reflexivity.
Qed.

Lemma Qeq_bool_pos q : 0 < q -> Qeq_bool q 0 = false.
Proof.
  intros H. destruct (Qeq_bool q 0) eqn:E; [|reflexivity].
  apply Qeq_bool_eq in E. rewrite E in H. exfalso. exact (Qlt_irrefl 0 H).
Qed.

Lemma Qdiv_pos a b : 0 < a -> 0 < b -> 0 < a / b.
Proof.
  intros Ha Hb. apply Qlt_shift_div_l; [exact Hb|]. rewrite Qmult_0_l. exact Ha.
Qed.

(** The quotient of a box dimension by a viewport dimension, as the doubles
    give it: the exact quotient up to one rounding. *)
Lemma ratio_rounded a b :
  0 < b -> a == 0 \/ (2 ^ (-1000) <= a / b /\ a / b <= 2 ^ 1000) ->
  exists q, jdiv (Fin a) (Fin b) = Fin q /\
            a / b * (1 - roundoff) <= q /\ q <= a / b * (1 + roundoff).
Proof.
  intros Hb H. unfold jdiv. rewrite (Qeq_bool_pos b Hb).
  destruct H as [E|[H1 H2]].
  - assert (Z : a / b == 0) by (rewrite E; field; intros F; rewrite F in Hb; discriminate Hb).
    unfold fl. rewrite (Qeq_eq_bool _ _ Z). exists 0. split; [reflexivity|].
    rewrite Z. split; discriminate.
  - apply fl_normal.
    + apply Qle_trans with (2 ^ (-1000)); [apply pow2_le; lia | exact H1].
    + apply Qle_trans with (2 ^ 1000); [exact H2 | apply pow2_le; lia].
Qed.

Lemma Qmax_rounded a b p q (lo hi : Q) :
  0 <= lo -> 0 <= hi ->
  a * lo <= p -> p <= a * hi -> b * lo <= q -> q <= b * hi ->
  Qmax a b * lo <= Qmax p q /\ Qmax p q <= Qmax a b * hi.
Proof.
  intros Hlo Hhi P1 P2 Q1 Q2. split.
  - destruct (Q.max_spec a b) as [[_ ->]|[_ ->]].
    + apply Qle_trans with q; [exact Q1 | apply Q.le_max_r].
    + apply Qle_trans with p; [exact P1 | apply Q.le_max_l].
  - apply Q.max_lub.
    + apply Qle_trans with (a * hi); [exact P2|].
      apply Qmult_le_compat_r; [apply Q.le_max_l | exact Hhi].
    + apply Qle_trans with (b * hi); [exact Q2|].
      apply Qmult_le_compat_r; [apply Q.le_max_r | exact Hhi].
Qed.

(** C6, as the code has it. With a current root, a viewport of positive size
    and a content box that is not a point, neither so small nor so large
    that a quotient leaves the range of the normal doubles, the scale
    [centerTree] hands to [zoom.transform] is
    [0.9 / max(boxWidth / width, boxHeight / height)] up to the rounding of
    the three operations and of the literal: it is positive, within
    [4 * 2^-53] of that quotient, relatively, and makes the scaled box at most
    90% of the viewport in both directions, up to that rounding.
    [scaleExtent] plays no part in it. *)
Theorem centerTree_scale_fits_viewport
  (st : TreeVisualization) (r : Node) (bounds : BBox) :
  root st = Some r ->
  0 < width st -> 0 < height st ->
  bbox_width bounds == 0 \/
  (2 ^ (-1000) <= bbox_width bounds / width st /\
   bbox_width bounds / width st <= 2 ^ 1000) ->
  bbox_height bounds == 0 \/
  (2 ^ (-1000) <= bbox_height bounds / height st /\
   bbox_height bounds / height st <= 2 ^ 1000) ->
  0 < bbox_width bounds \/ 0 < bbox_height bounds ->
  exists z k,
    centerTree st bounds = Some z /\
    zoom_k z = Fin k /\
    0 < k /\
    (9 # 10) / Qmax (bbox_width bounds / width st)
                    (bbox_height bounds / height st) * (1 - 4 * roundoff) <= k /\
    k <= (9 # 10) / Qmax (bbox_width bounds / width st)
                         (bbox_height bounds / height st) * (1 + 4 * roundoff) /\
    k * bbox_width bounds <= (9 # 10) * (1 + 4 * roundoff) * width st /\
    k * bbox_height bounds <= (9 # 10) * (1 + 4 * roundoff) * height st.
Proof.
  intros Hr HW HH Hw Hh Hbox.
  set (w := bbox_width bounds) in *. set (h := bbox_height bounds) in *.
  set (W := width st) in *. set (H := height st) in *.
  destruct (ratio_rounded w W HW Hw) as (a & Ea & A1 & A2).
  destruct (ratio_rounded h H HH Hh) as (b & Eb & B1 & B2).
  set (M := Qmax (w / W) (h / H)).
  assert (Hw0 : 0 <= w / W).
  { destruct Hw as [E|[L _]].
    - rewrite E. unfold Qdiv. rewrite Qmult_0_l. discriminate.
    - apply Qle_trans with (2 ^ (-1000)); [apply Qlt_le_weak, pow2_pos | exact L]. }
  assert (Hh0 : 0 <= h / H).
  { destruct Hh as [E|[L _]].
    - rewrite E. unfold Qdiv. rewrite Qmult_0_l. discriminate.
    - apply Qle_trans with (2 ^ (-1000)); [apply Qlt_le_weak, pow2_pos | exact L]. }
  assert (Wpos : 0 < w -> 2 ^ (-1000) <= w / W /\ w / W <= 2 ^ 1000).
  { intros P. destruct Hw as [E|L]; [rewrite E in P; discriminate P | exact L]. }
  assert (Hpos : 0 < h -> 2 ^ (-1000) <= h / H /\ h / H <= 2 ^ 1000).
  { intros P. destruct Hh as [E|L]; [rewrite E in P; discriminate P | exact L]. }
  assert (Mlo : 2 ^ (-1000) <= M).
  { destruct Hbox as [P|P].
    - apply Qle_trans with (w / W); [apply (Wpos P) | apply Q.le_max_l].
    - apply Qle_trans with (h / H); [apply (Hpos P) | apply Q.le_max_r]. }
  assert (Mhi : M <= 2 ^ 1000).
  { apply Q.max_lub.
    - destruct Hw as [E|[_ L]]; [|exact L].
      rewrite E. unfold Qdiv. rewrite Qmult_0_l. apply Qlt_le_weak, pow2_pos.
    - destruct Hh as [E|[_ L]]; [|exact L].
      rewrite E. unfold Qdiv. rewrite Qmult_0_l. apply Qlt_le_weak, pow2_pos. }
  assert (Mpos : 0 < M) by (apply Qlt_le_trans with (2 ^ (-1000)); [apply pow2_pos | exact Mlo]).
  destruct (Qmax_rounded (w / W) (h / H) a b (1 - roundoff) (1 + roundoff))
    as [m1 m2]; try assumption; try discriminate.
  fold M in m1, m2. set (m := Qmax a b) in *.
  assert (mpos : 0 < m).
  { apply Qlt_le_trans with (M * (1 - roundoff)); [|exact m1].
    rewrite <- (Qmult_0_l (1 - roundoff)). apply Qmult_lt_compat_r; [reflexivity | exact Mpos]. }
  destruct (fl_normal (9 # 10)) as (c & Ec & c1 & c2);
    [apply Qle_trans with (2 ^ (-1)); [apply pow2_le; lia | discriminate]
    | apply Qle_trans with (2 ^ 0); [discriminate | apply pow2_le; lia] |].
  assert (cpos : 0 < c) by (unfold roundoff in c1; lra).
  (* c / m lies within the normal doubles *)
  assert (P1000 : 2 ^ (-1000) * 2 ^ 1000 == 1).
  { rewrite <- pow2_plus. reflexivity. }
  assert (D : c / m * m == c) by (field; intros E; rewrite E in mpos; discriminate mpos).
  assert (Dpos : 0 < c / m) by (apply Qdiv_pos; assumption).
  assert (Dlo : 2 ^ (-1001) <= c / m).
  { apply Qle_shift_div_l; [exact mpos|].
    assert (E : 2 ^ (-1001) == (1 # 2) * 2 ^ (-1000))
      by (change (-1001)%Z with (-1 + -1000)%Z; rewrite pow2_plus; reflexivity).
    rewrite E.
    assert (L : m <= 2 ^ 1000 * (1 + roundoff)).
    { apply Qle_trans with (M * (1 + roundoff)); [exact m2|].
      apply Qmult_le_compat_r; [exact Mhi | discriminate]. }
    assert (L' : (1 # 2) * 2 ^ (-1000) * m <= (1 # 2) * (1 + roundoff)).
    { apply Qle_trans with ((1 # 2) * 2 ^ (-1000) * (2 ^ 1000 * (1 + roundoff))).
      - apply Qmult_le_l; [|exact L].
        rewrite <- (Qmult_0_r (1 # 2)). apply Qmult_lt_l; [reflexivity | apply pow2_pos].
      - setoid_replace ((1 # 2) * 2 ^ (-1000) * (2 ^ 1000 * (1 + roundoff)))
          with ((1 # 2) * (2 ^ (-1000) * 2 ^ 1000) * (1 + roundoff)) by ring.
        rewrite P1000. apply Qle_refl. }
    unfold roundoff in *. lra. }
  assert (Dhi : c / m <= 2 ^ 1001).
  { apply Qle_shift_div_r; [exact mpos|].
    assert (E : 2 ^ 1001 == 2 * 2 ^ 1000)
      by (change 1001%Z with (1 + 1000)%Z; rewrite pow2_plus; reflexivity).
    rewrite E.
    assert (L : 2 ^ (-1000) * (1 - roundoff) <= m).
    { apply Qle_trans with (M * (1 - roundoff)); [|exact m1].
      apply Qmult_le_compat_r; [exact Mlo | discriminate]. }
    assert (L' : 2 * (1 - roundoff) <= 2 * 2 ^ 1000 * m).
    { apply Qle_trans with (2 * 2 ^ 1000 * (2 ^ (-1000) * (1 - roundoff))).
      - setoid_replace (2 * 2 ^ 1000 * (2 ^ (-1000) * (1 - roundoff)))
          with (2 * (2 ^ (-1000) * 2 ^ 1000) * (1 - roundoff)) by ring.
        rewrite P1000. apply Qle_refl.
      - apply Qmult_le_l; [|exact L].
        rewrite <- (Qmult_0_r 2). apply Qmult_lt_l; [reflexivity | apply pow2_pos]. }
    unfold roundoff in *. lra. }
  destruct (fl_normal (c / m)) as (k & Ek & k1 & k2);
    [apply Qle_trans with (2 ^ (-1001)); [apply pow2_le; lia | exact Dlo]
    | apply Qle_trans with (2 ^ 1001); [exact Dhi | apply pow2_le; lia] |].
  assert (kpos : 0 < k).
  { apply Qlt_le_trans with (c / m * (1 - roundoff)); [|exact k1].
    rewrite <- (Qmult_0_l (1 - roundoff)). apply Qmult_lt_compat_r; [reflexivity | exact Dpos]. }
  (* the products k * m and k * M *)
  assert (km1 : c * (1 - roundoff) <= k * m).
  { rewrite <- D at 1.
    setoid_replace (c / m * m * (1 - roundoff)) with (c / m * (1 - roundoff) * m) by ring.
    apply Qmult_le_compat_r; [exact k1 | apply Qlt_le_weak, mpos]. }
  assert (km2 : k * m <= c * (1 + roundoff)).
  { rewrite <- D at 1.
    setoid_replace (c / m * m * (1 + roundoff)) with (c / m * (1 + roundoff) * m) by ring.
    apply Qmult_le_compat_r; [exact k2 | apply Qlt_le_weak, mpos]. }
  assert (kM1 : k * (M * (1 - roundoff)) <= k * m)
    by (apply Qmult_le_l; assumption).
  assert (kM2 : k * m <= k * (M * (1 + roundoff)))
    by (apply Qmult_le_l; assumption).
  assert (KM : (9 # 10) * (1 - 4 * roundoff) <= k * M /\
               k * M <= (9 # 10) * (1 + 4 * roundoff)).
  { set (X := k * M) in *. set (Y := k * m) in *.
    setoid_replace (k * (M * (1 - roundoff))) with (X * (1 - roundoff)) in kM1
      by (unfold X; ring).
    setoid_replace (k * (M * (1 + roundoff))) with (X * (1 + roundoff)) in kM2
      by (unfold X; ring).
    clearbody X Y. unfold roundoff in *. split; lra. }
  destruct KM as [KM1 KM2].
  exists (mkZoom
            (jsub (jdiv (Fin W) (Fin 2))
                  (jmul (Fin k) (jadd (Fin (bbox_x bounds)) (jdiv (Fin w) (Fin 2)))))
            (jsub (jdiv (Fin H) (Fin 2))
                  (jmul (Fin k) (jadd (Fin (bbox_y bounds)) (jdiv (Fin h) (Fin 2)))))
            (Fin k)), k.
  split.
  - unfold centerTree. rewrite Hr. cbv zeta. fold w h W H.
    rewrite Ea, Eb, Ec. cbn [jmax]. fold m.
    assert (J : jdiv (Fin c) (Fin m) = Fin k).
    { unfold jdiv. rewrite (Qeq_bool_pos m mpos). exact Ek. }
    rewrite J. reflexivity.
  - split; [reflexivity|]. split; [exact kpos|].
    assert (Mne : ~ M == 0) by (intros E; rewrite E in Mpos; discriminate Mpos).
    split; [|split; [|split]].
    + setoid_replace ((9 # 10) / M * (1 - 4 * roundoff))
        with ((9 # 10) * (1 - 4 * roundoff) / M) by (field; exact Mne).
      apply Qle_shift_div_r; [exact Mpos | exact KM1].
    + setoid_replace ((9 # 10) / M * (1 + 4 * roundoff))
        with ((9 # 10) * (1 + 4 * roundoff) / M) by (field; exact Mne).
      apply Qle_shift_div_l; [exact Mpos | exact KM2].
    + assert (L : w <= M * W).
      { assert (E : w == w / W * W) by (field; intros E; rewrite E in HW; discriminate HW).
        rewrite E at 1. apply Qmult_le_compat_r; [apply Q.le_max_l | apply Qlt_le_weak, HW]. }
      apply Qle_trans with (k * (M * W)); [apply Qmult_le_l; assumption|].
      setoid_replace (k * (M * W)) with (k * M * W) by ring.
      apply Qmult_le_compat_r; [exact KM2 | apply Qlt_le_weak, HW].
    + assert (L : h <= M * H).
      { assert (E : h == h / H * H) by (field; intros E; rewrite E in HH; discriminate HH).
        rewrite E at 1. apply Qmult_le_compat_r; [apply Q.le_max_r | apply Qlt_le_weak, HH]. }
      apply Qle_trans with (k * (M * H)); [apply Qmult_le_l; assumption|].
      setoid_replace (k * (M * H)) with (k * M * H) by ring.
      apply Qmult_le_compat_r; [exact KM2 | apply Qlt_le_weak, HH].
Qed.

(** A content box of 80 by 50 in the viewport of the built sample. *)
Lemma centerTree_scale_fits_viewport_witness :
  exists z k,
    centerTree sample_built (mkBBox 0 0 80 50) = Some z /\
    zoom_k z = Fin k /\
    0 < k /\
    (9 # 10) / Qmax (80 / width sample_built) (50 / height sample_built) *
      (1 - 4 * roundoff) <= k /\
    k <= (9 # 10) / Qmax (80 / width sample_built) (50 / height sample_built) *
           (1 + 4 * roundoff) /\
    k * 80 <= (9 # 10) * (1 + 4 * roundoff) * width sample_built /\
    k * 50 <= (9 # 10) * (1 + 4 * roundoff) * height sample_built.
Proof.
  apply (centerTree_scale_fits_viewport sample_built sample_root (mkBBox 0 0 80 50)).
  - vm_compute. reflexivity.
  - vm_compute. reflexivity.
  - vm_compute. reflexivity.
  - right. split; vm_compute; discriminate.
  - right. split; vm_compute; discriminate.
  - left. vm_compute. reflexivity.
Defined.

(** * Further properties of the code *)

(** ** The empty visualization *)

(** X1. [clearTree] leaves a state that a second [clearTree] does not change,
    and on which [toggleNode], [expandAll], [collapseAll] and [render] change
    nothing either, [centerTree] hands no transform to the zoom, and a resize
    changes the dimensions only. *)
Theorem cleared_state_is_inert (st : TreeVisualization) :
  clearTree (clearTree st) = clearTree st /\
  (forall p, toggleNode (clearTree st) p = clearTree st) /\
  expandAll (clearTree st) = clearTree st /\
  collapseAll (clearTree st) = clearTree st /\
  render (clearTree st) = clearTree st /\
  (forall bounds, centerTree (clearTree st) bounds = None) /\
  (forall rw rh,
      resize (clearTree st) rw rh = updateDimensions (clearTree st) rw rh).
Proof.
  repeat split.
  destruct st as [t w h r c [e|] dn dl]; reflexivity.
Qed.

(** ** Invariants of the calls *)

Lemma run_invariant (Inv : TreeVisualization -> Prop) :
  (forall st o st', Inv st -> step st o = Ok st' -> Inv st') ->
  forall ops st st', Inv st -> run st ops = Ok st' -> Inv st'.
Proof.
  intros Hstep ops. induction ops as [|o ops IH]; intros st st' Hi Hrun.
  - injection Hrun as <-. exact Hi.
  - cbn [run] in Hrun. destruct (step st o) as [st1|e] eqn:Hs; [|discriminate].
    cbn [bind] in Hrun. exact (IH st1 st' (Hstep st o st1 Hi Hs) Hrun).
Qed.

(** What a pass leaves of the fields other than the tree, the counter and
    the rendered elements. *)
Lemma render_fields st :
  tree (render st) = tree st /\ width (render st) = width st /\
  height (render st) = height st /\ emptyState (render st) = emptyState st /\
  (root (render st) = None <-> root st = None).
Proof.
  unfold render. destruct (root st) as [r|] eqn:Hr; cbn.
  - repeat split; discriminate.
  - rewrite Hr. repeat split; trivial.
Qed.

(** The fields of the state after a call, but for the tree, the counter and
    the rendered elements: what the call does to the dimensions and to the
    placeholder, and whether it leaves a tree. *)
Lemma step_fields st o st' :
  step st o = Ok st' ->
  match o with
  | Build treeData =>
      width st' = width st /\ height st' = height st /\
      ((root st' = None /\ st' = clearTree st) \/
       (root st' <> None /\ emptyState st' = emptyState (hideEmptyState st)))
  | ClearTree => st' = clearTree st
  | Resize rw rh =>
      width st' = width (updateDimensions st rw rh) /\
      height st' = height (updateDimensions st rw rh) /\
      emptyState st' = emptyState st /\ (root st' = None <-> root st = None)
  | _ =>
      width st' = width st /\ height st' = height st /\
      emptyState st' = emptyState st /\ (root st' = None <-> root st = None)
  end.
Proof.
  intros Hstep.
  assert (R : forall s, root s <> None ->
              width (render s) = width s /\ height (render s) = height s /\
              emptyState (render s) = emptyState s /\
              (root (render s) = None <-> root s = None)).
  { intros s _. destruct (render_fields s) as (_ & H1 & H2 & H3 & H4).
    repeat split; try assumption; apply H4. }
  destruct o; cbn [step] in Hstep.
  - destruct (updateTree_cases st treeData) as [[E _]|(td & _ & _ & E)];
      rewrite E in Hstep; injection Hstep as <-.
    + destruct st as [t w h r c [e|] dn dl]; cbn; repeat split; left; split; reflexivity.
    + destruct (render_fields
                  (with_root (hideEmptyState st)
                     (Some (collapse_below_root (new_root (hideEmptyState st) td)))))
        as (_ & H1 & H2 & H3 & H4).
      rewrite H1, H2, H3. cbn [width height with_root hideEmptyState emptyState].
      repeat split. right. split; [|reflexivity].
      intros E'. apply H4 in E'. discriminate.
  - injection Hstep as <-. unfold toggleNode.
    destruct (root st) as [r|] eqn:Hr; [|rewrite Hr; repeat split; trivial].
    destruct (render_fields (with_root st (Some (upd p toggle r))))
      as (_ & H1 & H2 & H3 & H4).
    rewrite H1, H2, H3. cbn. repeat split; try discriminate;
      intros E; apply H4 in E; discriminate.
  - injection Hstep as <-.
    destruct (root st) as [r|] eqn:Hr; [|rewrite Hr; repeat split; trivial].
    cbn. repeat split; discriminate.
  - injection Hstep as <-. unfold expandAll.
    destruct (root st) as [r|] eqn:Hr; [|rewrite Hr; repeat split; trivial].
    destruct (render_fields (with_root st (Some (expand r))))
      as (_ & H1 & H2 & H3 & H4).
    rewrite H1, H2, H3. cbn. repeat split; try discriminate;
      intros E; apply H4 in E; discriminate.
  - injection Hstep as <-. unfold collapseAll.
    destruct (root st) as [r|] eqn:Hr; [|rewrite Hr; repeat split; trivial].
    match goal with
    | |- context [render ?s] =>
        destruct (render_fields s) as (_ & H1 & H2 & H3 & H4)
    end.
    rewrite H1, H2, H3. cbn. repeat split; try discriminate;
      intros E; apply H4 in E; discriminate.
  - injection Hstep as <-.
    destruct (render_fields st) as (_ & H1 & H2 & H3 & H4).
    repeat split; try assumption; apply H4.
  - injection Hstep as <-. unfold resize.
    destruct (render_fields (updateDimensions st rw rh)) as (_ & H1 & H2 & H3 & H4).
    repeat split; try assumption; apply H4.
  - injection Hstep as <-. reflexivity.
Qed.

Lemma updateDimensions_height st rw rh : 500 <= height (updateDimensions st rw rh).
Proof. cbn. apply Q.le_max_r. Qed.

(** X2. Whatever rectangles the container reports, after every sequence of
    calls on a new instance the height is at least 500, so that the extent
    handed to the layout, the height less both margins, is positive. *)
Theorem height_never_below_500
  (d3_tree : Q -> Q -> shape -> Path -> Q * Q) (rw rh : Q)
  (emptyEl : option Display) (ops : list Op) :
  exists st,
    run (construct d3_tree rw rh emptyEl) ops = Ok st /\
    500 <= height st /\
    0 < height st - margin - margin.
Proof.
  destruct (run_total ops (construct d3_tree rw rh emptyEl)) as [st Hst].
  exists st. split; [exact Hst|].
  assert (H : 500 <= height st).
  { apply (run_invariant (fun s => 500 <= height s)) with (3 := Hst).
    - intros s o s' Hs Hstep. pose proof (step_fields s o s' Hstep) as F.
      destruct o; try (destruct F as (_ & -> & _); exact Hs).
      + destruct F as (_ & -> & _). apply updateDimensions_height.
      + subst s'. destruct s as [t w h r c [e|] dn dl]; exact Hs.
    - apply updateDimensions_height. }
  split; [exact H|]. unfold margin. lra.
Qed.

(** X3. After every sequence of calls on a new instance: while a tree is
    kept, the placeholder element, if the page has one, is displayed as
    [none]; while none is kept, it is displayed as a block or still as the
    page had it at construction. *)
Theorem placeholder_hidden_while_tree_shown
  (d3_tree : Q -> Q -> shape -> Path -> Q * Q) (rw rh : Q)
  (emptyEl : option Display) (ops : list Op) :
  exists st,
    run (construct d3_tree rw rh emptyEl) ops = Ok st /\
    match root st, emptyEl with
    | _, None => emptyState st = None
    | Some _, Some _ => emptyState st = Some DisplayNone
    | None, Some _ =>
        emptyState st = Some DisplayBlock \/ emptyState st = emptyEl
    end.
Proof.
  destruct (run_total ops (construct d3_tree rw rh emptyEl)) as [st Hst].
  exists st. split; [exact Hst|].
  apply (run_invariant
           (fun s => match root s, emptyEl with
                     | _, None => emptyState s = None
                     | Some _, Some _ => emptyState s = Some DisplayNone
                     | None, Some _ =>
                         emptyState s = Some DisplayBlock \/ emptyState s = emptyEl
                     end)) with (3 := Hst).
  - intros s o s' Hs Hstep. pose proof (step_fields s o s' Hstep) as F.
    assert (Same : emptyState s' = emptyState s ->
                   (root s' = None <-> root s = None) ->
                   match root s', emptyEl with
                   | _, None => emptyState s' = None
                   | Some _, Some _ => emptyState s' = Some DisplayNone
                   | None, Some _ =>
                       emptyState s' = Some DisplayBlock \/ emptyState s' = emptyEl
                   end).
    { intros -> Hn. destruct (root s') as [r'|], (root s) as [r|]; try exact Hs.
      - destruct Hn as [_ Hn]. specialize (Hn eq_refl). discriminate.
      - destruct Hn as [Hn _]. specialize (Hn eq_refl). discriminate. }
    assert (Clear : match root (clearTree s), emptyEl with
                    | _, None => emptyState (clearTree s) = None
                    | Some _, Some _ => emptyState (clearTree s) = Some DisplayNone
                    | None, Some _ =>
                        emptyState (clearTree s) = Some DisplayBlock \/
                        emptyState (clearTree s) = emptyEl
                    end).
    { cbn. destruct emptyEl as [e|].
      - destruct (root s), (emptyState s) as [d|]; try (left; reflexivity);
          try discriminate Hs; destruct Hs; discriminate.
      - destruct (root s); rewrite Hs; reflexivity. }
    destruct o; try (destruct F as (_ & _ & F1 & F2); exact (Same F1 F2)).
    + destruct F as (_ & _ & [[_ ->]|[Hr He]]); [exact Clear|].
      rewrite He. cbn. destruct (root s') as [r'|]; [|contradiction Hr; reflexivity].
      destruct emptyEl as [e|].
      * destruct (root s), (emptyState s) as [d|]; try reflexivity;
          try discriminate Hs; destruct Hs; discriminate.
      * destruct (root s); rewrite Hs; reflexivity.
    + subst s'. exact Clear.
  - cbn. destruct emptyEl; [right|]; reflexivity.
Qed.


(** ** The data join *)

Lemma key_of_id_at t p :
  key_of t p = match id_at t p with Some k => k | None => 0%N end.
Proof.
  unfold key_of, id_at, own_at. destruct (get t p) as [d|]; reflexivity.
Qed.

Lemma has_key_key_of t p :
  has_key t p -> id_at t p = Some (key_of t p) /\ key_of t p <> 0%N.
Proof.
  intros (k & E & Hk). rewrite key_of_id_at, E. split; [reflexivity | exact Hk].
Qed.

Lemma rendered_has_key st r q :
  In q (descendants r) -> has_key (rendered st r) q.
Proof.
  intros Hq. destruct (joined_keys st r q Hq) as (k & Hk & Hk0).
  exists k. split; [rewrite rendered_id_at; exact Hk | exact Hk0].
Qed.

Lemma rendered_descendants st r : descendants (rendered st r) = descendants r.
Proof. unfold descendants. rewrite rendered_vshape. reflexivity. Qed.

Lemma joined_descendants st r : descendants (fst (joined st r)) = descendants r.
Proof. unfold descendants. rewrite joined_vshape. reflexivity. Qed.

Lemma in_sync_render st r : root st = Some r -> in_sync (render st).
Proof.
  intros Hr. unfold in_sync. rewrite (render_some st r Hr). cbn [root dom_nodes].
  split.
  - rewrite rendered_descendants, joined_descendants.
    apply map_ext. intros q. rewrite !key_of_id_at, rendered_id_at. reflexivity.
  - intros q. rewrite rendered_descendants. apply rendered_has_key.
Qed.

Lemma existsb_eqb_In k l : existsb (N.eqb k) l = true <-> In k l.
Proof.
  rewrite existsb_exists. split.
  - intros (x & Hx & E). apply N.eqb_eq in E. subst x. exact Hx.
  - intros H. exists k. split; [exact H | apply N.eqb_refl].
Qed.

Lemma nodeEnter_paths_with_root st rs q :
  In q (map fst (nodeEnter (with_root st (Some rs)))) <->
  In q (descendants rs) /\
  ~ In (key_of (fst (joined (with_root st (Some rs)) rs)) q) (dom_nodes st).
Proof.
  unfold nodeEnter. cbn [root with_root dom_nodes].
  rewrite map_map. cbn [fst]. rewrite map_id, filter_In, joined_descendants.
  rewrite negb_true_iff, <- not_true_iff_false, existsb_eqb_In. reflexivity.
Qed.

(** In a state whose rendered elements are those of the visible nodes of
    [r], a pass over a tree [rs] with the ids of [r] lets exactly those nodes
    enter that are visible in [rs] and were not in [r]. *)
Lemma nodeEnter_newly_visible st r rs q :
  root st = Some r -> in_sync st -> ids_ok r (nodeId st) ->
  (forall p, id_at rs p = id_at r p) ->
  In q (map fst (nodeEnter (with_root st (Some rs)))) <->
  In q (descendants rs) /\ ~ In q (descendants r).
Proof.
  intros Hr Hsync [Hb Hu] E. unfold in_sync in Hsync. rewrite Hr in Hsync.
  destruct Hsync as [Hdom Hkeys].
  rewrite nodeEnter_paths_with_root, Hdom.
  set (st' := with_root st (Some rs)).
  split; intros [Hq Hn]; (split; [exact Hq|]); intros H; apply Hn.
  - (* a node visible before is bound *)
    destruct (has_key_key_of r q (Hkeys q H)) as [Hk Hk0].
    apply in_map_iff. exists q. split; [|exact H].
    rewrite (key_of_id_at (fst (joined st' rs)) q).
    destruct (joined_keeps st' rs) as [_ Hkeep].
    rewrite (Hkeep q (key_of r q)); [reflexivity | rewrite E; exact Hk | exact Hk0].
  - (* a bound key is the key of the same node *)
    apply in_map_iff in H. destruct H as (q' & Hk & Hq').
    destruct (has_key_key_of r q' (Hkeys q' Hq')) as [Hk' Hk0].
    destruct (has_key_key_of _ q (joined_keys st' rs q Hq)) as [Hkq _].
    rewrite <- Hk in Hkq.
    destruct (joined_fresh st' rs q _ Hkq) as [H|H].
    + rewrite E in H. rewrite (Hu q q' _ H Hk'). exact Hq'.
    + specialize (Hb q' _ Hk'). cbn [nodeId with_root st'] in H. lia.
Qed.

Lemma in_sync_sample_built : in_sync sample_built.
Proof.
  assert (E : sample_built = render (updateTree_pass sample_start sample_payload))
    by reflexivity.
  rewrite E.
  apply (in_sync_render _
           (collapse_below_root
              (new_root (hideEmptyState sample_start) sample_payload))).
  reflexivity.
Qed.

(** X4. A pass run again with nothing changed lets no node enter. *)
Theorem second_pass_lets_nothing_enter (st : TreeVisualization) :
  nodeEnter (render st) = [].
Proof.
  destruct (root st) as [r|] eqn:Hr.
  2:{ rewrite (render_none st Hr). unfold nodeEnter. rewrite Hr. reflexivity. }
  pose proof (in_sync_render st r Hr) as Hsync.
  assert (Hr1 : root (render st) = Some (rendered st r))
    by (rewrite (render_some st r Hr); reflexivity).
  unfold in_sync in Hsync. rewrite Hr1 in Hsync. destruct Hsync as [Hdom Hkeys].
  unfold nodeEnter. rewrite Hr1.
  set (st1 := render st) in *. set (r1 := rendered st r) in *.
  assert (F : filter (fun p => negb (existsb (N.eqb (key_of (fst (joined st1 r1)) p))
                                       (dom_nodes st1)))
                     (descendants (fst (joined st1 r1))) = []).
  { destruct (filter _ _) as [|q l] eqn:Ef; [reflexivity|]. exfalso.
    assert (Hq : In q (q :: l)) by (left; reflexivity).
    rewrite <- Ef, filter_In, joined_descendants in Hq. destruct Hq as [Hq Hn].
    rewrite negb_true_iff, <- not_true_iff_false, existsb_eqb_In in Hn.
    apply Hn. rewrite Hdom. apply in_map_iff. exists q. split; [|exact Hq].
    destruct (has_key_key_of r1 q (Hkeys q Hq)) as [Hk Hk0].
    rewrite (key_of_id_at (fst (joined st1 r1)) q).
    destruct (joined_keeps st1 r1) as [_ Hkeep].
    rewrite (Hkeep q (key_of r1 q) Hk Hk0). reflexivity. }
  rewrite F. reflexivity.
Qed.

(** X5. In a state that calls on a new instance lead to and whose rendered
    elements are those of the visible nodes, the pass that a click on the node
    at [p] runs lets enter exactly the nodes that are visible after the toggle
    and were not before it: the join by id tells the nodes apart as their
    places in the tree do. *)
Theorem toggle_lets_enter_the_newly_visible
  (st : TreeVisualization) (r : Node) (p q : Path) :
  reachable st -> in_sync st -> root st = Some r ->
  (In q (map fst (nodeEnter (with_root st (Some (upd p toggle r))))) <->
   In q (descendants (upd p toggle r)) /\ ~ In q (descendants r)).
Proof.
  intros Hreach Hsync Hr.
  apply reachable_state_ok in Hreach. unfold state_ok in Hreach.
  rewrite Hr in Hreach. destruct Hreach as (_ & Hids & _).
  apply nodeEnter_newly_visible; try assumption.
  apply id_at_own_at. apply own_at_upd_toggle.
Qed.

(** A click on E1 of the built sample lets "cat" enter and not E1. *)
Lemma toggle_lets_enter_the_newly_visible_witness :
  In [0%nat; 0%nat] (map fst (nodeEnter sample_toggled)) <->
  In [0%nat; 0%nat] (descendants (upd [0%nat] toggle sample_root)) /\
  ~ In [0%nat; 0%nat] (descendants sample_root).
Proof.
  apply (toggle_lets_enter_the_newly_visible sample_built sample_root
           [0%nat] [0%nat; 0%nat]).
  - exact sample_built_reachable.
  - exact in_sync_sample_built.
  - vm_compute. reflexivity.
Defined.

(** X6. In such a state, the pass that [expandAll] runs lets enter exactly
    the payload nodes that were not visible. *)
Theorem expandAll_lets_enter_the_hidden
  (st : TreeVisualization) (r : Node) (q : Path) :
  reachable st -> in_sync st -> root st = Some r ->
  (In q (map fst (nodeEnter (with_root st (Some (expand r))))) <->
   In q (bfs_paths (td_shape (Node.data r))) /\ ~ In q (descendants r)).
Proof.
  intros Hreach Hsync Hr.
  apply reachable_state_ok in Hreach. unfold state_ok in Hreach.
  rewrite Hr in Hreach. destruct Hreach as (Hwf & Hids & _).
  rewrite (nodeEnter_newly_visible st r (expand r) q Hr Hsync Hids).
  - unfold descendants at 1.
    rewrite (vshape_full (expand r) (wf_expand r Hwf)
               (fun q' n => expand_no_collapsed q' r n Hwf)).
    rewrite data_expand. reflexivity.
  - apply id_at_own_at. intros p. apply own_at_expand, Hwf.
Qed.

Lemma expandAll_lets_enter_the_hidden_witness :
  In [0%nat; 0%nat]
     (map fst (nodeEnter (with_root sample_built (Some (expand sample_root))))) <->
  In [0%nat; 0%nat] (bfs_paths (td_shape (Node.data sample_root))) /\
  ~ In [0%nat; 0%nat] (descendants sample_root).
Proof.
  apply (expandAll_lets_enter_the_hidden sample_built sample_root [0%nat; 0%nat]).
  - exact sample_built_reachable.
  - exact in_sync_sample_built.
  - vm_compute. reflexivity.
Defined.

(** X7. In such a state, or in one that keeps no tree, the pass that
    [updateTree] runs for a payload with a truthy name lets every visible node
    of the new tree enter: no element of the tree before is taken over. *)
Theorem updateTree_lets_every_visible_node_enter
  (st : TreeVisualization) (td : TreeData) :
  reachable st -> in_sync st ->
  map fst (nodeEnter (updateTree_pass st td)) =
  descendants (collapse_below_root (new_root (hideEmptyState st) td)).
Proof.
  intros Hreach Hsync.
  apply reachable_state_ok in Hreach.
  set (st1 := hideEmptyState st).
  set (r0 := collapse_below_root (new_root st1 td)).
  unfold updateTree_pass. fold st1. fold r0.
  unfold nodeEnter. cbn [root with_root dom_nodes hideEmptyState st1].
  rewrite map_map. cbn [fst]. rewrite map_id, joined_descendants.
  apply forallb_filter_id. apply forallb_forall. intros q Hq.
  rewrite negb_true_iff, <- not_true_iff_false, existsb_eqb_In.
  set (st' := with_root st1 (Some r0)).
  change (mkTV (tree st) (width st) (height st) (Some r0) (nodeId st)
               match emptyState st with
               | Some _ => Some DisplayNone
               | None => None
               end (dom_nodes st) (dom_links st)) with st'.
  intros H.
  destruct (has_key_key_of _ q (joined_keys st' r0 q Hq)) as [Hk _].
  destruct (joined_fresh st' r0 q _ Hk) as [F|F].
  { unfold r0, st1 in F. rewrite id_at_new_tree in F. discriminate. }
  cbn [nodeId with_root hideEmptyState st' st1] in F.
  unfold in_sync in Hsync. unfold state_ok in Hreach.
  destruct (root st) as [r|].
  - destruct Hsync as [Hdom Hkeys]. destruct Hreach as (_ & [Hb _] & _).
    rewrite Hdom in H. apply in_map_iff in H. destruct H as (q' & E & Hq').
    destruct (has_key_key_of r q' (Hkeys q' Hq')) as [Hk' _].
    rewrite E in Hk'. specialize (Hb q' _ Hk'). lia.
  - rewrite Hsync in H. contradiction.
Qed.

Lemma updateTree_lets_every_visible_node_enter_witness :
  map fst (nodeEnter (updateTree_pass sample_built sample_payload)) =
  descendants
    (collapse_below_root (new_root (hideEmptyState sample_built) sample_payload)).
Proof.
  apply (updateTree_lets_every_visible_node_enter sample_built sample_payload).
  - exact sample_built_reachable.
  - exact in_sync_sample_built.
Defined.

(** ** collapseAll and expandAll *)

(** The tree [collapseAll] hands to [render]. *)
Lemma collapseAll_some st r :
  root st = Some r ->
  collapseAll st =
  render (with_root st
            (Some (match Node.children r with
                   | Arr l => Node.mk r (Arr (map collapse l)) (Node._children r)
                   | _ => r
                   end))).
Proof. intros H. unfold collapseAll. rewrite H. reflexivity. Qed.

Lemma erase_collapse_leaf c :
  slot_truthy (Node.children c) = false -> collapse c = c.
Proof. destruct c as [o [| |l] cch]; try reflexivity. discriminate. Qed.

(** X9. [collapseAll] leaves visible the root and those of its children that
    were visible, in order, and nothing deeper; a root child that was
    collapsed already is left as it was, with whatever is expanded inside
    it. *)
Theorem collapseAll_shows_root_and_its_visible_children
  (st : TreeVisualization) (r : Node) :
  root st = Some r ->
  exists r',
    root (collapseAll st) = Some r' /\
    descendants r' = [] :: map (fun i => [i]) (seq 0 (length (vis r))) /\
    (forall q, In q (descendants r') -> (length q <= 1)%nat) /\
    (forall i c,
        nth_error (vis r) i = Some c ->
        slot_truthy (Node.children c) = false ->
        exists c', nth_error (vis r') i = Some c' /\ erase c' = erase c).
Proof.
  intros Hr. rewrite (collapseAll_some st r Hr).
  set (rs := match Node.children r with
             | Arr l => Node.mk r (Arr (map collapse l)) (Node._children r)
             | _ => r
             end).
  set (st' := with_root st (Some rs)).
  exists (rendered st' rs).
  assert (Hvis : vis rs = map collapse (vis r)).
  { unfold rs, vis. destruct (Node.children r) as [| |l] eqn:Hl;
      cbn [Node.children slot_list]; try rewrite Hl; reflexivity. }
  assert (Hdesc : descendants (rendered st' rs) =
                  [] :: map (fun i => [i]) (seq 0 (length (vis r)))).
  { rewrite rendered_descendants. unfold descendants.
    rewrite (vshape_unfold rs). change (slot_list (Node.children rs)) with (vis rs).
    rewrite Hvis, bfs_paths_two_levels.
    - rewrite !length_map. reflexivity.
    - intros s Hs. apply in_map_iff in Hs. destruct Hs as (c & <- & Hc).
      apply in_map_iff in Hc. destruct Hc as (h & <- & _). apply vshape_collapse. }
  split; [rewrite (render_some st' rs eq_refl); reflexivity|].
  split; [exact Hdesc|]. split.
  - intros q. rewrite Hdesc. intros [<-|H]; [cbn; lia|].
    apply in_map_iff in H. destruct H as (i & <- & _). cbn. lia.
  - intros i c Hc Hleaf.
    destruct (vis_col_erase _ _ (rendered_erase st' rs)) as [V _].
    rewrite Hvis in V.
    assert (E : nth_error (map erase (map collapse (vis r))) i = Some (erase c))
      by (rewrite !nth_error_map, Hc; cbn; rewrite (erase_collapse_leaf c Hleaf);
          reflexivity).
    rewrite <- V, nth_error_map in E.
    destruct (nth_error (vis (rendered st' rs)) i) as [c'|]; [|discriminate].
    injection E as E. exists c'. split; [reflexivity | exact E].
Qed.

(** In the built sample, E1 is collapsed and stays as it is. *)
Lemma collapseAll_shows_root_and_its_visible_children_witness :
  exists r',
    root (collapseAll sample_built) = Some r' /\
    descendants r' = [] :: map (fun i => [i]) (seq 0 (length (vis sample_root))) /\
    (forall q, In q (descendants r') -> (length q <= 1)%nat) /\
    (forall i c,
        nth_error (vis sample_root) i = Some c ->
        slot_truthy (Node.children c) = false ->
        exists c', nth_error (vis r') i = Some c' /\ erase c' = erase c).
Proof.
  apply (collapseAll_shows_root_and_its_visible_children sample_built sample_root).
  vm_compute. reflexivity.
Defined.

(** ** Labels and circles *)

Lemma tidy_child d i c : tidy d -> nth_error (kids d) i = Some c -> tidy c.
Proof.
  intros H Hc p n Hn. apply (H (i :: p)). cbn [get]. rewrite Hc. exact Hn.
Qed.

Lemma tidy_intro d :
  arrays_ok d -> (forall i c, nth_error (kids d) i = Some c -> tidy c) -> tidy d.
Proof.
  intros Hd Hk [|i p] n Hn.
  - injection Hn as <-. exact Hd.
  - cbn [get] in Hn. destruct (nth_error (kids d) i) as [c|] eqn:Hc; [|discriminate].
    exact (Hk i c Hc p n Hn).
Qed.

Lemma list_upd_nil {A} (f : A -> A) i l : list_upd i f l = [] -> l = [].
Proof. destruct l as [|a l]; [reflexivity|]. destruct i; discriminate. Qed.

Lemma tidy_upd (f : Node -> Node) p : forall d,
  (forall n, tidy n -> tidy (f n)) -> tidy d -> tidy (upd p f d).
Proof.
  induction p as [|i p IH]; intros d Hf Hd; [apply Hf, Hd|].
  apply tidy_intro.
  - destruct (Hd [] d eq_refl) as [H1 H2]. cbn [upd].
    destruct (Node.children d) as [| |l] eqn:Hl.
    + destruct (Node._children d) as [| |l'] eqn:Hl'.
      * split; [rewrite Hl | rewrite Hl']; discriminate.
      * split; [rewrite Hl | rewrite Hl']; discriminate.
      * split; cbn; [discriminate|].
        intros E. injection E as E. apply list_upd_nil in E. subst l'.
        apply H2. reflexivity.
    + destruct (Node._children d) as [| |l'] eqn:Hl'.
      * split; [rewrite Hl | rewrite Hl']; discriminate.
      * split; [rewrite Hl | rewrite Hl']; discriminate.
      * split; cbn; [discriminate|].
        intros E. injection E as E. apply list_upd_nil in E. subst l'.
        apply H2. reflexivity.
    + split; cbn; [|exact H2].
      intros E. injection E as E. apply list_upd_nil in E. subst l.
      apply H1. reflexivity.
  - intros j c. rewrite kids_upd_cons, nth_error_list_upd.
    destruct (Nat.eqb i j).
    + destruct (nth_error (kids d) j) as [c0|] eqn:Hc0; [|discriminate].
      intros E. injection E as <-. apply IH; [exact Hf|].
      exact (tidy_child _ j _ Hd Hc0).
    + intros Hc. exact (tidy_child _ j _ Hd Hc).
Qed.

Lemma tidy_toggle n : tidy n -> tidy (toggle n).
Proof.
  intros Hn. destruct (Hn [] n eq_refl) as [H1 H2].
  apply tidy_intro.
  - unfold toggle. destruct (slot_truthy (Node.children n));
      split; cbn; try discriminate; assumption.
  - intros i c. rewrite kids_toggle. intros Hc. exact (tidy_child _ i _ Hn Hc).
Qed.

Lemma map_nil_inv {A B} (f : A -> B) l : map f l = [] -> l = [].
Proof. destruct l; [reflexivity | discriminate]. Qed.

Lemma tidy_collapse : forall d, tidy d -> tidy (collapse d).
Proof.
  induction d as [o ch cch IHch _] using Node_ind'. intros Hd.
  destruct ch as [| |l]; try exact Hd.
  cbn [collapse]. destruct (Hd [] _ eq_refl) as [H1 _]. cbn in H1.
  apply tidy_intro.
  - split; cbn; [discriminate|]. intros E. injection E as E.
    apply map_nil_inv in E. subst l. apply H1. reflexivity.
  - intros i c'. unfold kids. cbn. rewrite nth_error_map.
    destruct (nth_error l i) as [c|] eqn:Hc; [|discriminate].
    intros E. injection E as <-.
    cbn in IHch. rewrite Forall_forall in IHch.
    apply IHch; [exact (nth_error_In _ _ Hc)|].
    apply (tidy_child _ i _ Hd). unfold kids. cbn. exact Hc.
Qed.

Lemma tidy_expand : forall d, wf d -> tidy d -> tidy (expand d).
Proof.
  induction d as [o ch cch IHch IHcch] using Node_ind'. intros Hwf Hd.
  destruct (Hd [] _ eq_refl) as [H1 H2]. cbn in H1, H2.
  destruct (Hwf [] _ eq_refl) as [W1 _]. cbn in W1.
  assert (K : forall l cch',
              kids (Node.mk o ch cch) = l ->
              Forall (fun c => wf c -> tidy c -> tidy (expand c)) l ->
              l <> [] -> cch' <> Arr [] ->
              tidy (Node.mk o (Arr (map expand l)) cch')).
  { intros l cch' Hk IH Hl Hcch'. apply tidy_intro.
    - split; cbn; [|exact Hcch'].
      intros E. injection E as E. apply map_nil_inv in E. contradiction.
    - intros i c'. unfold kids. cbn. rewrite nth_error_map.
      destruct (nth_error l i) as [c|] eqn:Hc; [|discriminate].
      intros E. injection E as <-. rewrite Forall_forall in IH.
      apply IH; [exact (nth_error_In _ _ Hc) | |].
      + apply (wf_child _ i _ Hwf). rewrite Hk. exact Hc.
      + apply (tidy_child _ i _ Hd). rewrite Hk. exact Hc. }
  destruct cch as [| |l'].
  - destruct ch as [| |l]; try exact Hd.
    cbn [expand]. apply K; [reflexivity | exact IHch | congruence | discriminate].
  - destruct ch as [| |l]; try exact Hd.
    cbn [expand]. apply K; [reflexivity | exact IHch | congruence | discriminate].
  - cbn [expand]. apply K; [| exact IHcch | congruence | discriminate].
    destruct ch as [| |l]; try reflexivity.
    specialize (W1 eq_refl). discriminate.
Qed.

Lemma tidy_hierarchy_at td : forall dp, tidy (hierarchy_at dp td).
Proof.
  intros dp p. revert td dp.
  induction p as [|i p IH]; intros td dp n Hn.
  - injection Hn as <-. destruct td as [nm ty v [|c l]]; split; discriminate.
  - cbn [get] in Hn. rewrite kids_hierarchy_at, nth_error_map in Hn.
    destruct (nth_error (td_children td) i) as [c|]; [|discriminate].
    exact (IH c (S dp) n Hn).
Qed.

Lemma tidy_on_own phi n : tidy n -> tidy (Node.on_own phi n).
Proof.
  intros Hn. apply tidy_intro.
  - exact (Hn [] n eq_refl).
  - intros i c Hc. exact (tidy_child _ i _ Hn Hc).
Qed.

Lemma tidy_map_children (f : Node -> Node) r l :
  Node.children r = Arr l ->
  (forall n, tidy n -> tidy (f n)) ->
  tidy r -> tidy (Node.mk r (Arr (map f l)) (Node._children r)).
Proof.
  intros Hl Hf Hr.
  destruct (Hr [] r eq_refl) as [H1 H2].
  assert (Hk : kids r = l) by (unfold kids; rewrite Hl; reflexivity).
  apply tidy_intro.
  - split; cbn; [|exact H2].
    intros E. injection E as E. apply map_nil_inv in E. rewrite E in Hl. exact (H1 Hl).
  - intros i c'. unfold kids. cbn. rewrite nth_error_map.
    destruct (nth_error l i) as [c|] eqn:Hc; [|discriminate].
    intros E. injection E as <-. apply Hf.
    apply (tidy_child _ i _ Hr). rewrite Hk. exact Hc.
Qed.

Lemma tidy_new_tree st td : tidy (collapse_below_root (new_root st td)).
Proof.
  assert (H : tidy (new_root st td))
    by (unfold new_root; apply tidy_on_own, tidy_hierarchy_at).
  unfold collapse_below_root.
  destruct (Node.children (new_root st td)) as [| |l] eqn:Hl; try exact H.
  apply tidy_map_children; try assumption.
  intros n Hn. destruct (slot_truthy (Node.children n)); [apply tidy_collapse|]; exact Hn.
Qed.

Lemma arrays_ok_erase n m : erase n = erase m -> arrays_ok n -> arrays_ok m.
Proof.
  rewrite (erase_unfold n), (erase_unfold m). intros E [H1 H2].
  injection E as _ _ E1 E2. split; intros F; rewrite F in *.
  - destruct (Node.children n) as [| |l]; try discriminate.
    injection E1 as E1. apply map_nil_inv in E1. subst l. apply H1. reflexivity.
  - destruct (Node._children n) as [| |l]; try discriminate.
    injection E2 as E2. apply map_nil_inv in E2. subst l. apply H2. reflexivity.
Qed.

Lemma tidy_erase a b : erase a = erase b -> tidy a -> tidy b.
Proof.
  intros E Ha p n Hn.
  destruct (get_erase_eq b a p n (eq_sym E) Hn) as (m & Hm & Em).
  exact (arrays_ok_erase m n Em (Ha p m Hm)).
Qed.

Lemma render_tidy st :
  (forall r, root st = Some r -> tidy r) ->
  forall r', root (render st) = Some r' -> tidy r'.
Proof.
  intros H r' Hr'. destruct (render_root_inv st r' Hr') as (r & Hr & ->).
  apply (tidy_erase r); [symmetry; apply rendered_erase | exact (H r Hr)].
Qed.

Lemma step_tidy st o st' :
  state_ok st /\ (forall r, root st = Some r -> tidy r) ->
  step st o = Ok st' ->
  state_ok st' /\ (forall r, root st' = Some r -> tidy r).
Proof.
  intros [Hok Ht] Hstep. split; [exact (step_state_ok st o st' Hok Hstep)|].
  destruct o; cbn [step] in Hstep.
  - destruct (updateTree_cases st treeData) as [[E _]|(td & _ & _ & E)];
      rewrite E in Hstep; injection Hstep as <-; [discriminate|].
    apply render_tidy. cbn [root with_root]. intros r E0. injection E0 as <-.
    apply tidy_new_tree.
  - injection Hstep as <-. unfold toggleNode.
    destruct (root st) as [r|] eqn:Hr; [|rewrite Hr; discriminate].
    apply render_tidy. cbn [root with_root]. intros r0 E0. injection E0 as <-.
    apply tidy_upd; [exact tidy_toggle | exact (Ht r eq_refl)].
  - injection Hstep as <-.
    destruct (root st) as [r|] eqn:Hr; [|rewrite Hr; discriminate].
    cbn [root with_root]. intros r0 E0. injection E0 as <-.
    apply tidy_upd; [exact tidy_collapse | exact (Ht r eq_refl)].
  - injection Hstep as <-. unfold expandAll.
    destruct (root st) as [r|] eqn:Hr; [|rewrite Hr; discriminate].
    apply render_tidy. cbn [root with_root]. intros r0 E0. injection E0 as <-.
    apply tidy_expand; [|exact (Ht r eq_refl)].
    unfold state_ok in Hok. rewrite Hr in Hok. apply Hok.
  - injection Hstep as <-. unfold collapseAll.
    destruct (root st) as [r|] eqn:Hr; [|rewrite Hr; discriminate].
    apply render_tidy. cbn [root with_root]. intros r0 E0. injection E0 as <-.
    destruct (Node.children r) as [| |l] eqn:Hl; try exact (Ht r eq_refl).
    apply tidy_map_children; [exact Hl | exact tidy_collapse | exact (Ht r eq_refl)].
  - injection Hstep as <-. apply render_tidy, Ht.
  - injection Hstep as <-. unfold resize. apply render_tidy. exact Ht.
  - injection Hstep as <-. discriminate.
Qed.

Lemma reachable_tidy st r : reachable st -> root st = Some r -> wf r /\ tidy r.
Proof.
  intros (t & rw & rh & e & ops & H) Hr.
  destruct (run_invariant
              (fun s => state_ok s /\ forall r, root s = Some r -> tidy r)
              step_tidy ops (construct t rw rh e) st) as [Hok Ht];
    [split; [exact I | discriminate] | exact H |].
  unfold state_ok in Hok. rewrite Hr in Hok. split; [apply Hok | exact (Ht r Hr)].
Qed.

(** X10. In every tree that calls on a new instance lead to, a node's label
    is put to the left of its circle and anchored at its end exactly when the
    node's payload has children, whether the node is expanded or collapsed;
    the label of a node whose payload has none is put to the right and
    anchored at its start. *)
Theorem label_side_tells_payload_children
  (st : TreeVisualization) (r : Node) (p : Path) (n : Node) :
  reachable st -> root st = Some r -> get r p = Some n ->
  (td_children (Node.data n) <> [] /\
   label_x n = -13 /\ text_anchor n = AnchorEnd) \/
  (td_children (Node.data n) = [] /\
   label_x n = 13 /\ text_anchor n = AnchorStart).
Proof.
  intros Hreach Hr Hn.
  destruct (reachable_tidy st r Hreach Hr) as [Hwf Ht].
  destruct (Hwf p n Hn) as [_ Hk]. destruct (Ht p n Hn) as [A1 A2].
  unfold label_x, text_anchor, kids in *.
  destruct (Node.children n) as [| |l];
    [destruct (Node._children n) as [| |l'] .. |].
  - right. cbn in *. split; [symmetry; exact Hk | split; reflexivity].
  - right. cbn in *. split; [symmetry; exact Hk | split; reflexivity].
  - left. cbn in *. split; [|split; reflexivity].
    rewrite <- Hk. intros E. apply map_nil_inv in E. subst l'. apply A2. reflexivity.
  - right. cbn in *. split; [symmetry; exact Hk | split; reflexivity].
  - right. cbn in *. split; [symmetry; exact Hk | split; reflexivity].
  - left. cbn in *. split; [|split; reflexivity].
    rewrite <- Hk. intros E. apply map_nil_inv in E. subst l'. apply A2. reflexivity.
  - left. cbn in *. split; [|split; reflexivity].
    rewrite <- Hk. intros E. apply map_nil_inv in E. subst l. apply A1. reflexivity.
Qed.

(** The collapsed E1 of the built sample has its label on the left. *)
Lemma label_side_tells_payload_children_witness :
  (td_children (Node.data sample_E1) <> [] /\
   label_x sample_E1 = -13 /\ text_anchor sample_E1 = AnchorEnd) \/
  (td_children (Node.data sample_E1) = [] /\
   label_x sample_E1 = 13 /\ text_anchor sample_E1 = AnchorStart).
Proof.
  apply (label_side_tells_payload_children sample_built sample_root [0%nat]).
  - exact sample_built_reachable.
  - vm_compute. reflexivity.
  - vm_compute. reflexivity.
Defined.

(** X11. The radius of a node's circle lies between 4 and 10; it is the
    payload's value when that lies between 4 and 10, and 4 when the payload
    has no value or the value 0. *)
Theorem node_radius_between_4_and_10 (d : Node) :
  4 <= node_radius d /\ node_radius d <= 10 /\
  match td_value (Node.data d) with
  | Some v =>
      (4 <= v -> v <= 10 -> node_radius d == v) /\
      (v == 0 -> node_radius d == 4) /\
      (v <= 4 -> node_radius d == 4) /\
      (10 <= v -> node_radius d == 10)
  | None => node_radius d == 4
  end.
Proof.
  unfold node_radius, value_or_4.
  assert (B : forall v, 4 <= Qmax 4 (Qmin 10 v) /\ Qmax 4 (Qmin 10 v) <= 10).
  { intros v. split; [apply Q.le_max_l|].
    apply Q.max_lub; [discriminate | apply Q.le_min_l]. }
  assert (Four : Qmax 4 (Qmin 10 4) == 4) by reflexivity.
  assert (Low : forall v, v <= 4 -> Qmax 4 (Qmin 10 v) == 4).
  { intros v Hv. apply Q.max_l. rewrite Q.min_r; [exact Hv|].
    apply (Qle_trans _ 4); [exact Hv | discriminate]. }
  destruct (td_value (Node.data d)) as [v|].
  - destruct (Qeq_bool v 0) eqn:E0.
    + apply Qeq_bool_eq in E0.
      split; [apply B|]. split; [apply B|]. split; [|split; [|split]].
      * intros H4 _. lra.
      * intros _. exact Four.
      * intros _. exact Four.
      * intros H10. lra.
    + split; [apply B|]. split; [apply B|]. split; [|split; [|split]].
      * intros H4 H10. rewrite Q.min_r by exact H10. apply Q.max_r. exact H4.
      * intros Hv. apply Qeq_eq_bool in Hv. congruence.
      * apply Low.
      * intros H10. rewrite Q.min_l by exact H10. reflexivity.
  - split; [rewrite Four; apply Qle_refl|]. split; [|exact Four].
    rewrite Four. discriminate.
Qed.

(** ** Passes that change nothing but positions *)

Lemma vshape_erase : forall d, vshape (erase d) = vshape d.
Proof.
  induction d as [o ch cch IHch _] using Node_ind'.
  rewrite (vshape_unfold (erase _)), (vshape_unfold (Node.mk o ch cch)).
  rewrite erase_unfold. cbn [Node.children].
  destruct ch as [| |l]; try reflexivity.
  cbn [slot_list] in *. rewrite map_map. f_equal.
  apply map_ext_in. intros c Hc. rewrite Forall_forall in IHch. exact (IHch c Hc).
Qed.

Lemma vshape_erase_eq a b : erase a = erase b -> vshape a = vshape b.
Proof. intros E. rewrite <- (vshape_erase a), <- (vshape_erase b), E. reflexivity. Qed.

Lemma pass_idle st rs :
  (forall q, In q (descendants rs) -> has_key rs q) ->
  joined st rs = (laid_out st rs, nodeId st).
Proof.
  intros Hkeys.
  assert (Hkeys' : forall q, In q (descendants (laid_out st rs)) ->
                             has_key (laid_out st rs) q).
  { intros q Hq. unfold descendants in Hq. rewrite laid_out_vshape in Hq.
    destruct (Hkeys q Hq) as (k & Hk & Hk0).
    exists k. split; [rewrite laid_out_id_at; exact Hk | exact Hk0]. }
  rewrite joined_unfold.
  rewrite (key_fold_idle (tl (descendants (laid_out st rs)))).
  - apply key_fold_idle. exact Hkeys'.
  - intros q Hq. apply Hkeys', In_tl, Hq.
Qed.

(** A pass over a tree with the visible nodes and the ids of the tree whose
    elements are rendered. *)
Lemma quiet_pass st0 r st rs :
  in_sync st0 -> root st0 = Some r ->
  root st = Some rs -> nodeId st = nodeId st0 ->
  vshape rs = vshape r -> (forall q, id_at rs q = id_at r q) ->
  nodeId (render st) = nodeId st0 /\
  dom_nodes (render st) = dom_nodes st0 /\
  root (render st) = Some (rendered st rs) /\
  forall q, id_at (rendered st rs) q = id_at r q.
Proof.
  intros Hsync Hr Hrs Hid Hv Hids.
  unfold in_sync in Hsync. rewrite Hr in Hsync. destruct Hsync as [Hdom Hkeys].
  assert (Hd : descendants rs = descendants r) by (unfold descendants; rewrite Hv; reflexivity).
  assert (Hj : joined st rs = (laid_out st rs, nodeId st)).
  { apply pass_idle. intros q Hq. rewrite Hd in Hq.
    destruct (Hkeys q Hq) as (k & Hk & Hk0). exists k. rewrite Hids. split; assumption. }
  rewrite (render_some st rs Hrs). cbn [nodeId dom_nodes root]. rewrite Hj. cbn [fst snd].
  split; [exact Hid|]. split; [|split; [reflexivity|]].
  - rewrite Hdom. unfold descendants at 1. rewrite laid_out_vshape.
    fold (descendants rs). rewrite Hd. apply map_ext. intros q.
    rewrite !key_of_id_at, laid_out_id_at, Hids. reflexivity.
  - intros q. rewrite rendered_id_at, Hj. cbn [fst].
    rewrite laid_out_id_at. apply Hids.
Qed.

(** X12. When the rendered elements are those of the visible nodes, the
    resize observer's callback assigns no id and lets no element enter or
    leave: counter, keys of the elements, ids of the nodes and the tree's
    structure are as before, whatever the new width and height. *)
Theorem resize_keeps_nodes_and_elements
  (st : TreeVisualization) (r : Node) (rw rh : Q) :
  in_sync st -> root st = Some r ->
  nodeId (resize st rw rh) = nodeId st /\
  dom_nodes (resize st rw rh) = dom_nodes st /\
  exists r',
    root (resize st rw rh) = Some r' /\
    erase r' = erase r /\
    forall q, id_at r' q = id_at r q.
Proof.
  intros Hsync Hr. unfold resize.
  destruct (quiet_pass st r (updateDimensions st rw rh) r Hsync Hr)
    as (H1 & H2 & H3 & H4); try reflexivity; [exact Hr|].
  split; [exact H1|]. split; [exact H2|].
  exists (rendered (updateDimensions st rw rh) r).
  split; [exact H3|]. split; [apply rendered_erase | exact H4].
Qed.

Lemma resize_keeps_nodes_and_elements_witness :
  nodeId (resize sample_built 1024 768) = nodeId sample_built /\
  dom_nodes (resize sample_built 1024 768) = dom_nodes sample_built /\
  exists r',
    root (resize sample_built 1024 768) = Some r' /\
    erase r' = erase sample_root /\
    forall q, id_at r' q = id_at sample_root q.
Proof.
  apply (resize_keeps_nodes_and_elements sample_built sample_root 1024 768).
  - exact in_sync_sample_built.
  - vm_compute. reflexivity.
Defined.

Lemma expand_expand : forall d, expand (expand d) = expand d.
Proof.
  induction d as [o ch cch IHch IHcch] using Node_ind'.
  assert (M : forall l, Forall (fun c => expand (expand c) = expand c) l ->
              map expand (map expand l) = map expand l).
  { intros l H. rewrite map_map. apply map_ext_in. rewrite Forall_forall in H. exact H. }
  destruct cch as [| |l'].
  - destruct ch as [| |l]; try reflexivity. cbn [expand]. rewrite (M l IHch). reflexivity.
  - destruct ch as [| |l]; try reflexivity. cbn [expand]. rewrite (M l IHch). reflexivity.
  - cbn [expand]. rewrite (M l' IHcch). reflexivity.
Qed.

Lemma erase_expand : forall d, erase (expand d) = expand (erase d).
Proof.
  induction d as [o ch cch IHch IHcch] using Node_ind'.
  assert (M : forall l, Forall (fun c => erase (expand c) = expand (erase c)) l ->
              map erase (map expand l) = map expand (map erase l)).
  { intros l H. rewrite !map_map. apply map_ext_in. rewrite Forall_forall in H. exact H. }
  destruct cch as [| |l'].
  - destruct ch as [| |l]; try reflexivity.
    cbn [expand erase]. rewrite (M l IHch). reflexivity.
  - destruct ch as [| |l]; try reflexivity.
    cbn [expand erase]. rewrite (M l IHch). reflexivity.
  - cbn [expand erase]. rewrite (M l' IHcch). reflexivity.
Qed.

Lemma collapse_collapse d : collapse (collapse d) = collapse d.
Proof. destruct d as [o [| |l] cch]; reflexivity. Qed.

Lemma erase_collapse : forall d, erase (collapse d) = collapse (erase d).
Proof.
  induction d as [o ch cch IHch _] using Node_ind'.
  destruct ch as [| |l]; try reflexivity.
  cbn [collapse erase]. rewrite !map_map. do 2 f_equal.
  apply map_ext_in. cbn in IHch. rewrite Forall_forall in IHch. exact IHch.
Qed.

(** The write of [collapseAll] to the tree. *)
Lemma collapse_children_twice :
  let f := fun r : Node =>
             match Node.children r with
             | Arr l => Node.mk r (Arr (map collapse l)) (Node._children r)
             | _ => r
             end in
  (forall a, erase (f a) = f (erase a)) /\ (forall a, f (f a) = f a).
Proof.
  intros f. split; intros [o ch cch]; unfold f; destruct ch as [| |l]; try reflexivity.
  - cbn [Node.children Node._children Node.own erase]. rewrite !map_map.
    do 2 f_equal. apply map_ext. intros c. apply erase_collapse.
  - cbn [Node.children Node._children Node.own]. rewrite map_map.
    do 2 f_equal. apply map_ext. intros c. apply collapse_collapse.
Qed.

(** A write that is idempotent, reads the arrays only and moves no node,
    rendered twice. *)
Lemma structural_twice (f : Node -> Node) st r :
  (forall a, erase (f a) = f (erase a)) -> (forall a, f (f a) = f a) ->
  (forall a, wf a -> forall q, own_at (f a) q = own_at a q) ->
  (forall a, wf a -> wf (f a)) ->
  state_ok st -> root st = Some r ->
  let s1 := render (with_root st (Some (f r))) in
  exists r1, root s1 = Some r1 /\
  let s2 := render (with_root s1 (Some (f r1))) in
  nodeId s2 = nodeId s1 /\ dom_nodes s2 = dom_nodes s1 /\
  exists r2, root s2 = Some r2 /\ erase r2 = erase r1 /\
             forall q, id_at r2 q = id_at r1 q.
Proof.
  intros Herase Hidem Hown Hwf Hok Hr. cbv zeta.
  set (st' := with_root st (Some (f r))). set (s1 := render st').
  set (r1 := rendered st' (f r)).
  assert (Hr1 : root s1 = Some r1)
    by (unfold s1; rewrite (render_some st' (f r) eq_refl); reflexivity).
  exists r1. split; [exact Hr1|].
  assert (Hsync : in_sync s1) by (apply (in_sync_render st' (f r)); reflexivity).
  assert (Hwf1 : wf r1).
  { unfold state_ok in Hok. rewrite Hr in Hok. destruct Hok as (W & _).
    unfold r1. apply rendered_wf, Hwf, W. }
  assert (He : erase (f r1) = erase r1).
  { rewrite Herase. unfold r1. rewrite rendered_erase, <- Herase, Hidem. reflexivity. }
  destruct (quiet_pass s1 r1 (with_root s1 (Some (f r1))) (f r1) Hsync Hr1)
    as (H1 & H2 & H3 & H4); try reflexivity.
  - apply vshape_erase_eq, He.
  - apply id_at_own_at. intros q. apply Hown, Hwf1.
  - split; [exact H1|]. split; [exact H2|].
    exists (rendered (with_root s1 (Some (f r1))) (f r1)).
    split; [exact H3|]. split; [|exact H4].
    rewrite rendered_erase. exact He.
Qed.

(** X13. [expandAll] called again changes nothing but positions: the second
    call assigns no id, lets no element enter or leave, and leaves the tree's
    structure and the ids of its nodes as the first call left them. *)
Theorem expandAll_twice_as_once (st : TreeVisualization) (r : Node) :
  reachable st -> root st = Some r ->
  nodeId (expandAll (expandAll st)) = nodeId (expandAll st) /\
  dom_nodes (expandAll (expandAll st)) = dom_nodes (expandAll st) /\
  exists r1 r2,
    root (expandAll st) = Some r1 /\
    root (expandAll (expandAll st)) = Some r2 /\
    erase r2 = erase r1 /\ forall q, id_at r2 q = id_at r1 q.
Proof.
  intros Hreach Hr. apply reachable_state_ok in Hreach.
  destruct (structural_twice expand st r erase_expand expand_expand
              (fun a W q => own_at_expand q a W) wf_expand Hreach Hr)
    as (r1 & Hr1 & H1 & H2 & r2 & Hr2 & He & Hi).
  assert (E1 : expandAll st = render (with_root st (Some (expand r))))
    by (unfold expandAll; rewrite Hr; reflexivity).
  assert (E2 : expandAll (expandAll st) =
               render (with_root (expandAll st) (Some (expand r1))))
    by (unfold expandAll at 1; rewrite E1, Hr1; reflexivity).
  rewrite E2, E1.
  split; [exact H1|]. split; [exact H2|].
  exists r1, r2. repeat split; assumption.
Qed.

Lemma expandAll_twice_as_once_witness :
  nodeId (expandAll (expandAll sample_built)) = nodeId (expandAll sample_built) /\
  dom_nodes (expandAll (expandAll sample_built)) = dom_nodes (expandAll sample_built) /\
  exists r1 r2,
    root (expandAll sample_built) = Some r1 /\
    root (expandAll (expandAll sample_built)) = Some r2 /\
    erase r2 = erase r1 /\ forall q, id_at r2 q = id_at r1 q.
Proof.
  apply (expandAll_twice_as_once sample_built sample_root).
  - exact sample_built_reachable.
  - vm_compute. reflexivity.
Defined.

(** X14. [collapseAll] called again changes nothing but positions: the
    second call assigns no id, lets no element enter or leave, and leaves the
    tree's structure and the ids of its nodes as the first call left them. *)
Theorem collapseAll_twice_as_once (st : TreeVisualization) (r : Node) :
  reachable st -> root st = Some r ->
  nodeId (collapseAll (collapseAll st)) = nodeId (collapseAll st) /\
  dom_nodes (collapseAll (collapseAll st)) = dom_nodes (collapseAll st) /\
  exists r1 r2,
    root (collapseAll st) = Some r1 /\
    root (collapseAll (collapseAll st)) = Some r2 /\
    erase r2 = erase r1 /\ forall q, id_at r2 q = id_at r1 q.
Proof.
  intros Hreach Hr. apply reachable_state_ok in Hreach.
  set (f := fun r : Node =>
              match Node.children r with
              | Arr l => Node.mk r (Arr (map collapse l)) (Node._children r)
              | _ => r
              end).
  destruct collapse_children_twice as [Fe Fi]. fold f in Fe, Fi.
  assert (Fown : forall a, wf a -> forall q, own_at (f a) q = own_at a q).
  { intros a _ q. unfold f. destruct (Node.children a) as [| |l] eqn:Hl; try reflexivity.
    apply own_at_map_children; [exact Hl|]. intros n q'. apply own_at_collapse. }
  assert (Fwf : forall a, wf a -> wf (f a)).
  { intros a W. unfold f. destruct (Node.children a) as [| |l] eqn:Hl; try exact W.
    apply wf_map_children; try assumption;
      [intros n; apply wf_collapse | apply data_collapse]. }
  destruct (structural_twice f st r Fe Fi Fown Fwf Hreach Hr)
    as (r1 & Hr1 & H1 & H2 & r2 & Hr2 & He & Hi).
  assert (E1 : collapseAll st = render (with_root st (Some (f r))))
    by (unfold collapseAll; rewrite Hr; reflexivity).
  assert (E2 : collapseAll (collapseAll st) =
               render (with_root (collapseAll st) (Some (f r1))))
    by (unfold collapseAll at 1; rewrite E1, Hr1; reflexivity).
  rewrite E2, E1.
  split; [exact H1|]. split; [exact H2|].
  exists r1, r2. repeat split; assumption.
Qed.

Lemma collapseAll_twice_as_once_witness :
  nodeId (collapseAll (collapseAll sample_built)) = nodeId (collapseAll sample_built) /\
  dom_nodes (collapseAll (collapseAll sample_built)) =
  dom_nodes (collapseAll sample_built) /\
  exists r1 r2,
    root (collapseAll sample_built) = Some r1 /\
    root (collapseAll (collapseAll sample_built)) = Some r2 /\
    erase r2 = erase r1 /\ forall q, id_at r2 q = id_at r1 q.
Proof.
  apply (collapseAll_twice_as_once sample_built sample_root).
  - exact sample_built_reachable.
  - vm_compute. reflexivity.
Defined.

(** ** The positions a pass writes *)

(** The write of a loop at the node at [q], when the loop reaches it. *)
Lemma own_at_for_each_at (Inv Post : Node.props -> Prop)
  (F : Path -> Node.props -> Node.props) ps q :
  (forall o, Inv o -> Inv (F q o) /\ Post (F q o)) ->
  forall d o,
    own_at d q = Some o -> Inv o -> Post o \/ In q ps ->
    exists o', own_at (for_each (fun p => Node.on_own (F p)) ps d) q = Some o' /\
               Inv o' /\ Post o'.
Proof.
  intros HF. unfold for_each.
  induction ps as [|p ps IH]; intros d o Ho Hi Hg.
  - exists o. destruct Hg as [Hg|[]]. repeat split; assumption.
  - cbn [fold_left].
    pose proof (own_at_upd_own (F p) p d q) as E. rewrite Ho in E.
    destruct (list_eq_dec Nat.eq_dec q p) as [<-|Hqp].
    + destruct (HF o Hi) as [Hi' Hp']. apply (IH _ (F q o) E Hi'). left. exact Hp'.
    + apply (IH _ o E Hi).
      destruct Hg as [Hg|[Hq|Hq]];
        [left; exact Hg | exfalso; apply Hqp; symmetry; exact Hq | right; exact Hq].
Qed.

(** A loop leaves alone the nodes it does not reach. *)
Lemma own_at_for_each_other (F : Path -> Node.props -> Node.props) ps q :
  ~ In q ps ->
  forall d, own_at (for_each (fun p => Node.on_own (F p)) ps d) q = own_at d q.
Proof.
  unfold for_each. induction ps as [|p ps IH]; intros Hq d; [reflexivity|].
  cbn [fold_left]. rewrite IH by (intros H; apply Hq; right; exact H).
  rewrite own_at_upd_own.
  destruct (list_eq_dec Nat.eq_dec q p) as [->|_]; [|reflexivity].
  exfalso. apply Hq. left. reflexivity.
Qed.

Lemma key_fold_other ps q :
  ~ In q ps ->
  forall tc, own_at (fst (fold_left key_step ps tc)) q = own_at (fst tc) q.
Proof.
  induction ps as [|p ps IH]; intros Hq tc; [reflexivity|].
  cbn [fold_left]. rewrite IH by (intros H; apply Hq; right; exact H).
  destruct tc as [t c]. cbn [fst].
  destruct (key_step_cases t c p) as [[_ ->]|[[_ ->]|(_ & _ & ->)]]; try reflexivity.
  cbn [fst]. rewrite own_at_upd_own.
  destruct (list_eq_dec Nat.eq_dec q p) as [->|_]; [|reflexivity].
  exfalso. apply Hq. left. reflexivity.
Qed.

Lemma rendered_positions st r q :
  In q (descendants r) ->
  exists o,
    own_at (rendered st r) q = Some o /\
    (Node.x o = Some (fst (tree st (height st - margin - margin)
                                (width st - margin - margin) (vshape r) q)) /\
     Node.y o = Some (depth_y o)) /\
    Node.x0 o = Node.x o /\ Node.y0 o = Node.y o.
Proof.
  intros Hq.
  set (vx := fst (tree st (height st - margin - margin)
                       (width st - margin - margin) (vshape r) q)).
  destruct (descendants_get r q Hq) as [n Hn].
  assert (H0 : own_at r q = Some (Node.own n))
    by (unfold own_at; rewrite Hn; reflexivity).
  destruct (own_at_for_each_at (fun _ => True) (fun o => Node.x o = Some vx)
              (fun p => Node.set_xy
                 (Some (fst (tree st (height st - margin - margin)
                                  (width st - margin - margin) (vshape r) p)))
                 (Some (snd (tree st (height st - margin - margin)
                                  (width st - margin - margin) (vshape r) p))))
              (descendants r) q (fun o _ => conj I eq_refl) r _ H0 I (or_intror Hq))
    as (o1 & H1 & _ & X1).
  fold (tree_layout st r) in H1.
  destruct (own_at_for_each_at (fun o => Node.x o = Some vx)
              (fun o => Node.y o = Some (depth_y o))
              (fun _ o => Node.set_xy (Node.x o) (Some (depth_y o)) o)
              (descendants (tree_layout st r)) q
              (fun o Hx => conj Hx eq_refl) (tree_layout st r) o1 H1 X1)
    as (o2 & H2 & X2 & Y2).
  { right. unfold descendants, tree_layout in *. rewrite vshape_for_each. exact Hq. }
  fold (depth_spacing (tree_layout st r)) in H2. fold (laid_out st r) in H2.
  set (Good := fun o : Node.props =>
                 Node.x o = Some vx /\ Node.y o = Some (depth_y o)).
  assert (H3 : exists o, own_at (fst (joined st r)) q = Some o /\ Good o).
  { rewrite joined_unfold.
    assert (K : forall k o, Good o -> Good (Node.set_id k o))
      by (intros k o G; exact G).
    apply (key_fold_ind (fun tc => exists o, own_at (fst tc) q = Some o /\ Good o));
      [intros tc p; apply key_step_good, K|].
    apply (key_fold_ind (fun tc => exists o, own_at (fst tc) q = Some o /\ Good o));
      [intros tc p; apply key_step_good, K|].
    exists o2. split; [exact H2 | split; assumption]. }
  destruct H3 as (o3 & H3 & G3).
  unfold rendered, store_positions.
  apply (own_at_for_each_at Good
           (fun o => Node.x0 o = Node.x o /\ Node.y0 o = Node.y o)
           (fun _ o => Node.set_x0y0 (Node.x o) (Node.y o) o)
           (descendants (fst (joined st r))) q
           (fun o G => conj G (conj eq_refl eq_refl)) (fst (joined st r)) o3 H3 G3).
  right. unfold descendants. rewrite joined_vshape. exact Hq.
Qed.

Lemma rendered_hidden st r q :
  ~ In q (descendants r) -> own_at (rendered st r) q = own_at r q.
Proof.
  intros Hq. unfold rendered, store_positions.
  rewrite own_at_for_each_other
    with (F := fun _ o => Node.set_x0y0 (Node.x o) (Node.y o) o)
    by (unfold descendants; rewrite joined_vshape; exact Hq).
  rewrite joined_unfold.
  assert (Hq' : ~ In q (descendants (laid_out st r)))
    by (unfold descendants; rewrite laid_out_vshape; exact Hq).
  rewrite key_fold_other by exact Hq'.
  rewrite key_fold_other by (intros H; apply Hq', In_tl, H).
  cbn [fst]. unfold laid_out, depth_spacing.
  rewrite own_at_for_each_other
    with (F := fun _ o => Node.set_xy (Node.x o) (Some (depth_y o)) o)
    by (unfold descendants, tree_layout; rewrite vshape_for_each; exact Hq).
  unfold tree_layout.
  apply own_at_for_each_other
    with (F := fun p => Node.set_xy
                 (Some (fst (tree st (height st - margin - margin)
                                  (width st - margin - margin) (vshape r) p)))
                 (Some (snd (tree st (height st - margin - margin)
                                  (width st - margin - margin) (vshape r) p)))).
  exact Hq.
Qed.

(** X15. A pass leaves every visible node with the [x] the layout gives it
    for the extent of height and width less the margins, and with its
    previous position [x0], [y0] equal to its position [x], [y]. *)
Theorem pass_stores_positions_of_visible_nodes
  (st : TreeVisualization) (r : Node) (q : Path) :
  root st = Some r -> In q (descendants r) ->
  exists r' o,
    root (render st) = Some r' /\ own_at r' q = Some o /\
    Node.x o = Some (fst (tree st (height st - margin - margin)
                               (width st - margin - margin) (vshape r) q)) /\
    Node.x0 o = Node.x o /\ Node.y0 o = Node.y o.
Proof.
  intros Hr Hq.
  destruct (rendered_positions st r q Hq) as (o & Ho & [Hx _] & H0).
  exists (rendered st r), o.
  split; [rewrite (render_some st r Hr); reflexivity|].
  split; [exact Ho|]. split; [|exact H0].
  exact Hx.
Qed.

(** The root of the built sample, rendered again. *)
Lemma pass_stores_positions_of_visible_nodes_witness :
  exists r' o,
    root (render sample_built) = Some r' /\ own_at r' [] = Some o /\
    Node.x o = Some (fst (tree sample_built (height sample_built - margin - margin)
                               (width sample_built - margin - margin)
                               (vshape sample_root) [])) /\
    Node.x0 o = Node.x o /\ Node.y0 o = Node.y o.
Proof.
  apply (pass_stores_positions_of_visible_nodes sample_built sample_root []).
  - vm_compute. reflexivity.
  - vm_compute. left. reflexivity.
Defined.

(** X16. A pass writes nothing to a node that is not visible: a node inside
    a collapsed subtree keeps the id and the positions it had. *)
Theorem pass_leaves_hidden_nodes_alone
  (st : TreeVisualization) (r : Node) (q : Path) :
  root st = Some r -> ~ In q (descendants r) ->
  exists r', root (render st) = Some r' /\ own_at r' q = own_at r q.
Proof.
  intros Hr Hq. exists (rendered st r).
  split; [rewrite (render_some st r Hr); reflexivity|].
  apply rendered_hidden, Hq.
Qed.

(** "cat", inside the collapsed E1 of the built sample. *)
Lemma pass_leaves_hidden_nodes_alone_witness :
  exists r', root (render sample_built) = Some r' /\
             own_at r' [0%nat; 0%nat] = own_at sample_root [0%nat; 0%nat].
Proof.
  apply (pass_leaves_hidden_nodes_alone sample_built sample_root [0%nat; 0%nat]).
  - vm_compute. reflexivity.
  - vm_compute. intros [H|[H|[]]]; discriminate H.
Defined.

(** ** The page controller *)



Lemma Qceiling_between (y : Q) (q : Z) :
  inject_Z q < y -> y <= inject_Z (q + 1) -> Qceiling y = (q + 1)%Z.
Proof.
  intros H1 H2.
  pose proof (Qle_ceiling y) as C1. pose proof (Qceiling_lt y) as C2.
  assert (L1 : inject_Z q < inject_Z (Qceiling y)) by (apply Qlt_le_trans with y; assumption).
  assert (L2 : inject_Z (Qceiling y - 1) < inject_Z (q + 1))
    by (apply Qlt_le_trans with y; assumption).
  rewrite <- Zlt_Qlt in L1, L2. lia.
Qed.

(** X19. For a whole word count below 2^53, the reading time shown is the
    least whole number of minutes in which the words can be read at 200
    words a minute: the rounding of the quotient to a double does not
    change its ceiling.  It is 0 for an absent word count. *)
Theorem reading_time_is_least_number_of_minutes (n : Z) :
  (0 <= n < 2 ^ 53)%Z ->
  readingTime None = Fin 0 /\
  exists t : Z,
    readingTime (Some (inject_Z n)) = Fin (inject_Z t) /\
    (n <= 200 * t)%Z /\
    forall t' : Z, (n <= 200 * t')%Z -> (t <= t')%Z.
Proof.
  intros Hn. split; [reflexivity|].
  unfold readingTime.
  set (v := if Qeq_bool (inject_Z n) 0 then 0 else inject_Z n).
  assert (Hv : v == inject_Z n).
  { unfold v. destruct (Qeq_bool (inject_Z n) 0) eqn:E; [|reflexivity].
    apply Qeq_bool_eq in E. symmetry. exact E. }
  change (jdiv (Fin v) (Fin 200)) with (fl (v / 200)).
  pose proof (Z.div_mod n 200 ltac:(lia)) as Hdiv.
  pose proof (Z.mod_pos_bound n 200 ltac:(lia)) as Hmod.
  set (q := (n / 200)%Z) in *. set (r := (n mod 200)%Z) in *.
  assert (Hq : (0 <= q)%Z) by (apply Z.div_pos; lia).
  assert (Ex : v / 200 == inject_Z q + inject_Z r * (1 # 200)).
  { rewrite Hv, Hdiv, inject_Z_plus, inject_Z_mult. change (inject_Z 200) with 200. field. }
  destruct (Z.eq_dec r 0) as [Hr|Hr].
  - assert (Ez : v / 200 == inject_Z q).
    { rewrite Ex, Hr. change (inject_Z 0) with 0. ring. }
    destruct (fl_int (v / 200) q Ez ltac:(lia)) as (y & -> & Ey).
    exists (Qceiling y). split; [reflexivity|].
    assert (Ec : Qceiling y = q) by (rewrite Ey, Ez; apply Qceiling_Z).
    rewrite Ec. split; lia.
  - assert (Rq : 1 <= inject_Z r /\ inject_Z r <= 199).
    { split; [rewrite <- (Zle_Qle 1) | rewrite <- (Zle_Qle _ 199)]; lia. }
    assert (Nq : inject_Z q * 200 + inject_Z r < 9007199254740992).
    { assert (Hz : (q * 200 + r < 9007199254740992)%Z) by lia.
      rewrite Zlt_Qlt, inject_Z_plus, inject_Z_mult in Hz. exact Hz. }
    assert (Q0 : 0 <= inject_Z q) by (rewrite <- (Zle_Qle 0); exact Hq).
    destruct (fl_normal (v / 200)) as (y & -> & Y1 & Y2).
    + apply Qle_trans with (1 # 200); [vm_compute; discriminate|]. rewrite Ex. lra.
    + apply Qle_trans with 9007199254740992; [rewrite Ex; lra | vm_compute; discriminate].
    + exists (Qceiling y). split; [reflexivity|].
      assert (Ec : Qceiling y = (q + 1)%Z).
      { apply Qceiling_between.
        - rewrite Ex in Y1. unfold roundoff in Y1. lra.
        - rewrite inject_Z_plus. change (inject_Z 1) with 1.
          rewrite Ex in Y2. unfold roundoff in Y2. lra. }
      rewrite Ec. split; lia.
Qed.

(** A text of 1234 words: 7 minutes. *)
Lemma reading_time_is_least_number_of_minutes_witness :
  readingTime None = Fin 0 /\
  exists t : Z,
    readingTime (Some (inject_Z 1234)) = Fin (inject_Z t) /\
    (1234 <= 200 * t)%Z /\
    forall t' : Z, (1234 <= 200 * t')%Z -> (t <= t')%Z.
Proof.
  apply (reading_time_is_least_number_of_minutes 1234). lia.
Defined.




Lemma stat_stopped target k :
  stat_ticks k target (target, false) = (target, false).
Proof. induction k as [|k IH]; [reflexivity | exact IH]. Qed.


